(** * LetterPuzzleMaker: the board generator and its placement validator

    A shallow embedding of [01-LetterPuzzleMaker/index.js] (class [Board],
    function [createBoard], the script), of the word list script
    [01-LetterPuzzleMaker/process_words.js] and of the player's game, class
    [Game] of [02-CowLetterPuzzle/src/index.js], with the properties of the
    placement engine and of the code around it.

    JavaScript values that occur on the board are modelled by [jsval];
    methods of [Board] run in a small state-and-exception monad over the
    object's fields, so that both a [TypeError] raised by indexing
    [undefined] and the absence of writes can be stated and proved. *)

From Stdlib Require Import QArith.
From stdpp Require Import base list strings gmap.

Open Scope nat_scope.

(** * Part I: the model *)

(** ** JavaScript values on the board *)

(** A tile, or the result of indexing a string or an array, is either a
    string or [undefined] (index out of range, or a hole of an array). *)
Inductive jsval : Type :=
  | JUndefined
  | JStr (s : string).

#[global] Instance jsval_eq_dec : EqDecision jsval.
Proof. solve_decision. Defined.

(** The sentinel of an empty tile, ["."]. *)
Definition EMPTY : jsval := JStr ".".

(** [word[i]]: the one-character string at index [i], [undefined] out of range. *)
Definition charAt (word : string) (i : nat) : jsval :=
  match String.get i word with
  | Some a => JStr (String a EmptyString)
  | None => JUndefined
  end.

(** The conversion applied by [acc += char]. *)
Definition toString (v : jsval) : string :=
  match v with
  | JUndefined => "undefined"
  | JStr s => s
  end.

(** ** The object state and the method monad *)

Record Board : Type := mkBoard {
  size : nat;
  tiles : list (list jsval);
  totalPlacements : nat
}.

Inductive error : Type := TypeError.

Inductive outcome (A : Type) : Type :=
  | Ok (a : A)
  | Throw (e : error).
Arguments Ok {A} a.
Arguments Throw {A} e.

Definition M (A : Type) : Type := Board -> outcome A * Board.

Definition ret {A} (a : A) : M A := fun b => (Ok a, b).

Definition throw {A} (e : error) : M A := fun b => (Throw e, b).

Definition bind {A B} (m : M A) (k : A -> M B) : M B :=
  fun b =>
    match m b with
    | (Ok a, b') => k a b'
    | (Throw e, b') => (Throw e, b')
    end.

Notation "x <- m ;; k" := (bind m (fun x => k))
  (at level 100, m at next level, right associativity).
Notation "m ;;; k" := (bind m (fun _ => k))
  (at level 100, right associativity).

(** Control flow of a loop body: fall through to the next iteration with the
    updated local variables, or [return v] out of the enclosing method. *)
Inductive flow (S R : Type) : Type :=
  | Continue (s : S)
  | Return (v : R).
Arguments Continue {S R} s.
Arguments Return {S R} v.

(** [for (i of idxs) body], threading the loop's local variables [s]. *)
Fixpoint forEach {I S R} (idxs : list I) (s : S) (body : S -> I -> M (flow S R))
  : M (flow S R) :=
  match idxs with
  | [] => ret (Continue s)
  | i :: idxs' =>
      f <- body s i ;;
      match f with
      | Continue s' => forEach idxs' s' body
      | Return v => ret (Return v)
      end
  end.

(** ** Array accesses *)

(** [this.tiles[r][c]]: indexing a missing row throws, a missing column
    reads [undefined]. *)
Definition tileAt (r c : nat) : M jsval :=
  fun b =>
    match tiles b !! r with
    | None => (Throw TypeError, b)
    | Some row => (Ok (default JUndefined (row !! c)), b)
    end.

(** [row[c] = v] on a JavaScript array: in range it overwrites, past the end
    the array grows and the skipped indices are holes. *)
Definition arraySet (row : list jsval) (c : nat) (v : jsval) : list jsval :=
  if c <? length row then <[c := v]> row
  else row ++ replicate (c - length row) JUndefined ++ [v].

(** [this.tiles[r][c] = v]. *)
Definition setTile (r c : nat) (v : jsval) : M unit :=
  fun b =>
    match tiles b !! r with
    | None => (Throw TypeError, b)
    | Some row =>
        (Ok tt, mkBoard (size b) (<[r := arraySet row c v]> (tiles b))
                        (totalPlacements b))
    end.

Definition getSize : M nat := fun b => (Ok (size b), b).

Definition getTotalPlacements : M nat := fun b => (Ok (totalPlacements b), b).

Definition setTotalPlacements (n : nat) : M unit :=
  fun b => (Ok tt, mkBoard (size b) (tiles b) n).

(** ** Methods of [Board] *)

Definition getDeltas (horizontal : bool) : nat * nat :=
  if horizontal then (0, 1) else (1, 0).

Definition getWordMask (horizontal : bool) (r c : nat) (word : string)
    (searchRow searchColumn : nat) : M jsval :=
  if horizontal then
    if negb (searchRow =? r) || (searchColumn <? c)
       || (c + String.length word <=? searchColumn)
    then tileAt searchRow searchColumn
    else ret (charAt word (searchColumn - c))
  else
    if negb (searchColumn =? c) || (searchRow <? r)
       || (r + String.length word <=? searchRow)
    then tileAt searchRow searchColumn
    else ret (charAt word (searchRow - r)).

Section Lexicon.

(** The parsed word file, [WORDS], and the set built from it. *)
Variable WORDS : list string.

Definition WORD_SET : gset string := list_to_set WORDS.

(** [WORD_SET.has(s)]. *)
Definition has (s : string) : bool := bool_decide (s ∈ WORD_SET).

(** The first loop of [isValidPlacement]: locals [(overlaps, standalone)]. *)
Definition scanWord (horizontal : bool) (r c : nat) (word : string)
  : M (flow (nat * nat) bool) :=
  let '(dr, dc) := getDeltas horizontal in
  forEach (seq 0 (String.length word)) (0, 0)
    (fun counts i =>
       let '(overlaps, standalone) := counts in
       boardTile <- tileAt (r + dr * i) (c + dc * i) ;;
       if bool_decide (boardTile ≠ EMPTY) then
         if bool_decide (boardTile ≠ charAt word i) then ret (Return false)
         else ret (Continue (overlaps + 1, standalone))
       else ret (Continue (overlaps, standalone + 1))).

(** The run test applied when a run ends: [acc.length >= 2 && !WORD_SET.has(acc)]. *)
Definition badRun (acc : string) : bool :=
  (2 <=? String.length acc) && negb (has acc).

(** The innermost loop over [sc], with local [acc], for line [sr] of one axis. *)
Definition scanLine (horizontal : bool) (r c : nat) (word : string)
    (flip : bool) (sr : nat) : M (flow string bool) :=
  n <- getSize ;;
  forEach (seq 0 n) EmptyString
    (fun acc sc =>
       char <- getWordMask horizontal r c word
                 (if flip then sc else sr) (if flip then sr else sc) ;;
       if bool_decide (char = EMPTY) then
         if badRun acc then ret (Return false) else ret (Continue EmptyString)
       else ret (Continue (acc +:+ toString char))).

(** The cross-check of all rows, then all columns. *)
Definition checkAllLines (horizontal : bool) (r c : nat) (word : string)
  : M (flow unit bool) :=
  forEach [false; true] tt
    (fun _ flip =>
       n <- getSize ;;
       forEach (seq 0 n) tt
         (fun _ sr =>
            f <- scanLine horizontal r c word flip sr ;;
            match f with
            | Return v => ret (Return v)
            | Continue acc =>
                if badRun acc then ret (Return false) else ret (Continue tt)
            end)).

Definition isValidPlacement (horizontal : bool) (r c : nat) (word : string)
  : M bool :=
  f <- scanWord horizontal r c word ;;
  match f with
  | Return v => ret v
  | Continue (overlaps, standalone) =>
      tp <- getTotalPlacements ;;
      if ((0 <? tp) && (overlaps =? 0)) || (standalone =? 0) then ret false
      else
        g <- checkAllLines horizontal r c word ;;
        match g with
        | Return v => ret v
        | Continue _ => ret true
        end
  end.

Definition actuallyPlaceWord (word : string) (horizontal : bool) (r c : nat)
  : M unit :=
  tp <- getTotalPlacements ;;
  setTotalPlacements (tp + 1) ;;;
  let '(dr, dc) := getDeltas horizontal in
  f <- forEach (R := unit) (seq 0 (String.length word)) tt
         (fun _ i =>
            setTile (r + dr * i) (c + dc * i) (charAt word i) ;;;
            ret (Continue tt)) ;;
  ret tt.

(** The iterations of [for (x = 0; x <= this.size - word.length; x++)]; the
    bound is a signed difference, so the loop is empty when the word is
    longer than the board. *)
Definition startsUpTo (n len : nat) : list nat :=
  seq 0 (Z.to_nat (Z.of_nat n - Z.of_nat len + 1)).

(** The placements visited by the two loop nests of [makePuzzle], in visiting
    order: the horizontal ones row by row, then the vertical ones. *)
Definition candidates (n len : nat) : list (bool * nat * nat) :=
  flat_map (fun r => map (fun c => (true, r, c)) (startsUpTo n len)) (seq 0 n)
  ++ flat_map (fun r => map (fun c => (false, r, c)) (seq 0 n)) (startsUpTo n len).

(** [Math.floor(Math.random() * n)]: [Math.random()] lies in [0, 1), so the
    result is some index below [n], and [0] when [n] is [0]. The draw [x] of
    the random source selects which. *)
Definition randomIndex (x n : nat) : nat :=
  if n =? 0 then 0 else x mod n.

(** One iteration of the trial loop of [makePuzzle], with its two draws. *)
Definition cycle (rnd : nat * nat) : M unit :=
  match WORDS !! randomIndex (fst rnd) (length WORDS) with
  | None =>
      (* [word] is [undefined]: the first loop test reads [word.length] *)
      throw TypeError
  | Some word =>
      n <- getSize ;;
      f <- forEach (R := unit) (candidates n (String.length word)) []
             (fun validPlacements '(h, r, c) =>
                ok <- isValidPlacement h r c word ;;
                ret (Continue (if ok then validPlacements ++ [(h, r, c)]
                               else validPlacements))) ;;
      match f with
      | Return _ => ret tt
      | Continue validPlacements =>
          if 0 <? length validPlacements then
            match validPlacements
                    !! randomIndex (snd rnd) (length validPlacements) with
            | Some (h, r, c) => actuallyPlaceWord word h r c
            | None => throw TypeError
            end
          else ret tt
      end
  end.

Definition makePuzzle (cycles : nat) (rnd : nat -> nat * nat) : M unit :=
  setTotalPlacements 0 ;;;
  f <- forEach (R := unit) (seq 0 cycles) tt
         (fun _ i => cycle (rnd i) ;;; ret (Continue tt)) ;;
  ret tt.

(** The default argument of [makePuzzle]. *)
#[warnings="-abstract-large-number"]
Definition DEFAULT_CYCLES : nat := 50000.

(** The grid built by the constructor before it calls [makePuzzle]. *)
Definition emptyBoard (n : nat) : Board :=
  mkBoard n (replicate n (replicate n EMPTY)) 0.

(** [new Board(size)]: the exception of [makePuzzle], if any, propagates. *)
Definition newBoard (n : nat) (rnd : nat -> nat * nat) : outcome Board :=
  match makePuzzle DEFAULT_CYCLES rnd (emptyBoard n) with
  | (Ok _, b) => Ok b
  | (Throw e, _) => Throw e
  end.

(** The counter of [density]: tiles, holes included, that are not ["."]. *)
Definition occupied (b : Board) : nat :=
  length (filter (fun ch => ch ≠ EMPTY) (concat (tiles b))).

(** [density()], as an exact fraction. *)
Definition density (b : Board) : Q :=
  (inject_Z (Z.of_nat (occupied b)) / inject_Z (Z.of_nat (size b * size b)))%Q.

(** [x < y] on fractions. *)
Definition Qltb (x y : Q) : bool := negb (Qle_bool y x).

Section Search.

(** The successive readings of [Date.now()], in milliseconds, and the random
    draws handed to each generated board. *)
Variable now : nat -> Z.
Variable rnd : nat -> nat -> nat * nat.

(** The [while] loop of [createBoard]; [k] counts the clock readings taken so
    far. [None] means the loop is still running when [fuel] iterations have
    been spent. *)
Fixpoint searchLoop (fuel k : nat) (startTime : Z) (searchTimeSeconds : Q)
    (n : nat) (bestDensity : Q) (best : option Board) (boardsGenerated : nat)
  : option (outcome (option Board * nat)) :=
  match fuel with
  | 0 => None
  | S fuel' =>
      if Qltb (inject_Z (now k - startTime)) (searchTimeSeconds * 1000)%Q then
        match newBoard n (rnd boardsGenerated) with
        | Throw e => Some (Throw e)
        | Ok board =>
            let d := density board in
            let boardsGenerated := boardsGenerated + 1 in
            if Qltb bestDensity d then
              searchLoop fuel' (k + 1) startTime searchTimeSeconds n
                d (Some board) boardsGenerated
            else
              searchLoop fuel' (k + 1) startTime searchTimeSeconds n
                bestDensity best boardsGenerated
        end
      else Some (Ok (best, boardsGenerated))
  end.

Definition createBoard (fuel : nat) (searchTimeSeconds : Q) (n : nat)
  : option (outcome (option Board * nat)) :=
  searchLoop fuel 1 (now 0) searchTimeSeconds n 0%Q None 0.

End Search.

End Lexicon.

(** ** Rendering: [Board.toString] *)

(** The newline character. *)
Definition NL : string := String (Ascii.ascii_of_nat 10) EmptyString.

(** An element as [Array.prototype.join] prints it: [undefined] and holes
    print as nothing. *)
Definition joinItem (v : jsval) : string :=
  match v with
  | JUndefined => EmptyString
  | JStr s => s
  end.

(** [row.join("")]. *)
Definition joinTiles (row : list jsval) : string :=
  foldr (fun v s => joinItem v +:+ s) EmptyString row.

(** [lines.join("\n")]. *)
Fixpoint joinLines (lines : list string) : string :=
  match lines with
  | [] => EmptyString
  | [l] => l
  | l :: rest => l +:+ NL +:+ joinLines rest
  end.

(** ["-".repeat(n)]. *)
Fixpoint repeatDash (n : nat) : string :=
  match n with
  | 0 => EmptyString
  | S n' => "-" +:+ repeatDash n'
  end.

(** [toString()] of [Board]. *)
Definition boardToString (b : Board) : string :=
  "+" +:+ repeatDash (size b) +:+ "+" +:+ NL +:+
  joinLines (map (fun row => "|" +:+ joinTiles row +:+ "|") (tiles b)) +:+
  NL +:+ "+" +:+ repeatDash (size b) +:+ "+" +:+ NL.

(** ** The script: the last three lines of [index.js]

    The board is searched for 5 seconds at size 10 and printed; [toString] on
    a null grid throws. The result is the text of the first [console.log]. *)

Definition script (WORDS : list string) (now : nat -> Z)
    (rnd : nat -> nat -> nat * nat) (fuel : nat) : option (outcome string) :=
  match createBoard WORDS now rnd fuel 5 10 with
  | None => None
  | Some (Throw e) => Some (Throw e)
  | Some (Ok (None, _)) => Some (Throw TypeError)
  | Some (Ok (Some board, _)) => Some (Ok (boardToString board))
  end.

(** * Part II: the vocabulary of the properties *)

(** ** Running a method: its result and the state it leaves *)

Definition eval {A} (m : M A) (b : Board) : outcome A := fst (m b).

Definition exec {A} (m : M A) (b : Board) : Board := snd (m b).

(** A method is read-only when it leaves every field as it found it, whether
    it returns or throws. *)
Definition readonly {A} (m : M A) : Prop := forall b, exec m b = b.

(** The value a read yields, as a function of the state. *)
Definition peek (b : Board) (r c : nat) : outcome jsval :=
  match tiles b !! r with
  | None => Throw TypeError
  | Some row => Ok (default JUndefined (row !! c))
  end.

(** ** Well-formed boards and feasible placements *)

(** A tile value written by the program: a string of exactly one character. *)
Definition isChar (v : jsval) : bool :=
  match v with
  | JStr (String _ EmptyString) => true
  | _ => false
  end.

(** The shape the constructor builds: [size] rows of [size] one-character
    tiles. *)
Definition wf (b : Board) : Prop :=
  length (tiles b) = size b /\
  Forall (fun row => length row = size b /\ Forall (fun v => isChar v = true) row)
         (tiles b).

#[global] Instance wf_dec b : Decision (wf b).
Proof. unfold wf. apply _. Defined.

(** All cells the word would occupy lie within the [n] by [n] grid. *)
Definition feasible (n : nat) (horizontal : bool) (r c len : nat) : Prop :=
  if horizontal then r < n /\ c + len <= n else r + len <= n /\ c < n.

#[global] Instance feasible_dec n h r c len : Decision (feasible n h r c len).
Proof. unfold feasible. destruct h; apply _. Defined.

(** Whether the word placed at [(r, c)] lies over [(sr, sc)], and at which of
    its letters. *)
Definition covers (horizontal : bool) (r c len sr sc : nat) : bool :=
  if horizontal then (sr =? r) && (c <=? sc) && (sc <? c + len)
  else (sc =? c) && (r <=? sr) && (sr <? r + len).

Definition offset (horizontal : bool) (r c sr sc : nat) : nat :=
  if horizontal then sc - c else sr - r.

(** The rows under the word exist: reading them does not throw. *)
Definition rowsOnBoard (b : Board) (horizontal : bool) (r len : nat) : Prop :=
  forall i, i < len -> r + fst (getDeltas horizontal) * i < length (tiles b).

(** The letters [k], ..., [k + m - 1] of the word lie over [(sr, sc)]. *)
Definition coversFrom (horizontal : bool) (r c k m sr sc : nat) : bool :=
  covers horizontal r c (k + m) sr sc && (k <=? offset horizontal r c sr sc).

(** The write loop of [actuallyPlaceWord], from letter [k] on. *)
Definition placeLetters (word : string) (horizontal : bool) (r c k m : nat)
  : M (flow unit unit) :=
  forEach (seq k m) tt
    (fun _ i =>
       setTile (r + fst (getDeltas horizontal) * i)
               (c + snd (getDeltas horizontal) * i) (charAt word i) ;;;
       ret (Continue tt)).

(** ** The local rule of the validator *)

#[global] Instance error_eq_dec : EqDecision error.
Proof. solve_decision. Defined.

#[global] Instance outcome_eq_dec {A} `{EqDecision A} : EqDecision (outcome A).
Proof. solve_decision. Defined.

(** What the board holds under letter [i] of the word (reading it throws when
    the row is off the board). *)
Definition under (b : Board) (horizontal : bool) (r c i : nat) : outcome jsval :=
  peek b (r + fst (getDeltas horizontal) * i) (c + snd (getDeltas horizontal) * i).

(** Letter [i] falls on an occupied cell holding something else. *)
Definition conflictAt (b : Board) (horizontal : bool) (r c : nat) (word : string)
    (i : nat) : Prop :=
  exists v, under b horizontal r c i = Ok v /\ v <> EMPTY /\ v <> charAt word i.

Definition hardConflict (b : Board) (horizontal : bool) (r c : nat)
    (word : string) : Prop :=
  exists i, i < String.length word /\ conflictAt b horizontal r c word i.

(** Letter [i] falls on an empty cell, or on a cell already holding it. *)
Definition cleanAt (b : Board) (horizontal : bool) (r c : nat) (word : string)
    (i : nat) : Prop :=
  under b horizontal r c i = Ok EMPTY \/ under b horizontal r c i = Ok (charAt word i).

(** The number of empty positions under the index list, and of occupied
    positions that already match. *)
Definition standaloneIn (b : Board) (horizontal : bool) (r c : nat)
    (idxs : list nat) : nat :=
  length (filter (fun i => under b horizontal r c i = Ok EMPTY) idxs).

Definition overlapsIn (b : Board) (horizontal : bool) (r c : nat) (word : string)
    (idxs : list nat) : nat :=
  length (filter (fun i => under b horizontal r c i = Ok (charAt word i)
                           /\ charAt word i <> EMPTY) idxs).

Definition standaloneCount (b : Board) (horizontal : bool) (r c : nat)
    (word : string) : nat :=
  standaloneIn b horizontal r c (seq 0 (String.length word)).

Definition overlapCount (b : Board) (horizontal : bool) (r c : nat)
    (word : string) : nat :=
  overlapsIn b horizontal r c word (seq 0 (String.length word)).

(** The body of the first loop of [isValidPlacement]. *)
Definition scanBody (horizontal : bool) (r c : nat) (word : string)
    (counts : nat * nat) (i : nat) : M (flow (nat * nat) bool) :=
  boardTile <- tileAt (r + fst (getDeltas horizontal) * i)
                      (c + snd (getDeltas horizontal) * i) ;;
  if bool_decide (boardTile ≠ EMPTY) then
    if bool_decide (boardTile ≠ charAt word i) then ret (Return false)
    else ret (Continue (fst counts + 1, snd counts))
  else ret (Continue (fst counts, snd counts + 1)).

(** The answer of [isValidPlacement] once the cross-check has run. *)
Definition verdict (f : outcome (flow unit bool)) : outcome bool :=
  match f with
  | Ok (Return v) => Ok v
  | Ok (Continue _) => Ok true
  | Throw e => Throw e
  end.

(** ** Runs of letters *)

(** The word spelled by consecutive tiles. *)
Definition spell (run : list jsval) : string :=
  foldr (fun v s => toString v +:+ s) EmptyString run.

(** [run] is a maximal run of [line]: contiguous non-empty tiles, bounded on
    each side by an empty tile or by the edge of the grid. *)
Definition maximalRun (line run : list jsval) : Prop :=
  exists pre post,
    line = pre ++ run ++ post /\
    Forall (fun v => v <> EMPTY) run /\
    (pre = [] \/ last pre = Some EMPTY) /\
    (post = [] \/ head post = Some EMPTY).

(** Row [i] and column [j] of the grid. *)
Definition rowLine (b : Board) (i : nat) : list jsval :=
  default [] (tiles b !! i).

Definition colLine (b : Board) (j : nat) : list jsval :=
  (fun row => default JUndefined (row !! j)) <$> tiles b.

(** The tile at [(r, c)], [undefined] where there is none. *)
Definition tileOr (b : Board) (r c : nat) : jsval :=
  match peek b r c with
  | Ok v => v
  | Throw _ => JUndefined
  end.

(** The tile [getWordMask] reports at [(sr, sc)]. *)
Definition masked (b : Board) (horizontal : bool) (r c : nat) (word : string)
    (sr sc : nat) : jsval :=
  if covers horizontal r c (String.length word) sr sc
  then charAt word (offset horizontal r c sr sc)
  else tileOr b sr sc.

Section Vocabulary.

Variable WORDS : list string.

(** A line of the grid is valid when each of its maximal runs of two or more
    tiles spells a word of the list. *)
Definition lineValid (line : list jsval) : Prop :=
  forall run, maximalRun line run -> 2 <= length run -> spell run ∈ WORDS.

Definition gridValid (b : Board) : Prop :=
  forall i, i < size b -> lineValid (rowLine b i) /\ lineValid (colLine b i).

(** The inner loop of the cross-check, run over the tiles of one line. *)
Fixpoint scanChars (cells : list jsval) (acc : string) : flow string bool :=
  match cells with
  | [] => Continue acc
  | ch :: rest =>
      if bool_decide (ch = EMPTY) then
        if badRun WORDS acc then Return false else scanChars rest EmptyString
      else scanChars rest (acc +:+ toString ch)
  end.

(** The placements a cycle collects: the candidates the validator accepts. *)
Definition validPlacementsOf (b : Board) (word : string) : list (bool * nat * nat) :=
  filter (fun p => eval (isValidPlacement WORDS p.1.1 p.1.2 p.2 word) b = Ok true)
         (candidates (size b) (String.length word)).

(** The boards a generation run passes through: the constructor's empty grid,
    then the board after each cycle of the trial loop. *)
Inductive reachable (n : nat) : Board -> Prop :=
  | reachable_init : reachable n (emptyBoard n)
  | reachable_cycle b rnd b' :
      reachable n b -> cycle WORDS rnd b = (Ok tt, b') -> reachable n b'.

End Vocabulary.

(** ** Case folding, to state what the membership test is not *)

(** [toLowerCase] on the ASCII letters. *)
Definition lowerAscii (a : Ascii.ascii) : Ascii.ascii :=
  let n := Ascii.nat_of_ascii a in
  if (65 <=? n) && (n <=? 90) then Ascii.ascii_of_nat (n + 32) else a.

Fixpoint toLowerCase (s : string) : string :=
  match s with
  | EmptyString => EmptyString
  | String a s' => String (lowerAscii a) (toLowerCase s')
  end.

Definition equalUpToCase (s1 s2 : string) : Prop :=
  toLowerCase s1 = toLowerCase s2.

(** Sample data. *)
Definition sampleWords : list string := ["cat"; "car"; "at"; "art"].

Definition boardWithCat : Board :=
  mkBoard 4
    [[JStr "c"; JStr "a"; JStr "t"; EMPTY];
     [EMPTY; EMPTY; EMPTY; EMPTY];
     [EMPTY; EMPTY; EMPTY; EMPTY];
     [EMPTY; EMPTY; EMPTY; EMPTY]] 1.

Definition boardWithCatAt : Board :=
  mkBoard 4
    [[JStr "c"; JStr "a"; JStr "t"; EMPTY];
     [EMPTY; JStr "t"; EMPTY; EMPTY];
     [EMPTY; EMPTY; EMPTY; EMPTY];
     [EMPTY; EMPTY; EMPTY; EMPTY]] 2.

(** A one-tile board holding ["a"], after one placement. *)
Definition boardA : Board := mkBoard 1 [[JStr "a"]] 1.

(** A clock that reads 0 twice, then 6 seconds later. *)
Definition clockOnePass (k : nat) : Z :=
  match k with
  | 0 | 1 => 0
  | _ => 6000
  end.

(** A clock that advances 100 ms between readings. *)
Definition clockSteady (k : nat) : Z := Z.of_nat k * 100.

(** A clock that is set back between its first two readings: 100, 50, then
    200. *)
Definition clockBackwards (k : nat) : Z :=
  match k with
  | 0 => 100
  | 1 => 50
  | _ => 200
  end.

(** ** Words that can be laid on the board *)

(** No character of the word is the empty-tile sentinel. *)
Definition dotFree (word : string) : Prop :=
  Forall (fun a => String a EmptyString <> ".") (String.list_ascii_of_string word).

#[global] Instance dotFree_dec word : Decision (dotFree word).
Proof. unfold dotFree. apply _. Defined.

(** The occupied tiles of a list of tiles. *)
Definition letters (l : list jsval) : nat :=
  length (filter (fun ch => ch <> EMPTY) l).

(** ** The player's game: class [Game] of [02-CowLetterPuzzle/src/index.js]

    The fields that make up the state of play. The DOM elements and the
    font size are left out. The class [Board] of that file is the one
    modelled above. An exception thrown by a handler leaves the fields as
    they were when it was thrown, and the page goes on to the next event. *)

Record Game : Type := mkGame {
  answer : Board;
  gameSize : nat;
  guesses : list (list jsval);
  hideHorizontal : list (list bool);
  selectedRow : Z;
  selectedColumn : Z;
  selectedHorizontal : bool;
  hideHalf : bool
}.

Definition GM (A : Type) : Type := Game -> outcome A * Game.

Definition gret {A} (a : A) : GM A := fun g => (Ok a, g).

Definition gbind {A B} (m : GM A) (k : A -> GM B) : GM B :=
  fun g =>
    match m g with
    | (Ok a, g') => k a g'
    | (Throw e, g') => (Throw e, g')
    end.

Definition withSelection (row col : Z) : GM unit :=
  fun g => (Ok tt, mkGame (answer g) (gameSize g) (guesses g) (hideHorizontal g)
                          row col (selectedHorizontal g) (hideHalf g)).

Definition withHorizontal (h : bool) : GM unit :=
  fun g => (Ok tt, mkGame (answer g) (gameSize g) (guesses g) (hideHorizontal g)
                          (selectedRow g) (selectedColumn g) h (hideHalf g)).

Definition withHideHalf (h : bool) : GM unit :=
  fun g => (Ok tt, mkGame (answer g) (gameSize g) (guesses g) (hideHorizontal g)
                          (selectedRow g) (selectedColumn g)
                          (selectedHorizontal g) h).

(** [isSolid(r, c)]: the bounds tests short-circuit the indexing. *)
Definition isSolid (g : Game) (r c : Z) : outcome bool :=
  if (r <? 0)%Z || (c <? 0)%Z
     || (Z.of_nat (gameSize g) <=? r)%Z || (Z.of_nat (gameSize g) <=? c)%Z
  then Ok true
  else
    match peek (answer g) (Z.to_nat r) (Z.to_nat c) with
    | Ok v => Ok (bool_decide (v = EMPTY))
    | Throw e => Throw e
    end.

Definition gread {A} (f : Game -> outcome A) : GM A := fun g => (f g, g).

Definition solid (r c : Z) : GM bool := gread (fun g => isSolid g r c).

(** A [for] loop without [break] or [return] in its body. *)
Fixpoint gfor {A} (l : list A) (body : A -> GM unit) : GM unit :=
  match l with
  | [] => gret tt
  | x :: l' => gbind (body x) (fun _ => gfor l' body)
  end.

(** *** [draw()]

    [draw()] repaints the DOM and assigns no field of the game. Its reads of
    the fields can throw, which aborts the handler that called it, so they are
    modelled here; of what it paints, the letter hints are modelled further
    on. The element grid it indexes is rebuilt by
    [createElements] whenever [size] is assigned, one row and one column
    larger than the board, and is taken to be there. *)

(** [this.answer.tiles[r][c]]. *)
Definition answerTile (r c : nat) : GM jsval :=
  gread (fun g => peek (answer g) r c).

(** [this.guesses[r][c].length]: a missing row throws, and so does a guess
    that is undefined. *)
Definition guessLength (r c : nat) : GM nat :=
  gread (fun g =>
    match guesses g !! r with
    | None => Throw TypeError
    | Some line =>
        match line !! c with
        | Some (JStr s) => Ok (String.length s)
        | _ => Throw TypeError
        end
    end).

(** [v.toLowerCase()] on a tile value. *)
Definition tileToLowerCase (v : jsval) : GM string :=
  gread (fun _ =>
    match v with
    | JStr s => Ok (toLowerCase s)
    | JUndefined => Throw TypeError
    end).

(** [this.hideHorizontal[r][c]]; [None] is [undefined]. *)
Definition hideFlag (r c : nat) : GM (option bool) :=
  gread (fun g =>
    match hideHorizontal g !! r with
    | None => Throw TypeError
    | Some line => Ok (line !! c)
    end).

(** The body of the first pair of loops of [draw()], for one tile. *)
Definition drawTile (r c : nat) : GM unit :=
  gbind (answerTile r c) (fun _ =>
  gbind (guessLength r c) (fun _ => gret tt)).

(** The body of the innermost loop of the letter hints. *)
Definition hintCell (horizontal : bool) (i j : nat) : GM unit :=
  let r := if horizontal then i else j in
  let c := if horizontal then j else i in
  gbind (solid (Z.of_nat r) (Z.of_nat c)) (fun s =>
    if s then gret tt
    else
      gbind (fun g =>
               if hideHalf g
               then gbind (hideFlag r c) (fun f =>
                      gret (eqb horizontal (negb (default false f)))) g
               else gret true g) (fun counted =>
        if counted : bool then
          gbind (answerTile r c) (fun t =>
          gbind (tileToLowerCase t) (fun _ =>
          gbind (guessLength r c) (fun _ => gret tt)))
        else gret tt)).

Definition draw : GM unit :=
  fun g =>
    let idx := seq 0 (gameSize g) in
    gbind (gfor idx (fun r => gfor idx (fun c => drawTile r c))) (fun _ =>
      gfor [true; false] (fun horizontal =>
        gfor idx (fun i => gfor idx (fun j => hintCell horizontal i j)))) g.

(** *** The handlers *)

(** The selection made by [tileClick(r, c)]; [r] and [c] are indices into the
    element grid, one more than the tile indices. *)
Definition clickSelection (r c : Z) : GM unit :=
  fun g =>
    if (r <? 1)%Z || (c <? 1)%Z then withSelection (-1) (-1) g
    else
      gbind (solid (r - 1) (c - 1)) (fun s =>
        if s then withSelection (-1) (-1)
        else fun g =>
          if (r - 1 =? selectedRow g)%Z && (c - 1 =? selectedColumn g)%Z
          then withHorizontal (negb (selectedHorizontal g)) g
          else
            gbind (withSelection (r - 1) (c - 1)) (fun _ =>
              gbind (solid (r - 1) c) (fun s1 =>
                if negb s1 then withHorizontal true
                else
                  gbind (solid r (c - 1)) (fun s2 =>
                    if negb s2 then withHorizontal false
                    else withHorizontal true))) g) g.

(** [tileClick(r, c)]. *)
Definition tileClick (r c : Z) : GM unit :=
  gbind (clickSelection r c) (fun _ => draw).

(** [/^[a-zA-Z]$/.test(key)]. *)
Definition isAlpha (a : Ascii.ascii) : bool :=
  let n := Ascii.nat_of_ascii a in
  ((65 <=? n) && (n <=? 90)) || ((97 <=? n) && (n <=? 122)).

Definition isLetterKey (key : string) : bool :=
  match key with
  | String a EmptyString => isAlpha a
  | _ => false
  end.

(** [toUpperCase] on the ASCII letters. *)
Definition upperAscii (a : Ascii.ascii) : Ascii.ascii :=
  let n := Ascii.nat_of_ascii a in
  if (97 <=? n) && (n <=? 122) then Ascii.ascii_of_nat (n - 32) else a.

Fixpoint toUpperCase (s : string) : string :=
  match s with
  | EmptyString => EmptyString
  | String a s' => String (upperAscii a) (toUpperCase s')
  end.

(** [this.guesses[row][col] = v]: a missing row throws; a negative column
    only adds a named property to the row array and changes no element. *)
Definition setGuess (row col : Z) (v : jsval) : GM unit :=
  fun g =>
    if (row <? 0)%Z then (Throw TypeError, g)
    else
      match guesses g !! Z.to_nat row with
      | None => (Throw TypeError, g)
      | Some line =>
          if (col <? 0)%Z then (Ok tt, g)
          else
            (Ok tt, mkGame (answer g) (gameSize g)
                      (<[Z.to_nat row := arraySet line (Z.to_nat col) v]> (guesses g))
                      (hideHorizontal g) (selectedRow g) (selectedColumn g)
                      (selectedHorizontal g) (hideHalf g))
      end.

Section GameKeys.

Variable WORDS : list string.

(** The draws of the new board and the coin flips [Math.random() < 0.5] of
    [newPuzzle]. *)
Variable rnd : nat -> nat * nat.
Variable coin : nat -> nat -> bool.

(** [newPuzzle(size)]; the selection is not reset. When [new Board(size)]
    throws, no field has been assigned yet. *)
Definition newPuzzle (n : nat) : GM unit :=
  fun g =>
    match newBoard WORDS n rnd with
    | Throw e => (Throw e, g)
    | Ok board =>
        draw (mkGame board n
                (replicate n (replicate n (JStr EmptyString)))
                (map (fun r => map (fun c => coin r c) (seq 0 n)) (seq 0 n))
                (selectedRow g) (selectedColumn g)
                (selectedHorizontal g) (hideHalf g))
    end.

(** The letter branch of [tileKey]; [Return] is its early [return]. *)
Definition letterKey (key : string) : GM (flow unit unit) :=
  fun g =>
    gbind (solid (selectedRow g) (selectedColumn g)) (fun s =>
      if s then gret (Return tt)
      else
        gbind (setGuess (selectedRow g) (selectedColumn g)
                        (JStr (toUpperCase key))) (fun _ =>
          gbind (fun g =>
                   if selectedHorizontal g
                   then withSelection (selectedRow g) (selectedColumn g + 1) g
                   else withSelection (selectedRow g + 1) (selectedColumn g) g)
                (fun _ g =>
                   gbind (solid (selectedRow g) (selectedColumn g)) (fun s' =>
                     gbind (if s' then withSelection (-1) (-1) else gret tt)
                           (fun _ => gbind draw (fun _ => gret (Continue tt)))) g))) g.

(** The Backspace and Delete branch. *)
Definition eraseKey : GM unit :=
  fun g =>
    gbind (setGuess (selectedRow g) (selectedColumn g) (JStr EmptyString)) (fun _ g =>
      gbind (if selectedHorizontal g then
               gbind (solid (selectedRow g) (selectedColumn g - 1)) (fun s =>
                 if negb s
                 then withSelection (selectedRow g) (selectedColumn g - 1)
                 else gret tt)
             else gret tt)
            (fun _ g =>
               gbind (if (selectedColumn g =? 0)%Z then
                        gbind (solid (selectedRow g - 1) (selectedColumn g)) (fun s =>
                          if negb s
                          then withSelection (selectedRow g - 1) (selectedColumn g)
                          else gret tt)
                      else gret tt)
                     (fun _ => draw) g) g) g.

Definition when (c : bool) (m : GM unit) : GM unit := if c then m else gret tt.

(** [tileKey(key)]. *)
Definition tileKey (key : string) : GM unit :=
  gbind (if isLetterKey key then letterKey key else gret (Continue tt)) (fun f =>
    match f with
    | Return _ => gret tt
    | Continue _ =>
        gbind (when (bool_decide (key = "Backspace") || bool_decide (key = "Delete"))
                    eraseKey) (fun _ =>
        gbind (fun g => when (bool_decide (key = "\"))
                             (gbind (newPuzzle (gameSize g)) (fun _ => draw)) g) (fun _ =>
        gbind (fun g => when (bool_decide (key = "+") || bool_decide (key = "="))
                             (gbind (newPuzzle (gameSize g + 1)) (fun _ => draw)) g) (fun _ =>
        gbind (fun g => when (bool_decide (key = "-") && (4 <? gameSize g))
                             (gbind (newPuzzle (gameSize g - 1)) (fun _ => draw)) g) (fun _ =>
        fun g => when (bool_decide (key = "0"))
                      (gbind (withHideHalf (negb (hideHalf g))) (fun _ => draw)) g))))
    end).

(** The fields as the constructor sets them before it calls [newPuzzle]; the
    board stands for the [null] answer, which is replaced before it is read. *)
Definition blankGame : Game :=
  mkGame (mkBoard 0 [] 0) 0 [] [] (-1) (-1) true false.

(** [new Game(boardElement)]. *)
Definition newGame : outcome Game :=
  match newPuzzle 6 blankGame with
  | (Ok _, g) => Ok g
  | (Throw e, _) => Throw e
  end.

End GameKeys.

(** The games a player can reach: the constructed game, and the game after a
    click, a key or a resize of the window, whether the handler returned or
    threw. Every new puzzle has random draws of its own. *)
Inductive played (WORDS : list string) : Game -> Prop :=
  | played_new rnd coin g : newGame WORDS rnd coin = Ok g -> played WORDS g
  | played_click g r c o g' :
      played WORDS g -> tileClick r c g = (o, g') -> played WORDS g'
  | played_key rnd coin g key o g' :
      played WORDS g -> tileKey WORDS rnd coin key g = (o, g') -> played WORDS g'
  | played_resize g o g' :
      played WORDS g -> draw g = (o, g') -> played WORDS g'.

(** The state of play is coherent: the answer is a well-formed board of the
    game's size, the guess grid has a row per board row, each reaching over
    every column, and there is a row of flags per board row. *)
Definition gameOk (g : Game) : Prop :=
  wf (answer g) /\ size (answer g) = gameSize g /\
  length (guesses g) = gameSize g /\
  Forall (fun line => gameSize g <= length line) (guesses g) /\
  length (hideHorizontal g) = gameSize g.

(** Nothing is selected, or the selected tile holds a letter. *)
Definition selectionOk (g : Game) : Prop :=
  (selectedRow g = (-1)%Z /\ selectedColumn g = (-1)%Z) \/
  isSolid g (selectedRow g) (selectedColumn g) = Ok false.

(** The guess at tile [(r, c)]. *)
Definition guessAt (g : Game) (r c : nat) : option jsval :=
  guesses g !! r ≫= (.!! c).

Definition isUpper (a : Ascii.ascii) : bool :=
  let n := Ascii.nat_of_ascii a in (65 <=? n) && (n <=? 90).

(** Every guess on the grid is empty, or one uppercase letter on a tile that
    holds a letter. *)
Definition guessesOk (g : Game) : Prop :=
  forall r c v, r < gameSize g -> c < gameSize g -> guessAt g r c = Some v ->
    v = JStr EmptyString \/
    (exists a, v = JStr (String a EmptyString) /\ isUpper a = true /\
               isSolid g (Z.of_nat r) (Z.of_nat c) = Ok false).

(** The puzzle and the guesses are the same in both games. *)
Definition sameGrid (g g' : Game) : Prop :=
  answer g' = answer g /\ gameSize g' = gameSize g /\ guesses g' = guesses g /\
  hideHorizontal g' = hideHorizontal g.

(** A sample game on [boardWithCat]: nothing guessed, the tile at the top
    left selected. *)
Definition sampleGame : Game :=
  mkGame boardWithCat 4
    (replicate 4 (replicate 4 (JStr EmptyString)))
    (map (fun r => map (fun c => false) (seq 0 4)) (seq 0 4))
    0 0 true false.

(** The sample game with the word of its top row guessed. *)
Definition solvedGame : Game :=
  mkGame boardWithCat 4
    [[JStr "C"; JStr "A"; JStr "T"; JStr EmptyString];
     replicate 4 (JStr EmptyString);
     replicate 4 (JStr EmptyString);
     replicate 4 (JStr EmptyString)]
    (map (fun r => map (fun c => false) (seq 0 4)) (seq 0 4))
    (-1) (-1) true false.

(** A word list of one word as long as the board of the game is wide. *)
Definition crossWords : list string := ["abcdef"].

(** The board a generation run builds from [crossWords] at size 6 when every
    random draw is 0: the word along the top row, then down the first
    column, after which no placement is accepted. *)
Definition crossBoard : Board :=
  mkBoard 6
    [[JStr "a"; JStr "b"; JStr "c"; JStr "d"; JStr "e"; JStr "f"];
     [JStr "b"; EMPTY; EMPTY; EMPTY; EMPTY; EMPTY];
     [JStr "c"; EMPTY; EMPTY; EMPTY; EMPTY; EMPTY];
     [JStr "d"; EMPTY; EMPTY; EMPTY; EMPTY; EMPTY];
     [JStr "e"; EMPTY; EMPTY; EMPTY; EMPTY; EMPTY];
     [JStr "f"; EMPTY; EMPTY; EMPTY; EMPTY; EMPTY]] 2.

(** The game the constructor builds on [crossBoard]. *)
Definition crossGame : Game :=
  mkGame crossBoard 6
    (replicate 6 (replicate 6 (JStr EmptyString)))
    (map (fun r => map (fun c => false) (seq 0 6)) (seq 0 6))
    (-1) (-1) true false.

(** That game after a click on the tile at the top left. *)
Definition crossGameClicked : Game :=
  mkGame crossBoard 6
    (replicate 6 (replicate 6 (JStr EmptyString)))
    (map (fun r => map (fun c => false) (seq 0 6)) (seq 0 6))
    0 0 true false.

(** And after the key ["a"]: the guess is written, the selection has moved
    one tile to the right. *)
Definition crossGameTyped : Game :=
  mkGame crossBoard 6
    ([JStr "A"; JStr EmptyString; JStr EmptyString; JStr EmptyString;
      JStr EmptyString; JStr EmptyString]
     :: replicate 5 (replicate 6 (JStr EmptyString)))
    (map (fun r => map (fun c => false) (seq 0 6)) (seq 0 6))
    0 1 true false.

(** The invariant of play: a coherent state whose puzzle is a board the
    generator can build, of size four at least. *)
Definition gameInv (WORDS : list string) (g : Game) : Prop :=
  gameOk g /\ guessesOk g /\ 4 <= gameSize g /\
  reachable WORDS (gameSize g) (answer g).

(** The tile after the selected one, in the direction of typing. *)
Definition nextTile (g : Game) : Z * Z :=
  if selectedHorizontal g then (selectedRow g, (selectedColumn g + 1)%Z)
  else ((selectedRow g + 1)%Z, selectedColumn g).

(** A method that assigns no field, whether it returns or throws. *)
Definition greadonly {A} (m : GM A) : Prop := forall g, snd (m g) = g.

(** A handler keeps a property of the game, whether it returns or throws. *)
Definition preserves {A} (P : Game -> Prop) (m : GM A) : Prop :=
  forall g o g', P g -> m g = (o, g') -> P g'.

(** *** The letter hints painted by [draw()]

    On a coherent game the reads of [draw()] do not throw; the hints it then
    paints in the header of a line are a function of the fields. *)

(** [s.toLowerCase().charCodeAt(0) - 97]; the [NaN] of the empty string
    indexes no element, like a negative number. *)
Definition letterIndex (s : string) : Z :=
  match toLowerCase s with
  | String a _ => (Z.of_nat (Ascii.nat_of_ascii a) - 97)%Z
  | EmptyString => (-1)%Z
  end.

(** [counts[idx]++] on an array of 26 counters, as far as its elements 0 to 25
    go: another index adds a property or an element further on. *)
Definition bump (counts : list nat) (idx : Z) : list nat :=
  if (0 <=? idx)%Z && (idx <? 26)%Z then alter S (Z.to_nat idx) counts
  else counts.

(** The condition under which the tile at [(r, c)] counts for a header. *)
Definition counted (g : Game) (horizontal : bool) (r c : nat) : bool :=
  match isSolid g (Z.of_nat r) (Z.of_nat c) with
  | Ok false =>
      negb (hideHalf g)
      || eqb horizontal
           (negb (default false (hideHorizontal g !! r ≫= (.!! c))))
  | _ => false
  end.

(** The loop over [j] for the header of line [i]: the arrays [letters] and
    [guesses]. *)
Definition hintCounts (g : Game) (horizontal : bool) (i : nat)
  : list nat * list nat :=
  foldl (fun (acc : list nat * list nat) j =>
           let r := if horizontal then i else j in
           let c := if horizontal then j else i in
           if counted g horizontal r c then
             let guess := toString (default JUndefined (guessAt g r c)) in
             (bump acc.1 (letterIndex (toString (tileOr (answer g) r c))),
              if 0 <? String.length guess then bump acc.2 (letterIndex guess)
              else acc.2)
           else acc)
        (replicate 26 0, replicate 26 0) (seq 0 (gameSize g)).

Inductive hintClass : Type := Needed | Satisfied | Extra.

#[global] Instance hintClass_eq_dec : EqDecision hintClass.
Proof. solve_decision. Defined.

(** The class of the [o]-th copy of a letter. *)
Definition hintType (o guessed needed : nat) : hintClass :=
  if guessed <=? o then Needed else if o <? needed then Satisfied else Extra.

(** The loops over [ch] and [o]: the classes painted, with their letters, and
    the flag [allCorrect]. *)
Definition hintLoop (letters guesses : list nat) : list (nat * hintClass) * bool :=
  foldl (fun (acc : list (nat * hintClass) * bool) ch =>
           let needed := default 0 (letters !! ch) in
           let guessed := default 0 (guesses !! ch) in
           foldl (fun (acc : list (nat * hintClass) * bool) o =>
                    (acc.1 ++ [(ch, hintType o guessed needed)],
                     if bool_decide (guessed = needed) then acc.2 else false))
                 acc (seq 0 needed))
        ([], true) (seq 0 26).

(** The hints of a header in closed form: for each letter, as many entries as
    the line needs of it. *)
Definition hintRow (letters guesses : list nat) (ch : nat) : list (nat * hintClass) :=
  (fun o => (ch, hintType o (default 0 (guesses !! ch)) (default 0 (letters !! ch))))
    <$> seq 0 (default 0 (letters !! ch)).

Definition letterDone (letters guesses : list nat) (ch : nat) : Prop :=
  default 0 (letters !! ch) = 0 \/
  default 0 (guesses !! ch) = default 0 (letters !! ch).

(** ** The word list: [01-LetterPuzzleMaker/process_words.js]

    The script that writes the word list [index.js] loads. A JavaScript
    string is a sequence of UTF-16 code units; the regular expressions have no
    [u] flag and match code unit by code unit. *)

Definition isDigit (u : N) : bool := ((48 <=? u) && (u <=? 57))%N.

Definition isLower (u : N) : bool := ((97 <=? u) && (u <=? 122))%N.

(** The class [\s]: the white space and line terminator code points. *)
Definition isSpace (u : N) : bool :=
  ((9 <=? u) && (u <=? 13) || (u =? 32) || (u =? 160) || (u =? 5760)
   || (8192 <=? u) && (u <=? 8202) || (u =? 8232) || (u =? 8233)
   || (u =? 8239) || (u =? 8287) || (u =? 12288) || (u =? 65279))%N.

(** [text.split(/\r?\n/)]; [cur] holds the piece being read, last code unit
    first. *)
Fixpoint splitLines (text cur : list N) : list (list N) :=
  match text with
  | [] => [reverse cur]
  | u :: rest =>
      if (u =? 10)%N then reverse cur :: splitLines rest []
      else
        match rest with
        | v :: rest' =>
            if (u =? 13)%N && (v =? 10)%N then reverse cur :: splitLines rest' []
            else splitLines rest (u :: cur)
        | [] => splitLines rest (u :: cur)
        end
  end.

(** The longest prefix in a class, and what follows it. *)
Fixpoint span (p : N -> bool) (l : list N) : list N * list N :=
  match l with
  | [] => ([], [])
  | u :: l' =>
      if p u then let (a, b) := span p l' in (u :: a, b) else ([], l)
  end.

Definition nonEmpty (l : list N) : bool :=
  match l with
  | [] => false
  | _ => true
  end.

(** [line.match(/^[0-9]+\s+[0-9]+\s+([a-z]+)\s+$/)], giving the captured
    group. Neighbouring classes share no code unit, so each [+] takes the
    longest run there is. *)
Definition matchLine (line : list N) : option (list N) :=
  let (d1, r1) := span isDigit line in
  let (s1, r2) := span isSpace r1 in
  let (d2, r3) := span isDigit r2 in
  let (s2, r4) := span isSpace r3 in
  let (w, r5) := span isLower r4 in
  let (s3, r6) := span isSpace r5 in
  if nonEmpty d1 && nonEmpty s1 && nonEmpty d2 && nonEmpty s2 && nonEmpty w
     && nonEmpty s3 && negb (nonEmpty r6)
  then Some w else None.

(** The strings the regular expression denotes, with the group [w]. *)
Definition matchesRegex (line w : list N) : Prop :=
  exists d1 s1 d2 s2 s3,
    line = d1 ++ s1 ++ d2 ++ s2 ++ w ++ s3 /\
    d1 <> [] /\ Forall (fun u => isDigit u = true) d1 /\
    s1 <> [] /\ Forall (fun u => isSpace u = true) s1 /\
    d2 <> [] /\ Forall (fun u => isDigit u = true) d2 /\
    s2 <> [] /\ Forall (fun u => isSpace u = true) s2 /\
    w <> [] /\ Forall (fun u => isLower u = true) w /\
    s3 <> [] /\ Forall (fun u => isSpace u = true) s3.

(** The bound on [words.length]. *)
#[warnings="-abstract-large-number"]
Definition WORD_CAP : nat := 20000.

(** The test on [word.length]. *)
Definition goodLength (word : list N) : bool :=
  (3 <=? length word) && (length word <=? 7).

(** The [for ... of] loop, with its [break]. *)
Fixpoint wordLoop (lines : list (list N)) (words : list (list N))
  : list (list N) :=
  match lines with
  | [] => words
  | line :: rest =>
      match matchLine line with
      | Some word =>
          if goodLength word then
            let words' := words ++ [word] in
            if WORD_CAP <=? length words' then words' else wordLoop rest words'
          else wordLoop rest words
      | None => wordLoop rest words
      end
  end.

(** The array handed to [JSON.stringify]. *)
Definition processWords (text : list N) : list (list N) :=
  wordLoop (splitLines text []) [].

(** The words a list of lines contributes, were there no bound. *)
Definition qualifying (lines : list (list N)) : list (list N) :=
  omap (fun line =>
          match matchLine line with
          | Some word => if goodLength word then Some word else None
          | None => None
          end) lines.

(** A word of code units below 256 as a string of the board's alphabet. *)
Definition unitsToString (w : list N) : string :=
  fold_right (fun u s => String (Ascii.ascii_of_N u) s) EmptyString w.

(** The text ["1 2 cat \n7 8 at \n"]. *)
Definition sampleText : list N :=
  [49; 32; 50; 32; 99; 97; 116; 32; 10; 55; 32; 56; 32; 97; 116; 32; 10]%N.

(** * Part III: proofs *)

(** ** The method monad *)

Lemma run_eta {A} (m : M A) b : m b = (eval m b, exec m b).
Proof. unfold eval, exec. by destruct (m b). Qed.

Lemma readonly_run {A} (m : M A) b : readonly m -> m b = (eval m b, b).
Proof. intros H. rewrite (run_eta m b). by rewrite H. Qed.

Lemma readonly_ret {A} (a : A) : readonly (ret a).
Proof. done. Qed.

Lemma readonly_throw {A} e : readonly (throw (A := A) e).
Proof. done. Qed.

Lemma readonly_bind {A B} (m : M A) (k : A -> M B) :
  readonly m -> (forall a, readonly (k a)) -> readonly (bind m k).
Proof.
  intros Hm Hk b. unfold exec, bind. rewrite (readonly_run m b Hm).
  destruct (eval m b) as [a|e]; [apply Hk | done].
Qed.

Lemma readonly_forEach {I S R} (idxs : list I) (s : S)
    (body : S -> I -> M (flow S R)) :
  (forall s i, readonly (body s i)) -> readonly (forEach idxs s body).
Proof.
  intros Hb. revert s. induction idxs as [|i idxs IH]; intros s; simpl.
  - apply readonly_ret.
  - apply readonly_bind; [apply Hb|]. intros [s'|v]; [apply IH | apply readonly_ret].
Qed.

Lemma eval_bind {A B} (m : M A) (k : A -> M B) b :
  readonly m ->
  eval (bind m k) b =
    match eval m b with Ok a => eval (k a) b | Throw e => Throw e end.
Proof.
  intros Hm. unfold eval at 1, bind. rewrite (readonly_run m b Hm).
  by destruct (eval m b).
Qed.

Lemma eval_forEach_cons {I S R} (i : I) idxs (s : S)
    (body : S -> I -> M (flow S R)) b :
  readonly (body s i) ->
  eval (forEach (i :: idxs) s body) b =
    match eval (body s i) b with
    | Ok (Continue s') => eval (forEach idxs s' body) b
    | Ok (Return v) => Ok (Return v)
    | Throw e => Throw e
    end.
Proof.
  intros Hb. simpl. rewrite eval_bind by done.
  by destruct (eval (body s i) b) as [[?|?]|?].
Qed.

Lemma tileAt_run r c b : tileAt r c b = (peek b r c, b).
Proof. unfold tileAt, peek. by destruct (tiles b !! r). Qed.

Lemma readonly_tileAt r c : readonly (tileAt r c).
Proof. intros b. unfold exec. by rewrite tileAt_run. Qed.

Lemma eval_tileAt r c b : eval (tileAt r c) b = peek b r c.
Proof. unfold eval. by rewrite tileAt_run. Qed.

Lemma readonly_getSize : readonly getSize.
Proof. done. Qed.

Lemma readonly_getTotalPlacements : readonly getTotalPlacements.
Proof. done. Qed.

Lemma readonly_getWordMask h r c word sr sc :
  readonly (getWordMask h r c word sr sc).
Proof.
  unfold getWordMask.
  repeat case_match; auto using readonly_tileAt, readonly_ret.
Qed.

Create HintDb readonly.

#[local] Hint Resolve readonly_ret readonly_throw readonly_tileAt readonly_getSize
  readonly_getTotalPlacements readonly_getWordMask : readonly.

Ltac readonly_tac :=
  repeat first
    [ progress intros
    | apply readonly_bind
    | apply readonly_forEach
    | solve [auto with readonly]
    | match goal with
      | |- readonly (match ?x with _ => _ end) => destruct x
      | |- readonly (let '(_, _) := ?x in _) => destruct x
      end ].

Section LexiconFacts.

Variable WORDS : list string.

Lemma readonly_scanWord h r c word : readonly (scanWord h r c word).
Proof. unfold scanWord. destruct (getDeltas h). readonly_tac. Qed.

Lemma readonly_scanLine h r c word flip sr :
  readonly (scanLine WORDS h r c word flip sr).
Proof. unfold scanLine. readonly_tac. Qed.

Lemma readonly_checkAllLines h r c word :
  readonly (checkAllLines WORDS h r c word).
Proof.
  unfold checkAllLines. readonly_tac; auto using readonly_scanLine with readonly.
Qed.

Lemma readonly_isValidPlacement h r c word :
  readonly (isValidPlacement WORDS h r c word).
Proof.
  unfold isValidPlacement.
  readonly_tac; auto using readonly_scanWord, readonly_checkAllLines with readonly.
Qed.

End LexiconFacts.

(** ** Well-formed boards *)

Lemma isChar_EMPTY : isChar EMPTY = true.
Proof. done. Qed.

Lemma isChar_inv v : isChar v = true -> exists a, v = JStr (String a EmptyString).
Proof. destruct v as [|[|a [|]]]; try done. eauto. Qed.

Lemma isChar_toString_length v : isChar v = true -> String.length (toString v) = 1.
Proof. intros [a ->]%isChar_inv. done. Qed.

Lemma get_lt (w : string) i : i < String.length w -> exists a, String.get i w = Some a.
Proof.
  revert i. induction w as [|a w IH]; intros i Hi; simpl in *; [lia|].
  destruct i as [|i]; [eauto|]. apply IH. lia.
Qed.

Lemma isChar_charAt w i : i < String.length w -> isChar (charAt w i) = true.
Proof. intros [a Ha]%get_lt. unfold charAt. by rewrite Ha. Qed.

Lemma wf_row b r row :
  wf b -> tiles b !! r = Some row ->
  length row = size b /\ Forall (fun v => isChar v = true) row.
Proof.
  intros [_ Hr] Hrow. rewrite Forall_lookup in Hr. by apply (Hr r).
Qed.

Lemma peek_row_ok b r c :
  r < length (tiles b) -> exists v, peek b r c = Ok v.
Proof.
  intros Hr. unfold peek. destruct (lookup_lt_is_Some_2 (tiles b) r Hr) as [row ->].
  eauto.
Qed.

Lemma peek_wf b r c :
  wf b -> r < size b -> c < size b ->
  exists v, peek b r c = Ok v /\ isChar v = true.
Proof.
  intros Hwf Hr Hc. unfold peek.
  destruct (lookup_lt_is_Some_2 (tiles b) r) as [row Hrow]; [destruct Hwf; lia|].
  rewrite Hrow. destruct (wf_row _ _ _ Hwf Hrow) as [Hlen Hall].
  destruct (lookup_lt_is_Some_2 row c) as [v Hv]; [lia|].
  rewrite Hv. eexists; split; [done|].
  rewrite Forall_lookup in Hall. by apply (Hall c).
Qed.

Lemma eval_getWordMask h r c w sr sc b :
  eval (getWordMask h r c w sr sc) b =
    if covers h r c (String.length w) sr sc
    then Ok (charAt w (offset h r c sr sc))
    else peek b sr sc.
Proof.
  unfold getWordMask, covers, offset. destruct h.
  - destruct (sr =? r), (sc <? c) eqn:E1, (c + String.length w <=? sc) eqn:E2,
      (c <=? sc) eqn:E3, (sc <? c + String.length w) eqn:E4;
      simpl; rewrite ?eval_tileAt; try done;
      repeat match goal with
      | H : (_ <? _) = _ |- _ => first [apply Nat.ltb_lt in H | apply Nat.ltb_ge in H]
      | H : (_ <=? _) = _ |- _ => first [apply Nat.leb_le in H | apply Nat.leb_gt in H]
      end; lia.
  - destruct (sc =? c), (sr <? r) eqn:E1, (r + String.length w <=? sr) eqn:E2,
      (r <=? sr) eqn:E3, (sr <? r + String.length w) eqn:E4;
      simpl; rewrite ?eval_tileAt; try done;
      repeat match goal with
      | H : (_ <? _) = _ |- _ => first [apply Nat.ltb_lt in H | apply Nat.ltb_ge in H]
      | H : (_ <=? _) = _ |- _ => first [apply Nat.leb_le in H | apply Nat.leb_gt in H]
      end; lia.
Qed.

(** A loop whose body always returns normally returns normally. *)
Lemma forEach_total {I S R} (idxs : list I) (s : S)
    (body : S -> I -> M (flow S R)) b :
  (forall s i, readonly (body s i)) ->
  (forall s i, i ∈ idxs -> exists f, eval (body s i) b = Ok f) ->
  exists f, eval (forEach idxs s body) b = Ok f.
Proof.
  intros Hro. revert s. induction idxs as [|i idxs IH]; intros s Hok.
  - by eexists.
  - rewrite eval_forEach_cons by apply Hro.
    destruct (Hok s i) as [[s'|v] ->]; [set_solver| |by eexists].
    apply IH. intros s0 i0 Hi0. apply Hok. set_solver.
Qed.

Lemma feasible_rowsOnBoard b h r c len :
  length (tiles b) = size b -> feasible (size b) h r c len -> rowsOnBoard b h r len.
Proof.
  intros Hlen Hf i Hi. rewrite Hlen. destruct h; simpl in *; lia.
Qed.

Section Totality.

Variable WORDS : list string.

Lemma scanWord_total b h r c w :
  rowsOnBoard b h r (String.length w) ->
  exists f, eval (scanWord h r c w) b = Ok f.
Proof.
  intros Hrows. unfold scanWord, rowsOnBoard in *.
  destruct (getDeltas h) as [dr dc]; simpl in Hrows.
  apply forEach_total.
  - intros [o s] i. readonly_tac.
  - intros [o s] i [_ Hi]%elem_of_seq.
    rewrite eval_bind by apply readonly_tileAt. rewrite eval_tileAt.
    destruct (peek_row_ok b (r + dr * i) (c + dc * i)) as [v ->]; [apply Hrows; lia|].
    repeat case_match; by eexists.
Qed.

Lemma getWordMask_total b h r c w sr sc :
  sr < length (tiles b) ->
  exists v, eval (getWordMask h r c w sr sc) b = Ok v.
Proof.
  intros Hsr. rewrite eval_getWordMask. case_match; [by eexists|].
  by apply peek_row_ok.
Qed.

Lemma scanLine_total b h r c w flip sr :
  length (tiles b) = size b -> sr < size b ->
  exists f, eval (scanLine WORDS h r c w flip sr) b = Ok f.
Proof.
  intros Hlen Hsr. unfold scanLine.
  rewrite eval_bind by apply readonly_getSize. simpl.
  apply forEach_total.
  - readonly_tac.
  - intros acc sc [_ Hsc]%elem_of_seq.
    rewrite eval_bind by apply readonly_getWordMask.
    destruct (getWordMask_total b h r c w
                (if flip then sc else sr) (if flip then sr else sc)) as [v ->].
    { destruct flip; lia. }
    repeat case_match; by eexists.
Qed.

Lemma checkAllLines_total b h r c w :
  length (tiles b) = size b ->
  exists f, eval (checkAllLines WORDS h r c w) b = Ok f.
Proof.
  intros Hlen. unfold checkAllLines. apply forEach_total.
  - readonly_tac; auto using readonly_scanLine with readonly.
  - intros [] flip _. rewrite eval_bind by apply readonly_getSize. simpl.
    apply forEach_total.
    + readonly_tac; auto using readonly_scanLine with readonly.
    + intros [] sr [_ Hsr]%elem_of_seq.
      rewrite eval_bind by apply readonly_scanLine.
      destruct (scanLine_total b h r c w flip sr) as [f ->]; [done|lia|].
      repeat case_match; by eexists.
Qed.

Lemma isValidPlacement_total b h r c w :
  length (tiles b) = size b -> rowsOnBoard b h r (String.length w) ->
  exists v, eval (isValidPlacement WORDS h r c w) b = Ok v.
Proof.
  intros Hlen Hrows. unfold isValidPlacement.
  rewrite eval_bind by apply readonly_scanWord.
  destruct (scanWord_total b h r c w Hrows) as [[[o s]|v] ->]; [|by eexists].
  rewrite eval_bind by apply readonly_getTotalPlacements. simpl.
  case_match; [by eexists|].
  rewrite eval_bind by apply readonly_checkAllLines.
  destruct (checkAllLines_total b h r c w Hlen) as [[[]|v] ->]; by eexists.
Qed.

End Totality.

(** ** The effect of committing a word *)

Lemma arraySet_lookup row c v j :
  default JUndefined (arraySet row c v !! j) =
    if decide (j = c) then v else default JUndefined (row !! j).
Proof.
  unfold arraySet. destruct (c <? length row) eqn:E.
  - apply Nat.ltb_lt in E. rewrite list_lookup_insert.
    repeat case_decide; try done; lia.
  - apply Nat.ltb_ge in E. rewrite lookup_app.
    destruct (row !! j) as [x|] eqn:Hj.
    + apply lookup_lt_Some in Hj. case_decide; [lia|done].
    + apply lookup_ge_None in Hj. rewrite lookup_app.
      destruct (replicate (c - length row) JUndefined !! (j - length row)) as [y|] eqn:Hy.
      * apply lookup_replicate in Hy as [-> Hlt]. case_decide; [lia|done].
      * apply lookup_ge_None in Hy. rewrite length_replicate in Hy.
        case_decide as Hjc.
        -- subst j. rewrite length_replicate.
           by replace (c - length row - (c - length row)) with 0 by lia.
        -- replace (j - length row - length (replicate (c - length row) JUndefined))
             with (S (j - S c)) by (rewrite length_replicate; lia).
           done.
Qed.

Lemma arraySet_length_in row c v : c < length row -> length (arraySet row c v) = length row.
Proof.
  intros Hc. unfold arraySet. apply Nat.ltb_lt in Hc. rewrite Hc. apply length_insert.
Qed.

Lemma peek_setTile r c v b row sr sc :
  tiles b !! r = Some row ->
  peek (exec (setTile r c v) b) sr sc =
    if decide (sr = r /\ sc = c) then Ok v else peek b sr sc.
Proof.
  intros Hrow. unfold exec, setTile, peek. rewrite Hrow. simpl.
  rewrite list_lookup_insert.
  pose proof (lookup_lt_Some _ _ _ Hrow) as Hlt.
  destruct (decide (r = sr)) as [->|Hne].
  - rewrite decide_True by done. rewrite Hrow, arraySet_lookup.
    destruct (decide (sc = c)) as [->|].
    + by rewrite decide_True.
    + by rewrite decide_False by tauto.
  - rewrite decide_False by tauto. rewrite decide_False by (intros [? ?]; congruence).
    done.
Qed.

Lemma setTile_ok r c v b row :
  tiles b !! r = Some row ->
  setTile r c v b =
    (Ok tt, mkBoard (size b) (<[r := arraySet row c v]> (tiles b)) (totalPlacements b)).
Proof. intros Hrow. unfold setTile. by rewrite Hrow. Qed.

Lemma setTile_throw r c v b :
  tiles b !! r = None -> setTile r c v b = (Throw TypeError, b).
Proof. intros Hrow. unfold setTile. by rewrite Hrow. Qed.

Lemma setTile_wf r c v b :
  wf b -> r < size b -> c < size b -> isChar v = true ->
  exists b', setTile r c v b = (Ok tt, b') /\ wf b' /\
             size b' = size b /\ totalPlacements b' = totalPlacements b.
Proof.
  intros Hwf Hr Hc Hv.
  destruct (lookup_lt_is_Some_2 (tiles b) r) as [row Hrow]; [destruct Hwf; lia|].
  destruct (wf_row _ _ _ Hwf Hrow) as [Hlen Hall].
  eexists. split; [by apply setTile_ok|]. split; [|done].
  destruct Hwf as [Hn Hrows]. split; simpl.
  - by rewrite length_insert.
  - apply Forall_insert; [done|]. split.
    + rewrite arraySet_length_in; lia.
    + unfold arraySet. replace (c <? length row) with true
        by (symmetry; apply Nat.ltb_lt; lia).
      by apply Forall_insert.
Qed.

Lemma placeLetters_cons w h r c k m b :
  placeLetters w h r c k (S m) b =
    match setTile (r + fst (getDeltas h) * k) (c + snd (getDeltas h) * k)
                  (charAt w k) b with
    | (Ok _, b') => placeLetters w h r c (S k) m b'
    | (Throw e, b') => (Throw e, b')
    end.
Proof.
  unfold placeLetters. simpl. unfold bind.
  by destruct (setTile _ _ _ b) as [[[]|e] b'].
Qed.

Lemma placeLetters_shape w h r c m : forall k b,
  size (exec (placeLetters w h r c k m) b) = size b /\
  length (tiles (exec (placeLetters w h r c k m) b)) = length (tiles b) /\
  totalPlacements (exec (placeLetters w h r c k m) b) = totalPlacements b.
Proof.
  induction m as [|m IH]; intros k b; [done|].
  unfold exec. rewrite placeLetters_cons.
  destruct (tiles b !! (r + fst (getDeltas h) * k)) as [row|] eqn:Hrow.
  - erewrite setTile_ok by done.
    destruct (IH (S k) (mkBoard (size b)
      (<[r + fst (getDeltas h) * k := arraySet row (c + snd (getDeltas h) * k)
           (charAt w k)]> (tiles b)) (totalPlacements b))) as (H1 & H2 & H3).
    unfold exec in *. simpl in *. rewrite length_insert in H2. done.
  - by rewrite setTile_throw.
Qed.

Lemma covers_spec h r c len sr sc :
  covers h r c len sr sc = true <->
  exists i, i < len /\ sr = r + fst (getDeltas h) * i /\ sc = c + snd (getDeltas h) * i.
Proof.
  unfold covers. destruct h; simpl;
    rewrite !andb_true_iff, Nat.eqb_eq, Nat.leb_le, Nat.ltb_lt; split.
  - intros [[-> Hc] Hlt]. exists (sc - c). lia.
  - intros (i & Hi & -> & ->). lia.
  - intros [[-> Hc] Hlt]. exists (sr - r). lia.
  - intros (i & Hi & -> & ->). lia.
Qed.

Lemma offset_at h r c i :
  offset h (r) (c) (r + fst (getDeltas h) * i) (c + snd (getDeltas h) * i) = i.
Proof. unfold offset. destruct h; simpl; lia. Qed.

Lemma coversFrom_spec h r c k m sr sc :
  coversFrom h r c k m sr sc = true <->
  exists i, k <= i < k + m /\
            sr = r + fst (getDeltas h) * i /\ sc = c + snd (getDeltas h) * i.
Proof.
  unfold coversFrom. rewrite andb_true_iff, covers_spec, Nat.leb_le. split.
  - intros [(i & Hi & -> & ->) Hk]. rewrite offset_at in Hk. exists i. lia.
  - intros (i & Hi & -> & ->). rewrite offset_at. split; [|lia].
    exists i. lia.
Qed.

Lemma coversFrom_0 h r c len sr sc :
  coversFrom h r c 0 len sr sc = covers h r c len sr sc.
Proof. unfold coversFrom. simpl. apply andb_true_r. Qed.

Lemma placeLetters_peek w h r c m : forall k b sr sc,
  sr < length (tiles b) ->
  peek (exec (placeLetters w h r c k m) b) sr sc =
    if coversFrom h r c k m sr sc
    then Ok (charAt w (offset h r c sr sc))
    else peek b sr sc.
Proof.
  induction m as [|m IH]; intros k b sr sc Hsr.
  - destruct (coversFrom h r c k 0 sr sc) eqn:E; [|done].
    apply coversFrom_spec in E as (i & Hi & _). lia.
  - unfold exec. rewrite placeLetters_cons.
    destruct (tiles b !! (r + fst (getDeltas h) * k)) as [row|] eqn:Hrow.
    + erewrite setTile_ok by done.
      set (b' := mkBoard _ _ _).
      specialize (IH (S k) b' sr sc). unfold exec in IH. rewrite IH
        by (subst b'; simpl; by rewrite length_insert).
      assert (peek b' sr sc =
              if decide (sr = r + fst (getDeltas h) * k /\ sc = c + snd (getDeltas h) * k)
              then Ok (charAt w k) else peek b sr sc) as ->.
      { rewrite <- (peek_setTile _ _ _ b row) by done.
        unfold exec. by erewrite setTile_ok by done. }
      destruct (coversFrom h r c (S k) m sr sc) eqn:E1.
      * apply coversFrom_spec in E1 as (i & Hi & Hr & Hc).
        replace (coversFrom h r c k (S m) sr sc) with true; [done|].
        symmetry. apply coversFrom_spec. exists i. split; [lia|done].
      * case_decide as Hd.
        -- destruct Hd as [-> ->]. rewrite offset_at.
           replace (coversFrom h r c k (S m) _ _) with true; [done|].
           symmetry. apply coversFrom_spec. exists k. split; [lia|done].
        -- destruct (coversFrom h r c k (S m) sr sc) eqn:E2; [|done]. exfalso.
           apply coversFrom_spec in E2 as (i & Hi & Hr & Hc).
           destruct (decide (i = k)) as [->|Hne]; [tauto|].
           apply not_true_iff_false in E1. apply E1, coversFrom_spec.
           exists i. split; [lia|done].
    + rewrite setTile_throw by done. simpl.
      destruct (coversFrom h r c k (S m) sr sc) eqn:E; [|done]. exfalso.
      apply coversFrom_spec in E as (i & Hi & Hr & Hc).
      apply lookup_ge_None in Hrow. destruct h; simpl in *; lia.
Qed.

Lemma placeLetters_wf w h r c m : forall k b,
  wf b ->
  (forall i, k <= i < k + m ->
     r + fst (getDeltas h) * i < size b /\ c + snd (getDeltas h) * i < size b /\
     i < String.length w) ->
  eval (placeLetters w h r c k m) b = Ok (Continue tt) /\
  wf (exec (placeLetters w h r c k m) b).
Proof.
  induction m as [|m IH]; intros k b Hwf Hin; [done|].
  unfold eval, exec. rewrite placeLetters_cons.
  destruct (Hin k) as (Hr & Hc & Hk); [lia|].
  destruct (setTile_wf _ _ (charAt w k) b Hwf Hr Hc) as (b' & -> & Hwf' & Hsz & _).
  { by apply isChar_charAt. }
  apply (IH (S k) b' Hwf'). intros i Hi. rewrite Hsz. apply Hin. lia.
Qed.

Lemma actuallyPlaceWord_run w h r c b :
  actuallyPlaceWord w h r c b =
    match placeLetters w h r c 0 (String.length w)
            (mkBoard (size b) (tiles b) (totalPlacements b + 1)) with
    | (Ok _, b') => (Ok tt, b')
    | (Throw e, b') => (Throw e, b')
    end.
Proof.
  unfold actuallyPlaceWord, placeLetters, bind. simpl.
  destruct h; simpl; by repeat case_match.
Qed.

Lemma exec_actuallyPlaceWord w h r c b :
  exec (actuallyPlaceWord w h r c) b =
    exec (placeLetters w h r c 0 (String.length w))
         (mkBoard (size b) (tiles b) (totalPlacements b + 1)).
Proof.
  unfold exec. rewrite actuallyPlaceWord_run. by repeat case_match.
Qed.

Lemma actuallyPlaceWord_peek w h r c b sr sc :
  sr < length (tiles b) ->
  peek (exec (actuallyPlaceWord w h r c) b) sr sc =
    if covers h r c (String.length w) sr sc
    then Ok (charAt w (offset h r c sr sc))
    else peek b sr sc.
Proof.
  intros Hsr. rewrite exec_actuallyPlaceWord, placeLetters_peek by done.
  by rewrite coversFrom_0.
Qed.

Lemma actuallyPlaceWord_shape w h r c b :
  size (exec (actuallyPlaceWord w h r c) b) = size b /\
  length (tiles (exec (actuallyPlaceWord w h r c) b)) = length (tiles b) /\
  totalPlacements (exec (actuallyPlaceWord w h r c) b) = totalPlacements b + 1.
Proof.
  rewrite exec_actuallyPlaceWord.
  apply (placeLetters_shape w h r c (String.length w) 0
           (mkBoard (size b) (tiles b) (totalPlacements b + 1))).
Qed.

Lemma actuallyPlaceWord_wf w h r c b :
  wf b -> feasible (size b) h r c (String.length w) ->
  eval (actuallyPlaceWord w h r c) b = Ok tt /\
  wf (exec (actuallyPlaceWord w h r c) b).
Proof.
  intros Hwf Hf.
  destruct (placeLetters_wf w h r c (String.length w) 0
              (mkBoard (size b) (tiles b) (totalPlacements b + 1))) as [He Hw].
  { done. }
  { intros i Hi. unfold feasible in Hf. destruct h; simpl in *; lia. }
  rewrite exec_actuallyPlaceWord. split; [|done].
  unfold eval in *. rewrite actuallyPlaceWord_run.
  destruct (placeLetters _ _ _ _ _ _ _) as [[?|?] ?]; simpl in *; done.
Qed.

(** ** The first loop of the validator *)

Lemma forEach_ext {I S R} (idxs : list I) (s : S)
    (body body' : S -> I -> M (flow S R)) b :
  (forall s i b, body s i b = body' s i b) ->
  forEach idxs s body b = forEach idxs s body' b.
Proof.
  intros Hext. revert s b. induction idxs as [|i idxs IH]; intros s b; [done|].
  simpl. unfold bind. rewrite Hext.
  destruct (body' s i b) as [[[s'|v]|e] b']; auto.
Qed.

Lemma scanWord_unfold h r c w b :
  scanWord h r c w b
  = forEach (seq 0 (String.length w)) (0, 0) (scanBody h r c w) b.
Proof.
  unfold scanWord. destruct h; simpl; apply forEach_ext; by intros [o s] i b0.
Qed.

Lemma readonly_scanBody h r c w counts i : readonly (scanBody h r c w counts i).
Proof. unfold scanBody. readonly_tac. Qed.

Lemma conflict_not_clean b h r c w i :
  conflictAt b h r c w i -> cleanAt b h r c w i -> False.
Proof. intros (v & Hv & H1 & H2) [H|H]; congruence. Qed.

(** The loop either stops at a conflict, or counts every position. *)
Lemma scan_loop_spec b h r c w idxs : forall o s,
  (forall i, i ∈ idxs -> exists v, under b h r c i = Ok v) ->
  (Exists (conflictAt b h r c w) idxs /\
   eval (forEach idxs (o, s) (scanBody h r c w)) b = Ok (Return false))
  \/
  (Forall (cleanAt b h r c w) idxs /\
   eval (forEach idxs (o, s) (scanBody h r c w)) b
   = Ok (Continue (o + overlapsIn b h r c w idxs, s + standaloneIn b h r c idxs))).
Proof.
  induction idxs as [|i idxs IH]; intros o s Hrows.
  - right. split; [constructor|]. unfold overlapsIn, standaloneIn. simpl.
    by rewrite !Nat.add_0_r.
  - rewrite eval_forEach_cons by apply readonly_scanBody.
    destruct (Hrows i) as [v Hv]; [set_solver|].
    unfold scanBody at 1 3. rewrite !eval_bind by apply readonly_tileAt.
    rewrite eval_tileAt. fold (under b h r c i). rewrite Hv.
    assert (forall j, j ∈ idxs -> exists v, under b h r c j = Ok v) as Hrows'
      by (intros j Hj; apply Hrows; set_solver).
    unfold overlapsIn, standaloneIn in *.
    destruct (decide (v = EMPTY)) as [->|Hne].
    + rewrite bool_decide_eq_false_2 by (intros H; by apply H). simpl.
      destruct (IH o (s + 1) Hrows') as [[Hex He]|[Hall He]].
      * left. split; [by apply Exists_cons_tl|done].
      * right. split; [apply Forall_cons; split; [by left|done]|].
        rewrite He, !filter_cons.
        destruct (decide (under b h r c i = Ok (charAt w i) /\ charAt w i <> EMPTY))
          as [[H1 H2]|Hn]; [rewrite Hv in H1; congruence|].
        rewrite decide_True by done. simpl. do 3 f_equal. lia.
    + rewrite bool_decide_eq_true_2 by done.
      destruct (decide (v = charAt w i)) as [->|Hne2].
      * rewrite bool_decide_eq_false_2 by (intros H; by apply H). simpl.
        destruct (IH (o + 1) s Hrows') as [[Hex He]|[Hall He]].
        -- left. split; [by apply Exists_cons_tl|done].
        -- right. split; [apply Forall_cons; split; [by right|done]|].
           rewrite He, !filter_cons.
           rewrite decide_True by done.
           rewrite decide_False by (rewrite Hv; congruence).
           simpl. do 3 f_equal. lia.
      * rewrite bool_decide_eq_true_2 by done. simpl.
        left. split; [|done]. apply Exists_cons_hd. by exists v.
Qed.

Lemma forEach_Return_inv {I S R} (idxs : list I) (s : S)
    (body : S -> I -> M (flow S R)) b v :
  (forall s i, readonly (body s i)) ->
  eval (forEach idxs s body) b = Ok (Return v) ->
  exists s' i, i ∈ idxs /\ eval (body s' i) b = Ok (Return v).
Proof.
  intros Hro. revert s. induction idxs as [|i idxs IH]; intros s He; [done|].
  rewrite eval_forEach_cons in He by apply Hro.
  destruct (eval (body s i) b) as [[s'|v']|e] eqn:Hb; [| |done].
  - destruct (IH s' He) as (s0 & i0 & Hi0 & Hb0). exists s0, i0. split; [set_solver|done].
  - exists s, i. split; [set_solver|]. congruence.
Qed.

Lemma forEach_unit_Continue_inv {I R} (idxs : list I)
    (body : unit -> I -> M (flow unit R)) b :
  (forall s i, readonly (body s i)) ->
  eval (forEach idxs tt body) b = Ok (Continue tt) ->
  forall i, i ∈ idxs -> eval (body tt i) b = Ok (Continue tt).
Proof.
  intros Hro. induction idxs as [|i idxs IH]; intros He j Hj; [set_solver|].
  rewrite eval_forEach_cons in He by apply Hro.
  destruct (eval (body tt i) b) as [[[]|v']|e] eqn:Hb; [|done..].
  apply elem_of_cons in Hj as [->|Hj]; [done|]. by apply IH.
Qed.

Section LocalRule.

Variable WORDS : list string.

(** The cross-check never returns [true] from inside its loops. *)
Lemma scanLine_Return b h r c w flip sr v :
  eval (scanLine WORDS h r c w flip sr) b = Ok (Return v) -> v = false.
Proof.
  unfold scanLine. rewrite eval_bind by apply readonly_getSize. simpl.
  intros (acc & sc & _ & He)%forEach_Return_inv; [|readonly_tac].
  rewrite eval_bind in He by apply readonly_getWordMask.
  destruct (eval (getWordMask _ _ _ _ _ _) b) as [ch|e]; [|done].
  by repeat case_match; unfold eval, ret in He; simplify_eq/=.
Qed.

Lemma checkAllLines_Return b h r c w v :
  eval (checkAllLines WORDS h r c w) b = Ok (Return v) -> v = false.
Proof.
  unfold checkAllLines.
  intros ([] & flip & _ & He)%forEach_Return_inv;
    [|readonly_tac; auto using readonly_scanLine with readonly].
  rewrite eval_bind in He by apply readonly_getSize. simpl in He.
  apply forEach_Return_inv in He as ([] & sr & _ & He);
    [|readonly_tac; auto using readonly_scanLine with readonly].
  rewrite eval_bind in He by apply readonly_scanLine.
  destruct (eval (scanLine _ _ _ _ _ _ _) b) as [[acc|v']|e] eqn:Hs; [| |done].
  - by case_match; unfold eval, ret in He; simplify_eq/=.
  - apply scanLine_Return in Hs. unfold eval, ret in He. by simplify_eq/=.
Qed.

Lemma rowsOnBoard_under b h r c len i :
  rowsOnBoard b h r len -> i < len -> exists v, under b h r c i = Ok v.
Proof. intros Hrows Hi. apply peek_row_ok. by apply Hrows. Qed.

Lemma scanWord_spec b h r c w :
  rowsOnBoard b h r (String.length w) ->
  (hardConflict b h r c w /\ eval (scanWord h r c w) b = Ok (Return false))
  \/
  (Forall (cleanAt b h r c w) (seq 0 (String.length w)) /\
   eval (scanWord h r c w) b
   = Ok (Continue (overlapCount b h r c w, standaloneCount b h r c w))).
Proof.
  intros Hrows. unfold eval. rewrite scanWord_unfold.
  destruct (scan_loop_spec b h r c w (seq 0 (String.length w)) 0 0)
    as [[Hex He]|[Hall He]].
  - intros i [_ Hi]%elem_of_seq. by eapply rowsOnBoard_under.
  - left. split; [|done]. apply Exists_exists in Hex as (i & [_ Hi]%elem_of_seq & Hc).
    by exists i.
  - right. split; [done|]. apply He.
Qed.

Lemma hardConflict_not_clean b h r c w :
  hardConflict b h r c w -> Forall (cleanAt b h r c w) (seq 0 (String.length w)) -> False.
Proof.
  intros (i & Hi & Hc) Hall. rewrite Forall_forall in Hall.
  apply (conflict_not_clean b h r c w i Hc), Hall, elem_of_seq. lia.
Qed.

Lemma isValidPlacement_conflict b h r c w :
  rowsOnBoard b h r (String.length w) -> hardConflict b h r c w ->
  eval (isValidPlacement WORDS h r c w) b = Ok false.
Proof.
  intros Hrows Hc. unfold isValidPlacement.
  rewrite eval_bind by apply readonly_scanWord.
  destruct (scanWord_spec b h r c w Hrows) as [[_ ->]|[Hall _]]; [done|].
  destruct (hardConflict_not_clean _ _ _ _ _ Hc Hall).
Qed.

Lemma isValidPlacement_clean b h r c w :
  rowsOnBoard b h r (String.length w) -> ~ hardConflict b h r c w ->
  eval (isValidPlacement WORDS h r c w) b =
    if ((0 <? totalPlacements b) && (overlapCount b h r c w =? 0))
       || (standaloneCount b h r c w =? 0)
    then Ok false
    else verdict (eval (checkAllLines WORDS h r c w) b).
Proof.
  intros Hrows Hc. unfold isValidPlacement.
  rewrite eval_bind by apply readonly_scanWord.
  destruct (scanWord_spec b h r c w Hrows) as [[Hc' _]|[_ ->]]; [done|].
  rewrite eval_bind by apply readonly_getTotalPlacements. simpl.
  case_match; [done|].
  rewrite eval_bind by apply readonly_checkAllLines. unfold verdict.
  by destruct (eval (checkAllLines WORDS h r c w) b) as [[[]|v]|e].
Qed.

Lemma isValidPlacement_true_inv b h r c w :
  rowsOnBoard b h r (String.length w) ->
  eval (isValidPlacement WORDS h r c w) b = Ok true ->
  Forall (cleanAt b h r c w) (seq 0 (String.length w)) /\
  standaloneCount b h r c w <> 0 /\
  eval (checkAllLines WORDS h r c w) b = Ok (Continue tt).
Proof.
  intros Hrows Hv. unfold isValidPlacement in Hv.
  rewrite eval_bind in Hv by apply readonly_scanWord.
  destruct (scanWord_spec b h r c w Hrows) as [[_ He]|[Hall He]];
    rewrite He in Hv; [done|].
  split; [done|].
  rewrite eval_bind in Hv by apply readonly_getTotalPlacements. simpl in Hv.
  destruct (_ || _) eqn:E in Hv; [done|].
  apply orb_false_iff in E as [_ E%Nat.eqb_neq]. split; [done|].
  rewrite eval_bind in Hv by apply readonly_checkAllLines.
  destruct (eval (checkAllLines WORDS h r c w) b) as [[[]|v]|e] eqn:Hc; [done| |done].
  apply checkAllLines_Return in Hc. by simplify_eq.
Qed.

End LocalRule.

(** ** Strings and runs *)

Lemma append_cons a (s t : string) : String a s +:+ t = String a (s +:+ t).
Proof. done. Qed.

Lemma append_nil_l (s : string) : EmptyString +:+ s = s.
Proof. done. Qed.

Lemma append_nil_r (s : string) : s +:+ EmptyString = s.
Proof. induction s as [|a s IH]; [done|]. by rewrite append_cons, IH. Qed.

Lemma append_assoc (s1 s2 s3 : string) : (s1 +:+ s2) +:+ s3 = s1 +:+ s2 +:+ s3.
Proof. induction s1 as [|a s1 IH]; [done|]. by rewrite !append_cons, IH. Qed.

Lemma length_append (s1 s2 : string) :
  String.length (s1 +:+ s2) = String.length s1 + String.length s2.
Proof.
  induction s1 as [|a s1 IH]; [done|]. rewrite append_cons. simpl. by rewrite IH.
Qed.

Lemma spell_cons v l : spell (v :: l) = toString v +:+ spell l.
Proof. done. Qed.

Lemma spell_app l1 l2 : spell (l1 ++ l2) = spell l1 +:+ spell l2.
Proof.
  induction l1 as [|v l1 IH]; [done|].
  rewrite <- app_comm_cons, !spell_cons, IH. by rewrite append_assoc.
Qed.

Lemma spell_length l :
  Forall (fun v => isChar v = true) l -> String.length (spell l) = length l.
Proof.
  induction 1 as [|v l Hv _ IH]; [done|].
  rewrite spell_cons, length_append, isChar_toString_length, IH by done. done.
Qed.

Lemma letters_isChar l :
  Forall (fun v => isChar v = true /\ v <> EMPTY) l ->
  Forall (fun v => isChar v = true) l.
Proof. intros H. eapply Forall_impl; [exact H|]. by intros v [? ?]. Qed.

(** Where a separator of the line falls relative to a run that avoids it. *)
Lemma split_at_separator {A} (x : A) (l1 l2 pre run post : list A) :
  l1 ++ x :: l2 = pre ++ run ++ post -> x ∉ run ->
  (exists post', post = post' ++ x :: l2 /\ l1 = pre ++ run ++ post') \/
  (exists pre', pre = l1 ++ x :: pre' /\ l2 = pre' ++ run ++ post).
Proof.
  revert pre run. induction l1 as [|a l1 IH]; intros pre run Heq Hx.
  - destruct pre as [|p pre]; simpl in *.
    + destruct run as [|y run]; simpl in *.
      * left. exists []. by subst.
      * simplify_eq. set_solver.
    + simplify_eq. right. by exists pre.
  - destruct pre as [|p pre]; simpl in *.
    + destruct run as [|y run]; simpl in *.
      * left. exists (a :: l1). by subst.
      * simplify_eq. destruct (IH [] run) as [(post' & -> & ->)|(pre' & Hp & _)];
          [done|set_solver| |].
        -- left. by exists post'.
        -- by destruct l1.
    + simplify_eq. destruct (IH pre run) as [(post' & -> & ->)|(pre' & -> & ->)];
        [done|done| |].
      * left. by exists post'.
      * right. by exists pre'.
Qed.

Section Runs.

Variable WORDS : list string.

Lemma has_spec s : has WORDS s = true <-> s ∈ WORDS.
Proof.
  unfold has, WORD_SET. rewrite bool_decide_eq_true. apply elem_of_list_to_set.
Qed.

Lemma badRun_false acc :
  badRun WORDS acc = false -> 2 <= String.length acc -> acc ∈ WORDS.
Proof.
  unfold badRun. intros [H|H]%andb_false_iff Hlen.
  - apply Nat.leb_gt in H. lia.
  - apply negb_false_iff in H. by apply has_spec.
Qed.

Lemma scanChars_sound cells : forall cur acc,
  Forall (fun v => isChar v = true) cells ->
  Forall (fun v => isChar v = true /\ v <> EMPTY) cur ->
  scanChars WORDS cells (spell cur) = Continue acc ->
  badRun WORDS acc = false ->
  forall pre run post,
    cur ++ cells = pre ++ run ++ post ->
    Forall (fun v => v <> EMPTY) run ->
    (pre = [] \/ last pre = Some EMPTY) ->
    (post = [] \/ head post = Some EMPTY) ->
    2 <= length run -> spell run ∈ WORDS.
Proof.
  assert (Hwhole : forall cur pre run post,
    Forall (fun v => isChar v = true /\ v <> EMPTY) cur ->
    cur = pre ++ run ++ post ->
    (pre = [] \/ last pre = Some EMPTY) ->
    (post = [] \/ head post = Some EMPTY) -> run = cur).
  { intros cur pre run post Hcur -> Hpre Hpost.
    apply Forall_app in Hcur as [Hp [_ Hq]%Forall_app].
    destruct Hpre as [->|[p ->]%last_Some].
    - destruct Hpost as [->|[q ->]%head_Some]; [by rewrite app_nil_r|].
      apply Forall_cons in Hq as [[_ Hq] _]. done.
    - apply Forall_app in Hp as [_ [[_ Hp] _]%Forall_cons]. done. }
  induction cells as [|ch rest IH]; intros cur acc Hcells Hcur Hscan Hbad
    pre run post Heq Hrun Hpre Hpost Hlen.
  - rewrite app_nil_r in Heq.
    assert (run = cur) as -> by (by apply (Hwhole cur pre run post)).
    clear Heq. simpl in Hscan. injection Hscan as <-.
    apply badRun_false; [done|].
    rewrite spell_length; [done|by apply letters_isChar].
  - apply Forall_cons in Hcells as [Hch Hrest]. simpl in Hscan.
    destruct (decide (ch = EMPTY)) as [->|Hne].
    + rewrite bool_decide_eq_true_2 in Hscan by done.
      destruct (badRun WORDS (spell cur)) eqn:Hb; [done|].
      destruct (split_at_separator EMPTY cur rest pre run post Heq)
        as [(post' & -> & Hc)|(pre' & -> & Hr)].
      * intros Hin. rewrite Forall_forall in Hrun. by apply (Hrun EMPTY Hin).
      * assert (post' = []) as ->.
        { destruct post' as [|q post']; [done|]. exfalso.
          rewrite Hc in Hcur. apply Forall_app in Hcur as [_ [_ Hq]%Forall_app].
          apply Forall_cons in Hq as [[_ Hq] _].
          destruct Hpost as [?|Hh]; [done|]. simpl in Hh. by simplify_eq. }
        rewrite app_nil_r in Hc.
        assert (run = cur) as ->.
        { apply (Hwhole cur pre run []); auto. by rewrite app_nil_r. }
        apply badRun_false; [done|].
        rewrite spell_length; [done|by apply letters_isChar].
      * apply (IH [] acc Hrest (Forall_nil_2 _) Hscan Hbad pre' run post); auto.
        destruct pre' as [|p pre']; [by left|right].
        destruct Hpre as [?|Hl]; [by destruct cur|].
        rewrite last_app in Hl. simpl in Hl.
        destruct (last (p :: pre')) eqn:E; [done|]. by apply last_None in E.
    + rewrite bool_decide_eq_false_2 in Hscan by done.
      assert (Hcur' : Forall (fun v => isChar v = true /\ v <> EMPTY) (cur ++ [ch])).
      { apply Forall_app. split; [done|]. by apply Forall_singleton. }
      assert (Hscan' : scanChars WORDS rest (spell (cur ++ [ch])) = Continue acc).
      { by rewrite spell_app, spell_cons, append_nil_r. }
      apply (IH (cur ++ [ch]) acc Hrest Hcur' Hscan' Hbad pre run post); auto.
      by rewrite <- app_assoc.
Qed.

Lemma scanChars_lineValid cells acc :
  Forall (fun v => isChar v = true) cells ->
  scanChars WORDS cells EmptyString = Continue acc -> badRun WORDS acc = false ->
  lineValid WORDS cells.
Proof.
  intros Hcells Hscan Hbad run (pre & post & -> & Hrun & Hpre & Hpost) Hlen.
  by apply (scanChars_sound (pre ++ run ++ post) [] acc Hcells (Forall_nil_2 _)
              Hscan Hbad pre run post).
Qed.

End Runs.

(** ** From the cross-check to the committed grid *)

Lemma peek_tileOr b r c : r < length (tiles b) -> peek b r c = Ok (tileOr b r c).
Proof.
  intros Hr. unfold tileOr. by destruct (peek_row_ok b r c Hr) as [v ->].
Qed.

Lemma eval_getWordMask_masked b h r c w sr sc :
  sr < length (tiles b) ->
  eval (getWordMask h r c w sr sc) b = Ok (masked b h r c w sr sc).
Proof.
  intros Hsr. rewrite eval_getWordMask. unfold masked.
  case_match; [done|]. by apply peek_tileOr.
Qed.

Lemma masked_commit b h r c w sr sc :
  sr < length (tiles b) ->
  tileOr (exec (actuallyPlaceWord w h r c) b) sr sc = masked b h r c w sr sc.
Proof.
  intros Hsr. unfold tileOr at 1. rewrite actuallyPlaceWord_peek by done.
  unfold masked. destruct (covers h r c (String.length w) sr sc); [done|].
  by rewrite peek_tileOr.
Qed.

Lemma covers_offset_lt h r c len sr sc :
  covers h r c len sr sc = true -> offset h r c sr sc < len.
Proof.
  intros (i & Hi & -> & ->)%covers_spec. by rewrite offset_at.
Qed.

Lemma tileOr_isChar b r c :
  wf b -> r < size b -> c < size b -> isChar (tileOr b r c) = true.
Proof.
  intros Hwf Hr Hc. unfold tileOr.
  by destruct (peek_wf b r c Hwf Hr Hc) as (v & -> & Hv).
Qed.

Lemma masked_isChar b h r c w sr sc :
  wf b -> sr < size b -> sc < size b -> isChar (masked b h r c w sr sc) = true.
Proof.
  intros Hwf Hsr Hsc. unfold masked. case_match eqn:E.
  - apply isChar_charAt. by eapply covers_offset_lt.
  - by apply tileOr_isChar.
Qed.

Lemma rowLine_seq b i :
  wf b -> i < size b -> rowLine b i = (fun j => tileOr b i j) <$> seq 0 (size b).
Proof.
  intros Hwf Hi. unfold rowLine.
  destruct (lookup_lt_is_Some_2 (tiles b) i) as [row Hrow]; [destruct Hwf; lia|].
  rewrite Hrow. simpl. destruct (wf_row _ _ _ Hwf Hrow) as [Hlen _].
  apply list_eq. intros j. rewrite list_lookup_fmap.
  destruct (decide (j < size b)) as [Hj|Hj].
  - rewrite lookup_seq_lt by done. simpl. unfold tileOr, peek. rewrite Hrow.
    destruct (lookup_lt_is_Some_2 row j) as [v ->]; [lia|]. done.
  - rewrite lookup_seq_ge by lia. simpl. apply lookup_ge_None. lia.
Qed.

Lemma colLine_seq b j :
  wf b -> colLine b j = (fun i => tileOr b i j) <$> seq 0 (size b).
Proof.
  intros Hwf. unfold colLine. apply list_eq. intros i. rewrite !list_lookup_fmap.
  destruct (decide (i < size b)) as [Hi|Hi].
  - rewrite lookup_seq_lt by done. simpl.
    destruct (lookup_lt_is_Some_2 (tiles b) i) as [row Hrow]; [destruct Hwf; lia|].
    rewrite Hrow. simpl. unfold tileOr, peek. by rewrite Hrow.
  - rewrite lookup_seq_ge by lia. simpl.
    rewrite (lookup_ge_None_2 (tiles b) i); [done|]. destruct Hwf. lia.
Qed.

Section CrossCheck.

Variable WORDS : list string.

Lemma scanLine_loop b h r c w (flip : bool) (sr : nat) (idxs : list nat) :
  forall acc,
  (forall sc, sc ∈ idxs -> (if flip then sc else sr) < length (tiles b)) ->
  eval (forEach idxs acc
          (fun acc sc =>
             char <- getWordMask h r c w
                       (if flip then sc else sr) (if flip then sr else sc) ;;
             if bool_decide (char = EMPTY) then
               if badRun WORDS acc then ret (Return false) else ret (Continue EmptyString)
             else ret (Continue (acc +:+ toString char)))) b
  = Ok (scanChars WORDS
          ((fun sc => masked b h r c w (if flip then sc else sr)
                        (if flip then sr else sc)) <$> idxs) acc).
Proof.
  induction idxs as [|sc idxs IH]; intros acc Hin; [done|].
  rewrite eval_forEach_cons by readonly_tac.
  rewrite eval_bind by apply readonly_getWordMask.
  rewrite eval_getWordMask_masked by (apply Hin; set_solver).
  rewrite fmap_cons. simpl.
  destruct (bool_decide (_ = EMPTY)).
  - destruct (badRun WORDS acc); [done|]. apply IH. intros; apply Hin; set_solver.
  - apply IH. intros; apply Hin; set_solver.
Qed.

Lemma scanLine_eval b h r c w flip sr :
  length (tiles b) = size b -> sr < size b ->
  eval (scanLine WORDS h r c w flip sr) b
  = Ok (scanChars WORDS
          ((fun sc => masked b h r c w (if flip then sc else sr)
                        (if flip then sr else sc)) <$> seq 0 (size b)) EmptyString).
Proof.
  intros Hlen Hsr. unfold scanLine.
  rewrite eval_bind by apply readonly_getSize. simpl.
  apply scanLine_loop. intros sc [_ Hsc]%elem_of_seq. destruct flip; lia.
Qed.

(** The cross-check passes only if every line of the masked grid is valid. *)
Lemma checkAllLines_lines b h r c w (flip : bool) (sr : nat) :
  wf b -> sr < size b ->
  eval (checkAllLines WORDS h r c w) b = Ok (Continue tt) ->
  lineValid WORDS
    ((fun sc => masked b h r c w (if flip then sc else sr)
                  (if flip then sr else sc)) <$> seq 0 (size b)).
Proof.
  intros Hwf Hsr Hc. unfold checkAllLines in Hc.
  apply forEach_unit_Continue_inv with (i := flip) in Hc;
    [|readonly_tac; auto using readonly_scanLine with readonly
     |destruct flip; set_solver].
  rewrite eval_bind in Hc by apply readonly_getSize. simpl in Hc.
  apply forEach_unit_Continue_inv with (i := sr) in Hc;
    [|readonly_tac; auto using readonly_scanLine with readonly
     |apply elem_of_seq; lia].
  rename Hc into Hs.
  rewrite eval_bind in Hs by apply readonly_scanLine.
  rewrite scanLine_eval in Hs by (destruct Hwf; done).
  destruct (scanChars _ _ _) as [acc|v] eqn:Hscan; [|unfold eval, ret in Hs; by simplify_eq/=].
  destruct (badRun WORDS acc) eqn:Hbad; [unfold eval, ret in Hs; by simplify_eq/=|].
  eapply scanChars_lineValid; [|done..].
  apply Forall_fmap, Forall_forall. intros sc [_ Hsc]%elem_of_seq. simpl.
  apply masked_isChar; [done|destruct flip; lia..].
Qed.

Lemma commit_gridValid b h r c w :
  wf b -> feasible (size b) h r c (String.length w) ->
  eval (isValidPlacement WORDS h r c w) b = Ok true ->
  gridValid WORDS (exec (actuallyPlaceWord w h r c) b).
Proof.
  intros Hwf Hf Hv.
  assert (Hlen : length (tiles b) = size b) by (by destruct Hwf).
  destruct (isValidPlacement_true_inv WORDS b h r c w) as (_ & _ & Hc); [|done|].
  { by apply (feasible_rowsOnBoard b h r c). }
  destruct (actuallyPlaceWord_wf w h r c b Hwf Hf) as [_ Hwf'].
  destruct (actuallyPlaceWord_shape w h r c b) as (Hsz & _ & _).
  intros i Hi. rewrite Hsz in Hi. split.
  - rewrite rowLine_seq by (rewrite ?Hsz; done). rewrite Hsz.
    pose proof (checkAllLines_lines b h r c w false i Hwf Hi Hc) as Hl. simpl in Hl.
    erewrite list_fmap_ext; [exact Hl|]. intros k j [-> Hj]%lookup_seq.
    simpl. apply masked_commit. lia.
  - rewrite colLine_seq by done. rewrite Hsz.
    pose proof (checkAllLines_lines b h r c w true i Hwf Hi Hc) as Hl. simpl in Hl.
    erewrite list_fmap_ext; [exact Hl|]. intros k j [-> Hj]%lookup_seq.
    simpl. apply masked_commit. lia.
Qed.

End CrossCheck.

(** ** One trial cycle *)

Lemma startsUpTo_spec n len x : x ∈ startsUpTo n len <-> x + len <= n.
Proof. unfold startsUpTo. rewrite elem_of_seq. lia. Qed.

Lemma candidates_spec n len h r c :
  (h, r, c) ∈ candidates n len <-> feasible n h r c len.
Proof.
  unfold candidates, feasible.
  rewrite elem_of_app, !list_elem_of_In, !in_flat_map.
  setoid_rewrite in_map_iff. setoid_rewrite <- list_elem_of_In.
  setoid_rewrite startsUpTo_spec. setoid_rewrite elem_of_seq.
  destruct h; split.
  - intros [(r' & Hr & c' & [= <- <-] & Hc)|(r' & Hr & c' & [=] & Hc)]. lia.
  - intros [Hr Hc]. left. exists r. split; [lia|]. by exists c.
  - intros [(r' & Hr & c' & [=] & Hc)|(r' & Hr & c' & [= <- <-] & Hc)]. lia.
  - intros [Hr Hc]. right. exists r. split; [lia|]. exists c. split; [done|lia].
Qed.

Lemma candidates_too_long n len : n < len -> candidates n len = [].
Proof.
  intros Hlt. unfold candidates, startsUpTo.
  replace (Z.to_nat (Z.of_nat n - Z.of_nat len + 1)) with 0 by lia. simpl.
  rewrite app_nil_r. induction (seq 0 n) as [|x l IH]; [done|]. by simpl.
Qed.

Lemma randomIndex_lt x n : 0 < n -> randomIndex x n < n.
Proof.
  intros Hn. unfold randomIndex. destruct (n =? 0) eqn:E.
  - apply Nat.eqb_eq in E. lia.
  - apply Nat.mod_upper_bound. lia.
Qed.

Section Cycle.

Variable WORDS : list string.

Lemma collect_loop b word cands : forall acc,
  length (tiles b) = size b ->
  (forall h r c, (h, r, c) ∈ cands -> feasible (size b) h r c (String.length word)) ->
  forEach (R := unit) cands acc
    (fun validPlacements '(h, r, c) =>
       ok <- isValidPlacement WORDS h r c word ;;
       ret (Continue (if ok then validPlacements ++ [(h, r, c)]
                      else validPlacements))) b
  = (Ok (Continue
           (acc ++ filter (fun p => eval (isValidPlacement WORDS p.1.1 p.1.2 p.2 word) b
                                    = Ok true) cands)), b).
Proof.
  induction cands as [|[[h r] c] cands IH]; intros acc Hlen Hf.
  - simpl. by rewrite app_nil_r.
  - simpl. unfold bind at 1 2.
    rewrite (readonly_run _ b (readonly_isValidPlacement WORDS h r c word)).
    destruct (isValidPlacement_total WORDS b h r c word Hlen) as [ok Hok].
    { apply (feasible_rowsOnBoard b h r c); [done|]. apply Hf. set_solver. }
    rewrite Hok. simpl. rewrite filter_cons. simpl. rewrite Hok.
    rewrite IH by (try done; intros; apply Hf; set_solver).
    destruct ok.
    + rewrite decide_True by done. by rewrite <- app_assoc.
    + rewrite decide_False by done. done.
Qed.

Lemma cycle_run b rnd word :
  length (tiles b) = size b ->
  WORDS !! randomIndex (fst rnd) (length WORDS) = Some word ->
  cycle WORDS rnd b =
    match validPlacementsOf WORDS b word
            !! randomIndex (snd rnd) (length (validPlacementsOf WORDS b word)) with
    | Some (h, r, c) => actuallyPlaceWord word h r c b
    | None => (Ok tt, b)
    end.
Proof.
  intros Hlen Hw. unfold cycle. rewrite Hw. unfold bind at 1. simpl.
  unfold bind at 1. rewrite collect_loop; [|done|by intros h r c ?%candidates_spec].
  simpl. fold (validPlacementsOf WORDS b word).
  destruct (validPlacementsOf WORDS b word) as [|p vp] eqn:E; [done|].
  simpl (0 <? _). cbv iota.
  destruct (lookup_lt_is_Some_2 (p :: vp)
              (randomIndex (snd rnd) (length (p :: vp)))) as [[[h r] c] ->]; [|done].
  apply randomIndex_lt. simpl. lia.
Qed.

Lemma cycle_empty_words b rnd :
  WORDS = [] -> cycle WORDS rnd b = (Throw TypeError, b).
Proof. intros ->. done. Qed.

Lemma cycle_too_long b rnd word :
  WORDS !! randomIndex (fst rnd) (length WORDS) = Some word ->
  size b < String.length word ->
  cycle WORDS rnd b = (Ok tt, b).
Proof.
  intros Hw Hlt. unfold cycle. rewrite Hw. unfold bind at 1. simpl.
  by rewrite candidates_too_long.
Qed.

(** A cycle that returns either leaves the board alone or commits one
    placement the validator accepted. *)
Lemma cycle_inv b rnd b' :
  wf b -> cycle WORDS rnd b = (Ok tt, b') ->
  b' = b \/
  exists word h r c,
    word ∈ WORDS /\ feasible (size b) h r c (String.length word) /\
    eval (isValidPlacement WORDS h r c word) b = Ok true /\
    actuallyPlaceWord word h r c b = (Ok tt, b').
Proof.
  intros Hwf Hc.
  destruct (WORDS !! randomIndex (fst rnd) (length WORDS)) as [word|] eqn:Hw.
  - rewrite (cycle_run b rnd word) in Hc by (by destruct Hwf || done).
    destruct (validPlacementsOf WORDS b word !! _) as [[[h r] c]|] eqn:Hp.
    + right. exists word, h, r, c.
      apply list_elem_of_lookup_2 in Hp. unfold validPlacementsOf in Hp.
      apply list_elem_of_filter in Hp as [Hv Hcand]. simpl in Hv.
      apply candidates_spec in Hcand.
      split; [by eapply list_elem_of_lookup_2|done].
    + left. by simplify_eq.
  - unfold cycle in Hc. by rewrite Hw in Hc.
Qed.

End Cycle.

(** ** Density *)

Lemma count_letters_mono (l l' : list jsval) :
  Forall2 (fun x y => x <> EMPTY -> y <> EMPTY) l l' ->
  length (filter (fun ch => ch <> EMPTY) l) <= length (filter (fun ch => ch <> EMPTY) l').
Proof.
  induction 1 as [|x y l l' Hxy _ IH]; [done|].
  rewrite !filter_cons. destruct (decide (x <> EMPTY)) as [Hx|Hx].
  - rewrite decide_True by auto. simpl. lia.
  - case_decide; simpl; lia.
Qed.

Lemma concat_letters_mono (ll ll' : list (list jsval)) :
  Forall2 (Forall2 (fun x y => x <> EMPTY -> y <> EMPTY)) ll ll' ->
  Forall2 (fun x y => x <> EMPTY -> y <> EMPTY) (concat ll) (concat ll').
Proof.
  induction 1 as [|l l' ll ll' Hl _ IH]; [constructor|].
  simpl. by apply Forall2_app.
Qed.

Lemma occupied_mono b b' :
  wf b -> wf b' -> size b = size b' ->
  (forall sr sc v, peek b sr sc = Ok v -> v <> EMPTY -> peek b' sr sc = Ok v) ->
  occupied b <= occupied b'.
Proof.
  intros Hwf Hwf' Hsz Hkeep. unfold occupied.
  apply count_letters_mono, concat_letters_mono.
  apply Forall2_same_length_lookup_2.
  { destruct Hwf as [-> _], Hwf' as [-> _]. done. }
  intros i row row' Hrow Hrow'.
  destruct (wf_row _ _ _ Hwf Hrow) as [Hl _].
  destruct (wf_row _ _ _ Hwf' Hrow') as [Hl' _].
  apply Forall2_same_length_lookup_2; [lia|].
  intros j x y Hx Hy Hne.
  specialize (Hkeep i j x). unfold peek in Hkeep.
  rewrite Hrow, Hrow', Hx, Hy in Hkeep. simpl in Hkeep.
  specialize (Hkeep eq_refl Hne). by simplify_eq.
Qed.

Lemma density_mono b b' :
  size b = size b' -> occupied b <= occupied b' -> (density b <= density b')%Q.
Proof.
  intros Hsz Hocc. unfold density. rewrite Hsz. unfold Qdiv.
  apply Qmult_le_compat_r.
  - rewrite <- Zle_Qle. lia.
  - apply Qinv_le_0_compat. change 0%Q with (inject_Z 0). rewrite <- Zle_Qle. lia.
Qed.

(** ** Reachable boards of a generation run *)

Lemma wf_emptyBoard n : wf (emptyBoard n).
Proof.
  split; simpl.
  - apply length_replicate.
  - apply Forall_replicate. split; [apply length_replicate|].
    by apply Forall_replicate.
Qed.

Lemma peek_emptyBoard n r c v : peek (emptyBoard n) r c = Ok v -> r < n -> c < n -> v = EMPTY.
Proof.
  intros Hp Hr Hc. unfold peek in Hp. simpl in Hp.
  rewrite lookup_replicate_2 in Hp by done.
  rewrite lookup_replicate_2 in Hp by done. by simplify_eq.
Qed.

Lemma empty_line_no_run (line run : list jsval) :
  Forall (fun v => v = EMPTY) line -> maximalRun line run -> length run = 0.
Proof.
  intros Hline (pre & post & -> & Hrun & _).
  apply Forall_app in Hline as [_ [Hline _]%Forall_app].
  destruct run as [|v run]; [done|].
  apply Forall_cons in Hline as [-> _]. by apply Forall_cons in Hrun as [? _].
Qed.

Section Reachability.

Variable WORDS : list string.

Lemma gridValid_emptyBoard n : gridValid WORDS (emptyBoard n).
Proof.
  intros i Hi. simpl in Hi. split; intros run Hrun Hlen.
  - apply empty_line_no_run in Hrun; [lia|].
    unfold rowLine. simpl. rewrite lookup_replicate_2 by done. simpl.
    by apply Forall_replicate.
  - apply empty_line_no_run in Hrun; [lia|].
    unfold colLine. simpl. apply Forall_fmap, Forall_replicate. simpl.
    by rewrite lookup_replicate_2.
Qed.

Lemma cycle_wf b rnd b' :
  wf b -> cycle WORDS rnd b = (Ok tt, b') -> wf b' /\ size b' = size b.
Proof.
  intros Hwf [->|(word & h & r & c & _ & Hf & _ & Hp)]%cycle_inv; [done| |done].
  destruct (actuallyPlaceWord_wf word h r c b Hwf Hf) as [_ Hwf'].
  destruct (actuallyPlaceWord_shape word h r c b) as (Hsz & _).
  unfold exec in *. rewrite Hp in *. done.
Qed.

Lemma reachable_wf n b : reachable WORDS n b -> wf b /\ size b = n.
Proof.
  induction 1 as [|b rnd b' _ [IHwf IHsz] Hc].
  - split; [apply wf_emptyBoard|done].
  - destruct (cycle_wf b rnd b' IHwf Hc) as [? ?]. split; [done|congruence].
Qed.

(** A commit keeps every letter already on the board. *)
Lemma commit_keeps_letters b h r c w sr sc v :
  wf b -> feasible (size b) h r c (String.length w) ->
  eval (isValidPlacement WORDS h r c w) b = Ok true ->
  peek b sr sc = Ok v -> v <> EMPTY ->
  peek (exec (actuallyPlaceWord w h r c) b) sr sc = Ok v.
Proof.
  intros Hwf Hf Hv Hp Hne.
  assert (Hsr : sr < length (tiles b)).
  { unfold peek in Hp. destruct (tiles b !! sr) eqn:E; [|done].
    by apply lookup_lt_Some in E. }
  rewrite actuallyPlaceWord_peek by done.
  destruct (covers h r c (String.length w) sr sc) eqn:Hcov; [|done].
  apply covers_spec in Hcov as (i & Hi & -> & ->). rewrite offset_at.
  destruct (isValidPlacement_true_inv WORDS b h r c w) as (Hclean & _); [|done|].
  { apply (feasible_rowsOnBoard b h r c); [by destruct Hwf|done]. }
  rewrite Forall_forall in Hclean.
  destruct (Hclean i) as [He|He]; [apply elem_of_seq; lia| |];
    unfold under in He; rewrite Hp in He; by simplify_eq.
Qed.

End Reachability.

(** ** The generation run *)

Section Generation.

Variable WORDS : list string.

Lemma trial_loop_reachable n rnd (idxs : list nat) : forall b f b',
  reachable WORDS n b ->
  forEach (R := unit) idxs tt
    (fun _ i => cycle WORDS (rnd i) ;;; ret (Continue tt)) b = (Ok f, b') ->
  reachable WORDS n b'.
Proof.
  induction idxs as [|i idxs IH]; intros b f b' Hb Hrun.
  - simpl in Hrun. unfold ret in Hrun. by simplify_eq.
  - simpl in Hrun. unfold bind at 1 2 in Hrun.
    destruct (cycle WORDS (rnd i) b) as [[[]|e] b1] eqn:Hc; [|done].
    simpl in Hrun. eapply IH; [|done]. by eapply reachable_cycle.
Qed.

(** The board [makePuzzle] leaves is one of the reachable boards. *)
Lemma makePuzzle_reachable n cycles rnd b' :
  makePuzzle WORDS cycles rnd (emptyBoard n) = (Ok tt, b') ->
  reachable WORDS n b'.
Proof.
  unfold makePuzzle. unfold bind at 1. simpl. unfold bind at 1.
  fold (emptyBoard n).
  destruct (forEach _ _ _ _) as [[f|e] b1] eqn:Hl; [|done].
  intros Hr. unfold ret in Hr. simplify_eq.
  eapply trial_loop_reachable; [apply reachable_init|done].
Qed.

Lemma word_drawn x :
  WORDS <> [] ->
  exists word, WORDS !! randomIndex x (length WORDS) = Some word /\ word ∈ WORDS.
Proof.
  intros Hne.
  destruct (lookup_lt_is_Some_2 WORDS (randomIndex x (length WORDS))) as [word Hw].
  { apply randomIndex_lt. destruct WORDS; [done|simpl; lia]. }
  exists word. split; [done|]. by eapply list_elem_of_lookup_2.
Qed.

(** With a non-empty word list a cycle never throws. *)
Lemma cycle_total b rnd :
  wf b -> WORDS <> [] -> exists b', cycle WORDS rnd b = (Ok tt, b').
Proof.
  intros Hwf Hne. destruct (word_drawn (fst rnd) Hne) as (word & Hw & _).
  rewrite (cycle_run WORDS b rnd word) by (by destruct Hwf || done).
  destruct (validPlacementsOf WORDS b word !! _) as [[[h r] c]|] eqn:Hp; [|by eexists].
  apply list_elem_of_lookup_2, list_elem_of_filter in Hp as [_ Hcand%candidates_spec].
  destruct (actuallyPlaceWord_wf word h r c b Hwf Hcand) as [He _].
  exists (exec (actuallyPlaceWord word h r c) b).
  rewrite (run_eta (actuallyPlaceWord word h r c) b). by rewrite He.
Qed.

Lemma trial_loop_total rnd (idxs : list nat) : forall b,
  wf b -> WORDS <> [] ->
  exists b', forEach (R := unit) idxs tt
               (fun _ i => cycle WORDS (rnd i) ;;; ret (Continue tt)) b
             = (Ok (Continue tt), b').
Proof.
  induction idxs as [|i idxs IH]; intros b Hwf Hne; [by eexists|].
  simpl. unfold bind at 1 2.
  destruct (cycle_total b (rnd i) Hwf Hne) as [b1 Hc]. rewrite Hc. simpl.
  apply IH; [|done]. by destruct (cycle_wf WORDS b (rnd i) b1 Hwf Hc).
Qed.

(** With a non-empty word list [makePuzzle] runs all its cycles and returns. *)
Lemma makePuzzle_total n cycles rnd :
  WORDS <> [] ->
  exists b', makePuzzle WORDS cycles rnd (emptyBoard n) = (Ok tt, b').
Proof.
  intros Hne. unfold makePuzzle. unfold bind at 1. simpl. unfold bind at 1.
  fold (emptyBoard n).
  destruct (trial_loop_total rnd (seq 0 cycles) (emptyBoard n)
              (wf_emptyBoard n) Hne) as [b' ->].
  by eexists.
Qed.

(** A run whose words are all longer than the board leaves it empty. *)
Lemma trial_loop_too_long n rnd (idxs : list nat) :
  WORDS <> [] -> (forall w, w ∈ WORDS -> n < String.length w) ->
  forEach (R := unit) idxs tt
    (fun _ i => cycle WORDS (rnd i) ;;; ret (Continue tt)) (emptyBoard n)
  = (Ok (Continue tt), emptyBoard n).
Proof.
  intros Hne Hlong. induction idxs as [|i idxs IH]; [done|].
  simpl. unfold bind at 1 2.
  destruct (word_drawn (fst (rnd i)) Hne) as (word & Hw & Hin).
  rewrite (cycle_too_long WORDS (emptyBoard n) (rnd i) word Hw) by (by apply Hlong).
  simpl. apply IH.
Qed.

Lemma makePuzzle_too_long n cycles rnd :
  WORDS <> [] -> (forall w, w ∈ WORDS -> n < String.length w) ->
  makePuzzle WORDS cycles rnd (emptyBoard n) = (Ok tt, emptyBoard n).
Proof.
  intros Hne Hlong. unfold makePuzzle. unfold bind at 1. simpl. unfold bind at 1.
  fold (emptyBoard n). by rewrite trial_loop_too_long.
Qed.

End Generation.

(** With no words the first cycle throws, before anything is placed. *)
Lemma makePuzzle_no_words n cycles rnd :
  makePuzzle [] cycles rnd (emptyBoard n)
  = (if cycles =? 0 then Ok tt else Throw TypeError, emptyBoard n).
Proof.
  unfold makePuzzle. unfold bind at 1. simpl. fold (emptyBoard n).
  destruct cycles as [|k]; [done|]. simpl. unfold bind at 1 2 3.
  by rewrite cycle_empty_words.
Qed.

(** ** Best-of-N search *)

Lemma Qltb_false_iff x y : Qltb x y = false <-> (y <= x)%Q.
Proof. unfold Qltb. rewrite negb_false_iff. apply Qle_bool_iff. Qed.

Lemma Qltb_true_iff x y : Qltb x y = true <-> (x < y)%Q.
Proof.
  unfold Qltb. rewrite negb_true_iff, <- not_true_iff_false, Qle_bool_iff. split.
  - apply Qnot_le_lt.
  - apply Qlt_not_le.
Qed.

Section SearchFacts.

Variable WORDS : list string.
Variable now : nat -> Z.
Variable rnd : nat -> nat -> nat * nat.

(** What the search loop returns: the count grows by the number of boards
    built, and the grid kept is the one held on entry if no board beats the
    density held on entry, and otherwise a board of greatest density. *)
Lemma searchLoop_spec start s n fuel : forall k bd best cnt best' cnt',
  searchLoop WORDS now rnd fuel k start s n bd best cnt = Some (Ok (best', cnt')) ->
  exists boards : list Board,
    cnt' = cnt + length boards /\
    (forall i b, boards !! i = Some b -> newBoard WORDS n (rnd (cnt + i)) = Ok b) /\
    ((best' = best /\ Forall (fun b => (density b <= bd)%Q) boards) \/
     (exists b, best' = Some b /\ b ∈ boards /\ (bd < density b)%Q /\
                Forall (fun b' => (density b' <= density b)%Q) boards)).
Proof.
  induction fuel as [|fuel IH]; intros k bd best cnt best' cnt' Hrun; [done|].
  cbn [searchLoop] in Hrun.
  destruct (Qltb (inject_Z (now k - start)) (s * 1000)).
  2:{ exists []. simplify_eq. split; [simpl; lia|]. split; [done|]. left. by split. }
  destruct (newBoard WORDS n (rnd cnt)) as [board|e] eqn:Hnew; [|done].
  assert (Hidx : forall boards' : list Board,
    (forall i b, boards' !! i = Some b ->
                 newBoard WORDS n (rnd (cnt + 1 + i)) = Ok b) ->
    forall i b, (board :: boards') !! i = Some b ->
                newBoard WORDS n (rnd (cnt + i)) = Ok b).
  { intros boards' Hb [|i] b Hi; simpl in Hi.
    - simplify_eq. by rewrite Nat.add_0_r.
    - replace (cnt + S i) with (cnt + 1 + i) by lia. by apply Hb. }
  destruct (Qltb bd (density board)) eqn:Hlt.
  - apply Qltb_true_iff in Hlt.
    destruct (IH _ _ _ _ _ _ Hrun) as (boards & -> & Hb & Hbest).
    exists (board :: boards). split; [simpl; lia|]. split; [by apply Hidx|].
    right. destruct Hbest as [[-> Hall]|(b & -> & Hin & Hgt & Hall)].
    + exists board. split; [done|]. split; [by left|]. split; [done|].
      apply Forall_cons. split; [apply Qle_refl|done].
    + exists b. split; [done|]. split; [by right|].
      split; [by eapply Qlt_trans|].
      apply Forall_cons. split; [by apply Qlt_le_weak|done].
  - apply Qltb_false_iff in Hlt.
    destruct (IH _ _ _ _ _ _ Hrun) as (boards & -> & Hb & Hbest).
    exists (board :: boards). split; [simpl; lia|]. split; [by apply Hidx|].
    destruct Hbest as [[-> Hall]|(b & -> & Hin & Hgt & Hall)].
    + left. split; [done|]. by apply Forall_cons.
    + right. exists b. split; [done|]. split; [by right|]. split; [done|].
      apply Forall_cons. split; [|done].
      apply Qlt_le_weak. by eapply Qle_lt_trans.
Qed.

(** The result of [createBoard]: the count is the number of boards built; the
    grid is a built board of greatest density when some board has a positive
    density, and null when none has. *)
Lemma createBoard_spec fuel s n best cnt :
  createBoard WORDS now rnd fuel s n = Some (Ok (best, cnt)) ->
  exists boards : list Board,
    cnt = length boards /\
    (forall i b, boards !! i = Some b -> newBoard WORDS n (rnd i) = Ok b) /\
    ((best = None /\ Forall (fun b => (density b <= 0)%Q) boards) \/
     (exists b, best = Some b /\ b ∈ boards /\ (0 < density b)%Q /\
                Forall (fun b' => (density b' <= density b)%Q) boards)).
Proof.
  unfold createBoard. intros (boards & -> & Hb & Hbest)%searchLoop_spec.
  exists boards. done.
Qed.

End SearchFacts.

Lemma newBoard_too_long (WORDS : list string) n rnd :
  WORDS <> [] -> (forall w, w ∈ WORDS -> n < String.length w) ->
  newBoard WORDS n rnd = Ok (emptyBoard n).
Proof. intros Hne Hlong. unfold newBoard. by rewrite makePuzzle_too_long. Qed.

(** * The properties *)

(** [C1] Grid validity invariant: on every board a generation run reaches from
    the all-empty grid, that is after every cycle and so after every committed
    placement, every maximal horizontal and every maximal vertical run of two
    or more non-empty tiles spells a word of the list. *)
Theorem reachable_gridValid (WORDS : list string) (n : nat) (b : Board) :
  reachable WORDS n b -> gridValid WORDS b.
Proof.
  induction 1 as [|b rnd b' Hreach IH Hc]; [apply gridValid_emptyBoard|].
  destruct (reachable_wf WORDS n b Hreach) as [Hwf _].
  destruct (cycle_inv WORDS b rnd b' Hwf Hc)
    as [->|(word & h & r & c & _ & Hf & Hv & Hp)]; [done|].
  replace b' with (exec (actuallyPlaceWord word h r c) b)
    by (unfold exec; by rewrite Hp).
  by apply commit_gridValid.
Qed.

Lemma reachable_gridValid_witness :
  reachable sampleWords 4 boardWithCatAt /\ gridValid sampleWords boardWithCatAt.
Proof.
  assert (H : reachable sampleWords 4 boardWithCatAt).
  { apply (reachable_cycle sampleWords 4 boardWithCat (2, 1)).
    - apply (reachable_cycle sampleWords 4 (emptyBoard 4) (0, 0)).
      + apply reachable_init.
      + vm_compute. reflexivity.
    - vm_compute. reflexivity. }
  split; [exact H|].
  exact (reachable_gridValid sampleWords 4 boardWithCatAt H).
Defined.

(** [C2], as stated, fails for a start position off the rows of the board:
    the vertical word ["ab"] at [(0, 0)] of the one-tile board covers no
    empty position, yet the validator does not return [false]: reading the
    missing second row throws. *)
Lemma local_rule_off_board :
  wf boardA /\
  standaloneCount boardA false 0 0 "ab" = 0 /\
  eval (isValidPlacement ["ab"] false 0 0 "ab") boardA = Throw TypeError /\
  eval (isValidPlacement ["ab"] false 0 0 "ab") boardA <> Ok false.
Proof.
  split; [apply (bool_decide_unpack _); vm_compute; exact I|].
  split; [vm_compute; reflexivity|].
  split; [vm_compute; reflexivity|].
  vm_compute. discriminate.
Qed.

(** [C2] Local admissibility rule, for every board and every placement whose
    rows exist on the board (so for every geometrically feasible one): the
    validator returns [false], leaving the board alone, whenever some
    occupied cell under the word differs from the word's letter there,
    whenever no position under the word is empty, and whenever the placement
    counter is positive and no occupied position matches. With the counter at
    [0] the overlap count plays no part: a placement without conflict that
    covers an empty position is decided by the cross-check alone. *)
Theorem local_rule (WORDS : list string) (b : Board) (horizontal : bool)
    (r c : nat) (word : string) :
  rowsOnBoard b horizontal r (String.length word) ->
  (hardConflict b horizontal r c word ->
     isValidPlacement WORDS horizontal r c word b = (Ok false, b)) /\
  (standaloneCount b horizontal r c word = 0 ->
     isValidPlacement WORDS horizontal r c word b = (Ok false, b)) /\
  (0 < totalPlacements b -> overlapCount b horizontal r c word = 0 ->
     isValidPlacement WORDS horizontal r c word b = (Ok false, b)) /\
  (totalPlacements b = 0 -> ~ hardConflict b horizontal r c word ->
     standaloneCount b horizontal r c word <> 0 ->
     isValidPlacement WORDS horizontal r c word b
     = (verdict (eval (checkAllLines WORDS horizontal r c word) b), b)).
Proof.
  intros Hrows.
  assert (Hrun : forall o,
    eval (isValidPlacement WORDS horizontal r c word) b = o ->
    isValidPlacement WORDS horizontal r c word b = (o, b)).
  { intros o <-. apply readonly_run, readonly_isValidPlacement. }
  assert (Hdec : hardConflict b horizontal r c word \/
                 ~ hardConflict b horizontal r c word).
  { destruct (scanWord_spec b horizontal r c word Hrows) as [[Hc _]|[Hall _]];
      [by left|right]. intros Hc. by eapply hardConflict_not_clean. }
  repeat split.
  - intros Hc. by apply Hrun, isValidPlacement_conflict.
  - intros Hs. apply Hrun. destruct Hdec as [Hc|Hc].
    + by apply isValidPlacement_conflict.
    + rewrite isValidPlacement_clean by done. rewrite Hs. simpl.
      by rewrite orb_true_r.
  - intros Htp Ho. apply Hrun. destruct Hdec as [Hc|Hc].
    + by apply isValidPlacement_conflict.
    + rewrite isValidPlacement_clean by done. rewrite Ho.
      apply Nat.ltb_lt in Htp. by rewrite Htp.
  - intros Htp Hc Hs. apply Hrun.
    rewrite isValidPlacement_clean by done. rewrite Htp.
    apply Nat.eqb_neq in Hs. by rewrite Hs.
Qed.

Lemma local_rule_witness :
  isValidPlacement sampleWords false 0 2 "art" boardWithCat = (Ok false, boardWithCat).
Proof.
  assert (Hrows : rowsOnBoard boardWithCat false 0 (String.length "art")).
  { intros i Hi. simpl in *. lia. }
  assert (Hc : hardConflict boardWithCat false 0 2 "art").
  { exists 0. split; [simpl; lia|]. exists (JStr "t").
    split; [reflexivity|]. split; discriminate. }
  exact (proj1 (local_rule sampleWords boardWithCat false 0 2 "art" Hrows) Hc).
Defined.

(** [C3] The validator is a pure, total boolean predicate: on a well-formed
    board, for every placement whose cells all lie within the grid, it
    returns a boolean without throwing and leaves the tiles and the placement
    counter as they were. *)
Theorem isValidPlacement_pure_total (WORDS : list string) (b : Board)
    (horizontal : bool) (r c : nat) (word : string) :
  wf b -> feasible (size b) horizontal r c (String.length word) ->
  exists v : bool, isValidPlacement WORDS horizontal r c word b = (Ok v, b).
Proof.
  intros Hwf Hf.
  destruct (isValidPlacement_total WORDS b horizontal r c word) as [v Hv].
  - by destruct Hwf.
  - apply (feasible_rowsOnBoard b horizontal r c); [by destruct Hwf|done].
  - exists v. rewrite (readonly_run _ b (readonly_isValidPlacement WORDS _ _ _ _)).
    by rewrite Hv.
Qed.

Lemma isValidPlacement_pure_total_witness :
  exists v : bool,
    isValidPlacement sampleWords false 0 1 "art" boardWithCat = (Ok v, boardWithCat).
Proof.
  apply (isValidPlacement_pure_total sampleWords boardWithCat false 0 1 "art").
  - apply (bool_decide_unpack _). vm_compute. exact I.
  - apply (bool_decide_unpack _). vm_compute. exact I.
Defined.

(** [C4], as stated, fails: the membership test is case-sensitive. ["CAT"]
    equals the loaded word ["cat"] up to letter case and is not found. *)
Lemma has_is_case_sensitive :
  ~ (has ["cat"] "CAT" = true <->
     exists w, w ∈ ["cat"] /\ equalUpToCase "CAT" w).
Proof.
  intros [_ H].
  assert (Hf : has ["cat"] "CAT" = true).
  { apply H. exists "cat". split; [set_solver|reflexivity]. }
  vm_compute in Hf. discriminate.
Qed.

(** [C4] Lexicon membership is an exact whole-string match: [has s] is true
    if and only if [s] is, character for character, one of the loaded words. *)
Theorem has_exact_match (WORDS : list string) (s : string) :
  has WORDS s = true <-> s ∈ WORDS.
Proof. apply has_spec. Qed.

(** [C5] Commits only add letters: across a cycle of a generation run, a tile
    that changes was empty before, a tile that held a letter still holds that
    letter (so it is neither overwritten by another letter nor emptied), and
    the count of occupied tiles and the density do not decrease. *)
Theorem commits_only_add (WORDS : list string) (n : nat) (b : Board)
    (rnd : nat * nat) (b' : Board) :
  reachable WORDS n b -> cycle WORDS rnd b = (Ok tt, b') ->
  (forall sr sc, sr < n -> sc < n ->
     peek b sr sc = Ok EMPTY \/ peek b' sr sc = peek b sr sc) /\
  (forall sr sc v, peek b sr sc = Ok v -> v <> EMPTY -> peek b' sr sc = Ok v) /\
  occupied b <= occupied b' /\
  (density b <= density b')%Q.
Proof.
  intros Hreach Hc.
  destruct (reachable_wf WORDS n b Hreach) as [Hwf Hsz].
  destruct (cycle_wf WORDS b rnd b' Hwf Hc) as [Hwf' Hsz'].
  assert (Hkeep : forall sr sc v,
             peek b sr sc = Ok v -> v <> EMPTY -> peek b' sr sc = Ok v).
  { destruct (cycle_inv WORDS b rnd b' Hwf Hc)
      as [->|(word & h & r & c & _ & Hf & Hv & Hp)]; [done|].
    replace b' with (exec (actuallyPlaceWord word h r c) b)
      by (unfold exec; by rewrite Hp).
    intros sr sc v. by apply (commit_keeps_letters WORDS). }
  assert (Hocc : occupied b <= occupied b') by (by apply occupied_mono).
  repeat split; [|done|done|by apply density_mono].
  intros sr sc Hsr Hsc.
  destruct (peek_wf b sr sc Hwf) as (v & Hv & _); [lia..|].
  destruct (decide (v = EMPTY)) as [->|Hne]; [by left|right].
  rewrite Hv. by apply Hkeep.
Qed.

Lemma commits_only_add_witness :
  reachable sampleWords 4 boardWithCat /\
  cycle sampleWords (2, 1) boardWithCat = (Ok tt, boardWithCatAt) /\
  occupied boardWithCat <= occupied boardWithCatAt.
Proof.
  assert (H : reachable sampleWords 4 boardWithCat).
  { apply (reachable_cycle sampleWords 4 (emptyBoard 4) (0, 0)).
    - apply reachable_init.
    - vm_compute. reflexivity. }
  assert (Hc : cycle sampleWords (2, 1) boardWithCat = (Ok tt, boardWithCatAt)).
  { vm_compute. reflexivity. }
  split; [exact H|]. split; [exact Hc|].
  exact (proj1 (proj2 (proj2
           (commits_only_add sampleWords 4 boardWithCat (2, 1) boardWithCatAt H Hc)))).
Defined.

(** [C6] The placements a trial cycle hands to the validator are exactly the
    geometrically feasible ones: horizontal at every [(r, c)] with [r < N] and
    [c + len <= N], vertical at every [(r, c)] with [r + len <= N] and
    [c < N]; the cycle then commits one of those the validator accepted, or
    none. For a word longer than the board there is no candidate and the
    cycle returns with the board untouched. *)
Theorem candidates_exactly_feasible (WORDS : list string) (b : Board)
    (rnd : nat * nat) (word : string) :
  wf b ->
  WORDS !! randomIndex (fst rnd) (length WORDS) = Some word ->
  (forall h r c,
     (h, r, c) ∈ candidates (size b) (String.length word) <->
     (h = true /\ r < size b /\ c + String.length word <= size b) \/
     (h = false /\ r + String.length word <= size b /\ c < size b)) /\
  cycle WORDS rnd b =
    match validPlacementsOf WORDS b word
            !! randomIndex (snd rnd) (length (validPlacementsOf WORDS b word)) with
    | Some (h, r, c) => actuallyPlaceWord word h r c b
    | None => (Ok tt, b)
    end /\
  (size b < String.length word ->
     candidates (size b) (String.length word) = [] /\
     cycle WORDS rnd b = (Ok tt, b)).
Proof.
  intros Hwf Hw. split; [|split].
  - intros h r c. rewrite candidates_spec. unfold feasible.
    destruct h; split.
    + intros [Hr Hc]. by left.
    + intros [(_ & Hr & Hc)|(Hf & _)]; done.
    + intros [Hr Hc]. by right.
    + intros [(Hf & _)|(_ & Hr & Hc)]; done.
  - apply cycle_run; [by destruct Hwf|done].
  - intros Hlt. split; [by apply candidates_too_long|by eapply cycle_too_long].
Qed.

Lemma candidates_exactly_feasible_witness :
  candidates 4 5 = [] /\ cycle ["catch"] (0, 0) (emptyBoard 4) = (Ok tt, emptyBoard 4).
Proof.
  apply (candidates_exactly_feasible ["catch"] (emptyBoard 4) (0, 0) "catch").
  - apply (bool_decide_unpack _). vm_compute. exact I.
  - reflexivity.
  - simpl. lia.
Defined.

(** [C7], as stated, fails when the clock is set back during the call: with
    a budget of 0 and the readings 100, 50 and 200, the first test of the
    loop, [50 - 100 < 0], holds, so a generation pass runs and the count
    returned is 1. *)
Lemma createBoard_clock_set_back :
  (0 <= 0)%Q /\
  createBoard ["catch"] clockBackwards (fun _ _ => (0, 0)) 2 0 4 = Some (Ok (None, 1)) /\
  createBoard ["catch"] clockBackwards (fun _ _ => (0, 0)) 2 0 4 <> Some (Ok (None, 0)).
Proof.
  assert (Hrun : createBoard ["catch"] clockBackwards (fun _ _ => (0, 0)) 2 0 4 = Some (Ok (None, 1))).
  { unfold createBoard. cbn [searchLoop].
    replace (Qltb (inject_Z (clockBackwards 1 - clockBackwards 0)) (0 * 1000))
      with true by (vm_compute; reflexivity).
    rewrite newBoard_too_long; [|done|].
    - replace (Qltb 0 (density (emptyBoard 4))) with false by (vm_compute; reflexivity).
      replace (Qltb (inject_Z (clockBackwards (1 + 1) - clockBackwards 0)) (0 * 1000))
        with false by (vm_compute; reflexivity).
      done.
    - intros w ->%list_elem_of_singleton. simpl. lia. }
  split; [apply Qle_refl|]. split; [exact Hrun|]. rewrite Hrun. discriminate.
Qed.

(** [C7] With a zero or negative time budget, and a clock that does not run
    backwards between its first two readings, [createBoard] builds no board
    and returns normally with a null grid and a count of 0. *)
Theorem createBoard_no_budget (WORDS : list string) (now : nat -> Z)
    (rnd : nat -> nat -> nat * nat) (fuel : nat) (searchTimeSeconds : Q) (n : nat) :
  (searchTimeSeconds <= 0)%Q -> (now 0%nat <= now 1%nat)%Z ->
  createBoard WORDS now rnd (S fuel) searchTimeSeconds n = Some (Ok (None, 0)).
Proof.
  intros Hs Hclock. unfold createBoard. cbn [searchLoop].
  replace (Qltb _ _) with false; [done|].
  symmetry. apply Qltb_false_iff.
  apply Qle_trans with (0 * 1000)%Q.
  - by apply Qmult_le_compat_r.
  - unfold Qle. simpl. lia.
Qed.

Lemma createBoard_no_budget_witness :
  createBoard sampleWords clockSteady (fun _ _ => (0, 0)) 1 (-1) 10
  = Some (Ok (None, 0)).
Proof.
  apply (createBoard_no_budget sampleWords clockSteady (fun _ _ => (0, 0)) 0 (-1) 10).
  - vm_compute. discriminate.
  - vm_compute. discriminate.
Defined.

(** [C8] fails on the code: a pass that completes with an empty grid is
    counted but never kept. With the word list [["catch"]], a 4 by 4 board and
    a budget of 5 seconds within which one pass completes, [createBoard]
    returns a null grid together with the count 1. *)
Theorem createBoard_null_after_one_pass (rnd : nat -> nat -> nat * nat) :
  createBoard ["catch"] clockOnePass rnd 2 5 4 = Some (Ok (None, 1)).
Proof.
  unfold createBoard. cbn [searchLoop].
  replace (Qltb (inject_Z (clockOnePass 1 - clockOnePass 0)) (5 * 1000)) with true
    by (vm_compute; reflexivity).
  rewrite newBoard_too_long; [|done|].
  - replace (Qltb 0 (density (emptyBoard 4))) with false by (vm_compute; reflexivity).
    replace (Qltb (inject_Z (clockOnePass (1 + 1) - clockOnePass 0)) (5 * 1000))
      with false by (vm_compute; reflexivity).
    done.
  - intros w ->%list_elem_of_singleton. simpl. lia.
Qed.

(** [C9], as stated, fails: with an empty word list a run of the default
    number of cycles throws on the 4 by 4 board. *)
Lemma empty_word_source_throws :
  eval (makePuzzle [] DEFAULT_CYCLES (fun _ => (0, 0))) (emptyBoard 4)
  = Throw TypeError.
Proof.
  unfold eval. rewrite makePuzzle_no_words.
  replace (DEFAULT_CYCLES =? 0) with false; [done|].
  symmetry. vm_compute. reflexivity.
Qed.

(** [C9] With an empty word list, a generation run of no cycle returns with
    the all-empty grid and counter 0; a run of one cycle or more throws a
    [TypeError] in its first cycle, before any placement is tried, the grid
    still all empty and the counter 0. *)
Theorem empty_word_source (n cycles : nat) (rnd : nat -> nat * nat) :
  makePuzzle [] cycles rnd (emptyBoard n)
  = (if cycles =? 0 then Ok tt else Throw TypeError, emptyBoard n).
Proof. apply makePuzzle_no_words. Qed.



(** * Part IV: lemmas on the rest of the code *)

(** ** The validator accepts exactly the placements that keep the grid valid *)

Lemma forEach_unit_Continue_intro {I R} (idxs : list I)
    (body : unit -> I -> M (flow unit R)) b :
  (forall s i, readonly (body s i)) ->
  (forall i, i ∈ idxs -> eval (body tt i) b = Ok (Continue tt)) ->
  eval (forEach idxs tt body) b = Ok (Continue tt).
Proof.
  intros Hro. induction idxs as [|i idxs IH]; intros Hall; [done|].
  rewrite eval_forEach_cons by apply Hro.
  rewrite Hall by set_solver. apply IH. intros j Hj. apply Hall. set_solver.
Qed.

Section CrossCheckComplete.

Variable WORDS : list string.

Lemma badRun_valid acc :
  (2 <= String.length acc -> acc ∈ WORDS) -> badRun WORDS acc = false.
Proof.
  intros H. unfold badRun. destruct (2 <=? String.length acc) eqn:E; [|done].
  apply Nat.leb_le in E. simpl. apply negb_false_iff, has_spec. auto.
Qed.

Lemma scanChars_complete cells : forall cur,
  Forall (fun v => isChar v = true) cells ->
  Forall (fun v => isChar v = true /\ v <> EMPTY) cur ->
  (forall pre run post,
     cur ++ cells = pre ++ run ++ post ->
     Forall (fun v => v <> EMPTY) run ->
     (pre = [] \/ last pre = Some EMPTY) ->
     (post = [] \/ head post = Some EMPTY) ->
     2 <= length run -> spell run ∈ WORDS) ->
  exists acc,
    scanChars WORDS cells (spell cur) = Continue acc /\ badRun WORDS acc = false.
Proof.
  assert (Hletters : forall cur,
    Forall (fun v => isChar v = true /\ v <> EMPTY) cur ->
    Forall (fun v => v <> EMPTY) cur).
  { intros cur H. eapply Forall_impl; [exact H|]. by intros v [? ?]. }
  induction cells as [|ch rest IH]; intros cur Hcells Hcur Hvalid.
  - exists (spell cur). split; [done|]. apply badRun_valid. intros Hlen.
    rewrite spell_length in Hlen by (by apply letters_isChar).
    apply (Hvalid [] cur []); [by rewrite app_nil_r|auto..].
  - apply Forall_cons in Hcells as [Hch Hrest]. simpl.
    destruct (decide (ch = EMPTY)) as [->|Hne].
    + rewrite bool_decide_eq_true_2 by done.
      assert (Hb : badRun WORDS (spell cur) = false).
      { apply badRun_valid. intros Hlen.
        rewrite spell_length in Hlen by (by apply letters_isChar).
        apply (Hvalid [] cur (EMPTY :: rest)); [done|auto..]. }
      rewrite Hb. apply (IH [] Hrest (Forall_nil_2 _)).
      intros pre run post Heq Hrun Hpre Hpost Hlen.
      apply (Hvalid (cur ++ EMPTY :: pre) run post); [|done| |done|done].
      * simpl in Heq. rewrite Heq. by rewrite <- app_assoc.
      * right. destruct Hpre as [->|Hl].
        -- by rewrite last_snoc.
        -- rewrite last_app. rewrite last_cons, Hl. done.
    + rewrite bool_decide_eq_false_2 by done.
      destruct (IH (cur ++ [ch]) Hrest) as (acc & Hscan & Hb).
      * apply Forall_app. split; [done|]. by apply Forall_singleton.
      * intros pre run post Heq. apply Hvalid. by rewrite <- app_assoc in Heq.
      * exists acc. split; [|done].
        by rewrite spell_app, spell_cons, append_nil_r in Hscan.
Qed.

Lemma lineValid_scanChars cells :
  Forall (fun v => isChar v = true) cells -> lineValid WORDS cells ->
  exists acc,
    scanChars WORDS cells EmptyString = Continue acc /\ badRun WORDS acc = false.
Proof.
  intros Hcells Hvalid.
  apply (scanChars_complete cells [] Hcells (Forall_nil_2 _)).
  intros pre run post Heq Hrun Hpre Hpost Hlen. apply Hvalid; [|done].
  exists pre, post. done.
Qed.

Lemma checkAllLines_complete b h r c w :
  wf b ->
  (forall (flip : bool) sr, sr < size b ->
     lineValid WORDS
       ((fun sc => masked b h r c w (if flip then sc else sr)
                     (if flip then sr else sc)) <$> seq 0 (size b))) ->
  eval (checkAllLines WORDS h r c w) b = Ok (Continue tt).
Proof.
  intros Hwf Hlines. unfold checkAllLines.
  apply forEach_unit_Continue_intro;
    [readonly_tac; auto using readonly_scanLine with readonly|].
  intros flip _. rewrite eval_bind by apply readonly_getSize. simpl.
  apply forEach_unit_Continue_intro;
    [readonly_tac; auto using readonly_scanLine with readonly|].
  intros sr [_ Hsr]%elem_of_seq.
  rewrite eval_bind by apply readonly_scanLine.
  rewrite scanLine_eval by (by destruct Hwf || lia).
  set (cells := _ <$> seq 0 (size b)).
  assert (Hchars : Forall (fun v => isChar v = true) cells).
  { apply Forall_fmap, Forall_forall. intros sc [_ Hsc]%elem_of_seq. simpl.
    apply masked_isChar; [done|destruct flip; lia..]. }
  destruct (lineValid_scanChars cells Hchars) as (acc & -> & Hb).
  { apply Hlines. lia. }
  by rewrite Hb.
Qed.

Lemma committed_lines b h r c w (flip : bool) sr :
  wf b -> feasible (size b) h r c (String.length w) -> sr < size b ->
  (fun sc => masked b h r c w (if flip then sc else sr) (if flip then sr else sc))
    <$> seq 0 (size b)
  = if flip then colLine (exec (actuallyPlaceWord w h r c) b) sr
    else rowLine (exec (actuallyPlaceWord w h r c) b) sr.
Proof.
  intros Hwf Hf Hsr.
  destruct (actuallyPlaceWord_wf w h r c b Hwf Hf) as [_ Hwf'].
  destruct (actuallyPlaceWord_shape w h r c b) as (Hsz & _ & _).
  assert (Hlen : length (tiles b) = size b) by (by destruct Hwf).
  destruct flip.
  - rewrite colLine_seq by done. rewrite Hsz.
    apply list_fmap_ext. intros k j [-> Hj]%lookup_seq. simpl.
    symmetry. apply masked_commit. lia.
  - rewrite rowLine_seq by (rewrite ?Hsz; done). rewrite Hsz.
    apply list_fmap_ext. intros k j [-> Hj]%lookup_seq. simpl.
    symmetry. apply masked_commit. lia.
Qed.

Lemma isValidPlacement_accepts b h r c w :
  wf b -> feasible (size b) h r c (String.length w) ->
  (eval (isValidPlacement WORDS h r c w) b = Ok true <->
   ~ hardConflict b h r c w /\
   standaloneCount b h r c w <> 0 /\
   (totalPlacements b = 0 \/ overlapCount b h r c w <> 0) /\
   gridValid WORDS (exec (actuallyPlaceWord w h r c) b)).
Proof.
  intros Hwf Hf.
  assert (Hrows : rowsOnBoard b h r (String.length w)).
  { apply (feasible_rowsOnBoard b h r c); [by destruct Hwf|done]. }
  destruct (actuallyPlaceWord_shape w h r c b) as (Hsz & _ & _).
  split.
  - intros Hv.
    destruct (isValidPlacement_true_inv WORDS b h r c w Hrows Hv) as (Hclean & Hs & _).
    assert (Hnc : ~ hardConflict b h r c w).
    { intros Hc. by eapply hardConflict_not_clean. }
    split; [done|]. split; [done|]. split; [|by apply commit_gridValid].
    rewrite isValidPlacement_clean in Hv by done.
    destruct (totalPlacements b) as [|tp]; [by left|right].
    intros Ho. rewrite Ho in Hv. done.
  - intros (Hnc & Hs & Ho & Hgrid).
    rewrite isValidPlacement_clean by done.
    replace ((0 <? totalPlacements b) && (overlapCount b h r c w =? 0)
             || (standaloneCount b h r c w =? 0)) with false.
    2:{ symmetry. apply orb_false_iff. split; [|by apply Nat.eqb_neq].
        destruct Ho as [->|Ho]; [done|]. apply andb_false_iff. right.
        by apply Nat.eqb_neq. }
    rewrite checkAllLines_complete; [done|done|].
    intros flip sr Hsr. rewrite committed_lines by done.
    destruct (Hgrid sr) as [Hrow Hcol]; [lia|]. by destruct flip.
Qed.

End CrossCheckComplete.

(** ** Counting the occupied tiles *)

Lemma charAt_dotFree w i : dotFree w -> charAt w i <> EMPTY.
Proof.
  unfold dotFree, charAt. revert i.
  induction w as [|a w IH]; intros i Hd; simpl in *; [done|].
  apply Forall_cons in Hd as [Ha Hd]. destruct i as [|i]; simpl.
  - intros [= H]. apply Ha. by rewrite H.
  - by apply IH.
Qed.

Lemma filter_ext_in {A} (P1 P2 : A -> Prop) `{!forall x, Decision (P1 x)}
    `{!forall x, Decision (P2 x)} (l : list A) :
  (forall x, x ∈ l -> P1 x <-> P2 x) -> filter P1 l = filter P2 l.
Proof.
  induction l as [|a l IH]; intros Hiff; [done|].
  rewrite !filter_cons.
  rewrite IH by (intros x Hx; apply Hiff; by apply list_elem_of_further).
  destruct (decide (P1 a)) as [H1|H1].
  - rewrite decide_True; [done|]. apply Hiff; [apply list_elem_of_here|done].
  - rewrite decide_False; [done|]. intros H2.
    apply H1, Hiff; [apply list_elem_of_here|done].
Qed.

Lemma letters_app l1 l2 : letters (l1 ++ l2) = letters l1 + letters l2.
Proof. unfold letters. by rewrite filter_app, length_app. Qed.

Lemma letters_cons v l :
  letters (v :: l) = (if decide (v <> EMPTY) then 1 else 0) + letters l.
Proof. unfold letters. rewrite filter_cons. by case_decide. Qed.

Lemma letters_insert (l : list jsval) i x y :
  l !! i = Some x ->
  letters (<[i := y]> l) + (if decide (x <> EMPTY) then 1 else 0)
  = letters l + (if decide (y <> EMPTY) then 1 else 0).
Proof.
  intros Hi. pose proof (lookup_lt_Some _ _ _ Hi) as Hlt.
  rewrite insert_take_drop by done.
  rewrite <- (take_drop_middle l i x Hi) at 3.
  rewrite !letters_app, !letters_cons. lia.
Qed.

Lemma letters_concat_insert (ll : list (list jsval)) r row row' :
  ll !! r = Some row ->
  letters (concat (<[r := row']> ll)) + letters row
  = letters (concat ll) + letters row'.
Proof.
  intros Hr. pose proof (lookup_lt_Some _ _ _ Hr) as Hlt.
  rewrite insert_take_drop by done.
  rewrite <- (take_drop_middle ll r row Hr) at 3.
  rewrite !concat_app. simpl. rewrite !letters_app. lia.
Qed.

Lemma occupied_setTile b r c v :
  wf b -> r < size b -> c < size b -> v <> EMPTY ->
  occupied (exec (setTile r c v) b)
  = occupied b + (if decide (tileOr b r c = EMPTY) then 1 else 0).
Proof.
  intros Hwf Hr Hc Hv.
  destruct (lookup_lt_is_Some_2 (tiles b) r) as [row Hrow]; [destruct Hwf; lia|].
  destruct (wf_row _ _ _ Hwf Hrow) as [Hlen _].
  destruct (lookup_lt_is_Some_2 row c) as [x Hx]; [lia|].
  unfold exec. rewrite (setTile_ok r c v b row Hrow). unfold occupied. simpl.
  fold (letters (concat (<[r:=arraySet row c v]> (tiles b)))).
  fold (letters (concat (tiles b))).
  pose proof (letters_concat_insert (tiles b) r row (arraySet row c v) Hrow) as H1.
  assert (arraySet row c v = <[c := v]> row) as Hset.
  { unfold arraySet. replace (c <? length row) with true; [done|].
    symmetry. apply Nat.ltb_lt. lia. }
  rewrite Hset in *.
  pose proof (letters_insert row c x v Hx) as H2.
  assert (tileOr b r c = x) as ->.
  { unfold tileOr, peek. by rewrite Hrow, Hx. }
  rewrite (decide_True _ _ Hv) in H2.
  repeat case_decide; try done; lia.
Qed.

Lemma standaloneIn_cons b h r c i idxs :
  standaloneIn b h r c (i :: idxs)
  = (if decide (under b h r c i = Ok EMPTY) then 1 else 0) + standaloneIn b h r c idxs.
Proof. unfold standaloneIn. rewrite filter_cons. by case_decide. Qed.

Lemma under_tileOr b h r c i :
  r + fst (getDeltas h) * i < length (tiles b) ->
  under b h r c i = Ok (tileOr b (r + fst (getDeltas h) * i) (c + snd (getDeltas h) * i)).
Proof. intros H. unfold under. by apply peek_tileOr. Qed.

Lemma placeLetters_occupied w h r c m : forall k b,
  wf b -> dotFree w ->
  (forall i, k <= i < k + m ->
     r + fst (getDeltas h) * i < size b /\ c + snd (getDeltas h) * i < size b /\
     i < String.length w) ->
  occupied (exec (placeLetters w h r c k m) b)
  = occupied b + standaloneIn b h r c (seq k m).
Proof.
  induction m as [|m IH]; intros k b Hwf Hd Hin.
  - unfold standaloneIn. simpl. unfold exec. simpl. lia.
  - destruct (Hin k) as (Hr & Hc & Hk); [lia|].
    unfold exec. rewrite placeLetters_cons.
    destruct (setTile_wf _ _ (charAt w k) b Hwf Hr Hc) as (b' & Hset & Hwf' & Hsz & _).
    { by apply isChar_charAt. }
    rewrite Hset.
    assert (Hb' : b' = exec (setTile (r + fst (getDeltas h) * k)
                               (c + snd (getDeltas h) * k) (charAt w k)) b).
    { unfold exec. by rewrite Hset. }
    specialize (IH (S k) b' Hwf' Hd). unfold exec in IH. rewrite IH.
    2:{ intros i Hi. rewrite Hsz. apply Hin. lia. }
    rewrite Hb' at 1. rewrite occupied_setTile by (try done; by apply charAt_dotFree).
    simpl seq. rewrite standaloneIn_cons.
    assert (Hlenb : length (tiles b) = size b) by (by destruct Hwf).
    rewrite under_tileOr by lia.
    assert (standaloneIn b' h r c (seq (S k) m) = standaloneIn b h r c (seq (S k) m)) as ->.
    { unfold standaloneIn. f_equal. apply filter_ext_in.
      intros i [Hi1 Hi2]%elem_of_seq. unfold under.
      destruct (lookup_lt_is_Some_2 (tiles b) (r + fst (getDeltas h) * k)) as [row Hrow];
        [lia|].
      rewrite Hb', (peek_setTile _ _ _ b row) by done.
      rewrite decide_False; [done|]. destruct h; simpl; lia. }
    destruct (decide (tileOr b (r + fst (getDeltas h) * k)
                        (c + snd (getDeltas h) * k) = EMPTY)) as [E|E].
    + rewrite decide_True by (by rewrite E). lia.
    + rewrite decide_False by (by intros [= ?]). lia.
Qed.

Lemma actuallyPlaceWord_occupied w h r c b :
  wf b -> feasible (size b) h r c (String.length w) -> dotFree w ->
  occupied (exec (actuallyPlaceWord w h r c) b)
  = occupied b + standaloneCount b h r c w.
Proof.
  intros Hwf Hf Hd. rewrite exec_actuallyPlaceWord.
  rewrite (placeLetters_occupied w h r c (String.length w) 0
             (mkBoard (size b) (tiles b) (totalPlacements b + 1))); [done|done|done|].
  intros i Hi. unfold feasible in Hf. destruct h; simpl in *; lia.
Qed.

Lemma length_concat_uniform {A} (ll : list (list A)) n :
  Forall (fun row => length row = n) ll -> length (concat ll) = length ll * n.
Proof.
  induction 1 as [|row ll Hrow _ IH]; [done|].
  simpl. rewrite length_app, IH, Hrow. lia.
Qed.

Lemma occupied_le b : wf b -> occupied b <= size b * size b.
Proof.
  intros [Hlen Hrows]. unfold occupied.
  etrans; [apply length_filter|].
  rewrite (length_concat_uniform (tiles b) (size b)).
  - by rewrite Hlen.
  - eapply Forall_impl; [exact Hrows|]. by intros row [? _].
Qed.

Lemma letters_all_empty l : Forall (fun v => v = EMPTY) l -> letters l = 0.
Proof.
  induction 1 as [|v l -> _ IH]; [done|].
  rewrite letters_cons, IH. by rewrite decide_False by (intros H; by apply H).
Qed.

Lemma occupied_emptyBoard n : occupied (emptyBoard n) = 0.
Proof.
  unfold occupied. simpl. apply letters_all_empty.
  apply Forall_concat, Forall_replicate. by apply Forall_replicate.
Qed.

Lemma density_range b :
  wf b -> 0 < size b -> (0 <= density b)%Q /\ (density b <= 1)%Q.
Proof.
  intros Hwf Hn. pose proof (occupied_le b Hwf) as Hle. unfold density.
  assert (Hden : (0 < inject_Z (Z.of_nat (size b * size b)))%Q).
  { change 0%Q with (inject_Z 0). rewrite <- Zlt_Qlt. nia. }
  split.
  - apply Qle_shift_div_l; [done|]. rewrite Qmult_0_l.
    change 0%Q with (inject_Z 0). rewrite <- Zle_Qle. lia.
  - apply Qle_shift_div_r; [done|]. rewrite Qmult_1_l.
    rewrite <- Zle_Qle. lia.
Qed.

Section Counter.

Variable WORDS : list string.

Lemma cycle_counter b rnd b' :
  wf b -> cycle WORDS rnd b = (Ok tt, b') ->
  b' = b \/
  (totalPlacements b' = totalPlacements b + 1 /\
   exists word h r c,
     word ∈ WORDS /\ feasible (size b) h r c (String.length word) /\
     eval (isValidPlacement WORDS h r c word) b = Ok true /\
     b' = exec (actuallyPlaceWord word h r c) b).
Proof.
  intros Hwf [->|(word & h & r & c & Hin & Hf & Hv & Hp)]%cycle_inv; [by left| |done].
  right. assert (Hb' : b' = exec (actuallyPlaceWord word h r c) b).
  { unfold exec. by rewrite Hp. }
  split; [|by exists word, h, r, c].
  rewrite Hb'. apply actuallyPlaceWord_shape.
Qed.

(** Every commit fills at least one tile, so the counter never passes the
    number of occupied tiles. *)
Lemma reachable_counter n b :
  Forall dotFree WORDS -> reachable WORDS n b ->
  totalPlacements b <= occupied b.
Proof.
  intros Hd. induction 1 as [|b rnd b' Hreach IH Hc]; [simpl; lia|].
  destruct (reachable_wf WORDS n b Hreach) as [Hwf Hsz].
  destruct (cycle_counter b rnd b' Hwf Hc)
    as [->|(Htp & word & h & r & c & Hin & Hf & Hv & ->)]; [done|].
  rewrite Htp, actuallyPlaceWord_occupied; [|done|done|].
  - destruct (isValidPlacement_true_inv WORDS b h r c word) as (_ & Hs & _); [|done|lia].
    apply (feasible_rowsOnBoard b h r c); [by destruct Hwf|done].
  - rewrite Forall_forall in Hd. by apply Hd.
Qed.

Lemma trial_loop_counter rnd (idxs : list nat) : forall b f b',
  wf b ->
  forEach (R := unit) idxs tt
    (fun _ i => cycle WORDS (rnd i) ;;; ret (Continue tt)) b = (Ok f, b') ->
  totalPlacements b' <= totalPlacements b + length idxs.
Proof.
  induction idxs as [|i idxs IH]; intros b f b' Hwf Hrun.
  - simpl in Hrun. unfold ret in Hrun. simplify_eq. simpl. lia.
  - simpl in Hrun. unfold bind at 1 2 in Hrun.
    destruct (cycle WORDS (rnd i) b) as [[[]|e] b1] eqn:Hc; [|done].
    simpl in Hrun. destruct (cycle_wf WORDS b (rnd i) b1 Hwf Hc) as [Hwf1 _].
    specialize (IH b1 f b' Hwf1 Hrun).
    destruct (cycle_counter b (rnd i) b1 Hwf Hc) as [->|[Htp _]]; simpl; lia.
Qed.

Lemma makePuzzle_counter n cycles rnd b' :
  makePuzzle WORDS cycles rnd (emptyBoard n) = (Ok tt, b') ->
  totalPlacements b' <= cycles.
Proof.
  unfold makePuzzle. unfold bind at 1. simpl. unfold bind at 1.
  fold (emptyBoard n).
  destruct (forEach _ _ _ _) as [[f|e] b1] eqn:Hl; [|done].
  intros Hr. unfold ret in Hr. simplify_eq.
  pose proof (trial_loop_counter rnd (seq 0 cycles) (emptyBoard n) f b'
                (wf_emptyBoard n) Hl) as H.
  rewrite length_seq in H. simpl in H. lia.
Qed.

(** The invariant of the reachable boards, as one statement. *)
Lemma reachable_invariant n b :
  reachable WORDS n b -> wf b /\ size b = n /\ gridValid WORDS b.
Proof.
  intros Hreach. destruct (reachable_wf WORDS n b Hreach) as [Hwf Hsz].
  split; [done|]. split; [done|].
  induction Hreach as [|b rnd b' Hreach IH Hc]; [apply gridValid_emptyBoard|].
  destruct (reachable_wf WORDS n b Hreach) as [Hwfb Hszb].
  destruct (cycle_inv WORDS b rnd b' Hwfb Hc)
    as [->|(word & h & r & c & _ & Hf & Hv & Hp)]; [by apply IH|].
  replace b' with (exec (actuallyPlaceWord word h r c) b)
    by (unfold exec; by rewrite Hp).
  by apply commit_gridValid.
Qed.

End Counter.

(** ** Rendering *)

Lemma length_repeatDash n : String.length (repeatDash n) = n.
Proof.
  induction n as [|n IH]; [done|]. simpl. by rewrite length_append, IH.
Qed.

Lemma length_joinTiles row :
  Forall (fun v => isChar v = true) row -> String.length (joinTiles row) = length row.
Proof.
  induction 1 as [|v row Hv _ IH]; [done|].
  apply isChar_inv in Hv as [a ->]. simpl. by rewrite length_append, IH.
Qed.

Lemma length_joinLines (lines : list string) w :
  Forall (fun l => String.length l = w) lines ->
  String.length (joinLines lines) = length lines * (w + 1) - 1.
Proof.
  induction 1 as [|l lines Hl Hall IH]; [done|].
  destruct lines as [|l' lines].
  - simpl. lia.
  - change (joinLines (l :: l' :: lines)) with (l +:+ NL +:+ joinLines (l' :: lines)).
    rewrite !length_append, IH, Hl. simpl. lia.
Qed.

Lemma length_boardToString b :
  wf b ->
  String.length (boardToString b)
  = if size b =? 0 then 7 else (size b + 2) * (size b + 3).
Proof.
  intros Hwf. unfold boardToString.
  rewrite !length_append, !length_repeatDash.
  rewrite (length_joinLines _ (size b + 2)).
  - rewrite length_map. destruct Hwf as [-> _]. simpl.
    destruct (size b) as [|n]; simpl; lia.
  - apply Forall_forall. intros l Hl. apply list_elem_of_In, in_map_iff in Hl
      as (row & <- & Hrow). apply list_elem_of_In in Hrow.
    destruct Hwf as [_ Hrows]. rewrite Forall_forall in Hrows.
    destruct (Hrows row Hrow) as [Hlen Hchars].
    rewrite !length_append, length_joinTiles by done. simpl. lia.
Qed.

Lemma append_inj_length (s1 s2 t1 t2 : string) :
  String.length s1 = String.length s2 -> s1 +:+ t1 = s2 +:+ t2 ->
  s1 = s2 /\ t1 = t2.
Proof.
  revert s2. induction s1 as [|a s1 IH]; intros [|a2 s2] Hlen Heq; try done.
  rewrite !append_cons in Heq. injection Heq as -> Heq.
  destruct (IH s2) as [-> ->]; [by injection Hlen|done|done].
Qed.

Lemma joinTiles_inj row1 row2 :
  Forall (fun v => isChar v = true) row1 -> Forall (fun v => isChar v = true) row2 ->
  joinTiles row1 = joinTiles row2 -> row1 = row2.
Proof.
  intros H1. revert row2. induction H1 as [|v row1 Hv _ IH]; intros row2 H2 Heq.
  - destruct H2 as [|v2 row2 Hv2 _]; [done|].
    apply isChar_inv in Hv2 as [a ->]. done.
  - apply isChar_inv in Hv as [a ->].
    destruct H2 as [|v2 row2 Hv2 H2]; [done|].
    apply isChar_inv in Hv2 as [a2 ->].
    simpl in Heq. rewrite !append_cons, !append_nil_l in Heq.
    injection Heq as -> Heq. f_equal. by apply IH.
Qed.

Lemma joinLines_inj (l1 l2 : list string) w :
  Forall (fun l => String.length l = w) l1 ->
  Forall (fun l => String.length l = w) l2 ->
  length l1 = length l2 -> joinLines l1 = joinLines l2 -> l1 = l2.
Proof.
  intros H1. revert l2. induction H1 as [|x l1 Hx H1 IH]; intros l2 H2 Hlen Heq.
  - by destruct l2.
  - destruct H2 as [|y l2 Hy H2]; [done|].
    destruct l1 as [|x' l1], l2 as [|y' l2]; try done.
    + change (x = y) in Heq. rewrite Heq. reflexivity.
    + change (x +:+ NL +:+ joinLines (x' :: l1) = y +:+ NL +:+ joinLines (y' :: l2)) in Heq.
      apply append_inj_length in Heq as [-> Heq]; [|congruence].
      apply append_inj_length in Heq as [_ Heq]; [|done].
      f_equal. apply IH; [done|simpl in *; lia|done].
Qed.

Lemma boardToString_size b1 b2 :
  wf b1 -> wf b2 -> boardToString b1 = boardToString b2 -> size b1 = size b2.
Proof.
  intros H1 H2 Heq.
  pose proof (length_boardToString b1 H1) as L1.
  pose proof (length_boardToString b2 H2) as L2.
  rewrite Heq in L1. rewrite L1 in L2. clear L1 Heq.
  assert (Hmono : forall a c, a < c -> (a + 2) * (a + 3) < (c + 2) * (c + 3))
    by (intros; nia).
  destruct (size b1) as [|n1], (size b2) as [|n2]; simpl (_ =? _) in L2; cbv iota in L2.
  - done.
  - pose proof (Hmono 0 (S n2) ltac:(lia)). lia.
  - pose proof (Hmono 0 (S n1) ltac:(lia)). lia.
  - destruct (lt_eq_lt_dec (S n1) (S n2)) as [[Hlt| ->]|Hlt]; [|done|].
    + pose proof (Hmono _ _ Hlt). lia.
    + pose proof (Hmono _ _ Hlt). lia.
Qed.

Lemma renderedRows_length b :
  wf b ->
  Forall (fun l => String.length l = size b + 2)
         (map (fun row => "|" +:+ joinTiles row +:+ "|") (tiles b)).
Proof.
  intros [_ Hrows]. apply Forall_forall. intros l Hl.
  apply list_elem_of_In, in_map_iff in Hl as (row & <- & Hrow).
  apply list_elem_of_In in Hrow. rewrite Forall_forall in Hrows.
  destruct (Hrows row Hrow) as [Hlen Hchars].
  rewrite !length_append, length_joinTiles by done. simpl. lia.
Qed.

Lemma boardToString_inj b1 b2 :
  wf b1 -> wf b2 -> boardToString b1 = boardToString b2 ->
  size b1 = size b2 /\ tiles b1 = tiles b2.
Proof.
  intros H1 H2 Heq. pose proof (boardToString_size b1 b2 H1 H2 Heq) as Hsz.
  split; [done|]. unfold boardToString in Heq. rewrite Hsz in Heq.
  apply append_inj_length in Heq as [_ Heq]; [|done].
  apply append_inj_length in Heq as [_ Heq]; [|done].
  apply append_inj_length in Heq as [_ Heq]; [|done].
  apply append_inj_length in Heq as [_ Heq]; [|done].
  pose proof (renderedRows_length b1 H1) as R1.
  pose proof (renderedRows_length b2 H2) as R2. rewrite Hsz in R1.
  assert (Hn : length (tiles b1) = length (tiles b2)).
  { destruct H1 as [-> _], H2 as [-> _]. done. }
  apply append_inj_length in Heq as [Heq _].
  2:{ rewrite (length_joinLines _ _ R1), (length_joinLines _ _ R2).
      by rewrite !length_map, Hn. }
  apply joinLines_inj with (w := size b2 + 2) in Heq;
    [|done|done|by rewrite !length_map].
  clear R1 R2. destruct H1 as [_ W1], H2 as [_ W2].
  revert Hn Heq W1 W2. generalize (tiles b2). generalize (tiles b1).
  induction l as [|row1 l IH]; intros [|row2 l2] Hn Heq W1 W2; try done.
  simpl in Heq. injection Heq as Hrow Hrest.
  apply Forall_cons in W1 as [[_ C1] W1]. apply Forall_cons in W2 as [[_ C2] W2].
  apply append_inj_length in Hrow as [_ Hrow]; [|done].
  apply append_inj_length in Hrow as [Hrow _].
  2:{ rewrite !length_joinTiles by done.
      apply (f_equal String.length) in Hrow.
      rewrite !length_append, !length_joinTiles in Hrow by done. simpl in Hrow. lia. }
  f_equal; [by apply joinTiles_inj|]. apply IH; [simpl in *; lia|done..].
Qed.

(** ** The game's state machine *)

Lemma isSolid_total g r c : gameOk g -> exists v, isSolid g r c = Ok v.
Proof.
  intros (Hwf & Hsz & _). unfold isSolid.
  destruct (_ || _) eqn:E; [by eexists|].
  apply orb_false_iff in E as [[[E1 E2]%orb_false_iff E3]%orb_false_iff E4].
  destruct (peek_row_ok (answer g) (Z.to_nat r) (Z.to_nat c)) as [v ->]; [|by eexists].
  destruct Hwf as [-> _]. lia.
Qed.

Lemma isSolid_false_range g r c :
  isSolid g r c = Ok false ->
  (0 <= r < Z.of_nat (gameSize g))%Z /\ (0 <= c < Z.of_nat (gameSize g))%Z.
Proof.
  unfold isSolid. destruct (_ || _) eqn:E; [done|]. intros _.
  apply orb_false_iff in E as [[[E1 E2]%orb_false_iff E3]%orb_false_iff E4]. lia.
Qed.

Lemma isSolid_same g g' r c :
  answer g' = answer g -> gameSize g' = gameSize g ->
  isSolid g' r c = isSolid g r c.
Proof. intros Ha Hs. unfold isSolid. by rewrite Ha, Hs. Qed.

Lemma isSolid_none g : isSolid g (-1) (-1) = Ok true.
Proof. done. Qed.

Ltac gm_unfold :=
  unfold gbind, gret, solid, gread, withSelection, withHorizontal, withHideHalf, when.

Lemma arraySet_length_ge (line : list jsval) c v : length line <= length (arraySet line c v).
Proof.
  unfold arraySet. destruct (c <? length line).
  - by rewrite length_insert.
  - rewrite length_app. lia.
Qed.

Lemma arraySet_lookup_other (line : list jsval) c v j :
  j < length line -> j <> c -> arraySet line c v !! j = line !! j.
Proof.
  intros Hj Hne. unfold arraySet. destruct (c <? length line).
  - by rewrite list_lookup_insert_ne.
  - by rewrite lookup_app_l.
Qed.

Lemma guessAt_Some g r c :
  gameOk g -> r < gameSize g -> c < gameSize g -> exists v, guessAt g r c = Some v.
Proof.
  intros (_ & _ & Hlen & Hrows & _) Hr Hc. unfold guessAt.
  destruct (lookup_lt_is_Some_2 (guesses g) r) as [line Hline]; [lia|].
  rewrite Hline. simpl. apply lookup_lt_is_Some_2.
  rewrite Forall_lookup in Hrows. specialize (Hrows r line Hline). simpl in Hrows. lia.
Qed.

(** What an assignment to a guess does to the grid of guesses. *)
Lemma setGuess_spec g row col v g' :
  gameOk g -> setGuess row col v g = (Ok tt, g') ->
  answer g' = answer g /\ gameSize g' = gameSize g /\
  hideHorizontal g' = hideHorizontal g /\ hideHalf g' = hideHalf g /\
  selectedRow g' = selectedRow g /\ selectedColumn g' = selectedColumn g /\
  selectedHorizontal g' = selectedHorizontal g /\
  gameOk g' /\
  (forall r c, r < gameSize g -> c < gameSize g ->
     guessAt g' r c =
       if decide (Z.of_nat r = row /\ Z.of_nat c = col) then Some v
       else guessAt g r c).
Proof.
  intros Hok. unfold setGuess.
  destruct (row <? 0)%Z eqn:Erow; [done|]. apply Z.ltb_ge in Erow.
  destruct (guesses g !! Z.to_nat row) as [line|] eqn:Hline; [|done].
  destruct (col <? 0)%Z eqn:Ecol.
  { intros [= <-]. repeat split; try done; try apply Hok.
    intros r c Hr Hc. rewrite decide_False; [done|]. apply Z.ltb_lt in Ecol. lia. }
  apply Z.ltb_ge in Ecol. intros [= <-]. simpl.
  destruct Hok as (Hwf & Hsz & Hlen & Hrows & Hhide).
  do 7 (split; [done|]). split; [split; [done|split; [done|split; [|split; [|done]]]]|].
  - cbn [guesses gameSize]. by rewrite length_insert.
  - cbn [guesses gameSize]. apply Forall_insert; [done|].
    rewrite Forall_lookup in Hrows. specialize (Hrows _ _ Hline). simpl in Hrows.
    pose proof (arraySet_length_ge line (Z.to_nat col) v). lia.
  - intros r c Hr Hc. unfold guessAt. cbn [guesses gameSize].
    rewrite Forall_lookup in Hrows. pose proof (Hrows _ _ Hline) as Hll. simpl in Hll.
    rewrite list_lookup_insert.
    destruct (decide (Z.to_nat row = r)) as [<-|Hne].
    + rewrite decide_True by (split; [done|by eapply lookup_lt_Some]).
      rewrite Hline. simpl.
      destruct (decide (c = Z.to_nat col)) as [->|Hnc].
      * rewrite decide_True by lia. unfold arraySet.
        replace (Z.to_nat col <? length line) with true
          by (symmetry; apply Nat.ltb_lt; lia).
        apply list_lookup_insert_eq. lia.
      * rewrite decide_False by lia. apply arraySet_lookup_other; lia.
    + rewrite decide_False by tauto. rewrite decide_False by lia. done.
Qed.

(** *** [draw()] does not throw on a coherent game *)

Lemma gfor_ok {A} (l : list A) (body : A -> GM unit) g :
  (forall x, x ∈ l -> body x g = (Ok tt, g)) -> gfor l body g = (Ok tt, g).
Proof.
  induction l as [|x l IH]; intros H; [done|].
  simpl. unfold gbind. rewrite (H x) by apply list_elem_of_here.
  apply IH. intros y Hy. apply H. by apply list_elem_of_further.
Qed.

Lemma guessLength_ok g r c :
  gameOk g -> guessesOk g -> r < gameSize g -> c < gameSize g ->
  exists n, guessLength r c g = (Ok n, g).
Proof.
  intros Hok Hg Hr Hc. destruct (guessAt_Some g r c Hok Hr Hc) as [v Hv].
  specialize (Hg r c v Hr Hc Hv).
  unfold guessLength, gread. unfold guessAt in Hv.
  destruct (guesses g !! r) as [line|]; [|done]. simpl in Hv. rewrite Hv.
  destruct Hg as [->|(a & -> & _)]; by eexists.
Qed.

Lemma drawTile_ok g r c :
  gameOk g -> guessesOk g -> r < gameSize g -> c < gameSize g ->
  drawTile r c g = (Ok tt, g).
Proof.
  intros Hok Hg Hr Hc. unfold drawTile, gbind, answerTile, gread.
  pose proof Hok as (Hwf & Hsz & _).
  destruct (peek_wf (answer g) r c Hwf) as (v & -> & _); [lia..|].
  by destruct (guessLength_ok g r c Hok Hg Hr Hc) as [n ->].
Qed.

Lemma hintCell_ok g (horizontal : bool) i j :
  gameOk g -> guessesOk g -> i < gameSize g -> j < gameSize g ->
  hintCell horizontal i j g = (Ok tt, g).
Proof.
  intros Hok Hg Hi Hj. unfold hintCell.
  set (r := if horizontal then i else j). set (c := if horizontal then j else i).
  assert (Hr : r < gameSize g) by (subst r; by destruct horizontal).
  assert (Hc : c < gameSize g) by (subst c; by destruct horizontal).
  unfold gbind at 1. unfold solid, gread.
  destruct (isSolid_total g (Z.of_nat r) (Z.of_nat c) Hok) as [s ->].
  destruct s; [done|].
  pose proof Hok as (Hwf & Hsz & _ & _ & Hhide).
  assert (Hrest : gbind (answerTile r c) (fun t =>
                    gbind (tileToLowerCase t) (fun _ =>
                      gbind (guessLength r c) (fun _ => gret tt))) g = (Ok tt, g)).
  { destruct (guessLength_ok g r c Hok Hg Hr Hc) as [n Hn].
    unfold gbind, answerTile, tileToLowerCase, gread.
    destruct (peek_wf (answer g) r c Hwf) as (v & -> & [a ->]%isChar_inv); [lia..|].
    by rewrite Hn. }
  unfold gbind at 1. destruct (hideHalf g); [|exact Hrest].
  unfold gbind at 1. unfold hideFlag, gread.
  destruct (lookup_lt_is_Some_2 (hideHorizontal g) r) as [line ->]; [lia|].
  unfold gret at 1. destruct (eqb _ _); [exact Hrest|done].
Qed.

Lemma draw_ok g : gameOk g -> guessesOk g -> draw g = (Ok tt, g).
Proof.
  intros Hok Hg. unfold draw. unfold gbind at 1.
  rewrite gfor_ok.
  - apply gfor_ok. intros h _. apply gfor_ok. intros i Hi%elem_of_seq.
    apply gfor_ok. intros j Hj%elem_of_seq. apply hintCell_ok; [done|done|lia|lia].
  - intros r Hr%elem_of_seq. apply gfor_ok. intros c Hc%elem_of_seq.
    apply drawTile_ok; [done|done|lia|lia].
Qed.

Lemma sameGrid_gameOk g g' : sameGrid g g' -> gameOk g -> gameOk g'.
Proof. intros (Ha & Hs & Hg & Hh). unfold gameOk. by rewrite Ha, Hs, Hg, Hh. Qed.

Lemma sameGrid_guessesOk g g' : sameGrid g g' -> guessesOk g -> guessesOk g'.
Proof.
  intros (Ha & Hs & Hg & Hh) H r c v. unfold guessAt. rewrite Hg, Hs.
  rewrite (isSolid_same g g') by done. apply H.
Qed.

Lemma sameGrid_gameInv WORDS g g' : sameGrid g g' -> gameInv WORDS g -> gameInv WORDS g'.
Proof.
  intros Hsame (Hok & Hg & Hsz & Hreach).
  split; [by eapply sameGrid_gameOk|]. split; [by eapply sameGrid_guessesOk|].
  destruct Hsame as (Ha & Hs & _). by rewrite Ha, Hs.
Qed.

(** *** Clicks *)

Lemma clickSelection_spec g r c :
  gameOk g ->
  exists g',
    clickSelection r c g = (Ok tt, g') /\ sameGrid g g' /\
    hideHalf g' = hideHalf g /\ selectionOk g' /\
    (selectedRow g', selectedColumn g') =
      (if (r <? 1)%Z || (c <? 1)%Z then ((-1)%Z, (-1)%Z)
       else if bool_decide (isSolid g (r - 1) (c - 1) = Ok false)
            then ((r - 1)%Z, (c - 1)%Z) else ((-1)%Z, (-1)%Z)).
Proof.
  intros Hok. unfold clickSelection.
  destruct ((r <? 1)%Z || (c <? 1)%Z) eqn:E.
  { eexists. split; [done|]. split; [done|]. split; [done|]. split; [by left|done]. }
  gm_unfold.
  destruct (isSolid_total g (r - 1) (c - 1) Hok) as [s Hs]. rewrite Hs.
  destruct s.
  { eexists. split; [done|]. split; [done|]. split; [done|]. split; [by left|done]. }
  rewrite bool_decide_eq_true_2 by done.
  destruct ((r - 1 =? selectedRow g)%Z && (c - 1 =? selectedColumn g)%Z) eqn:Esel.
  { apply andb_true_iff in Esel as [Er%Z.eqb_eq Ec%Z.eqb_eq].
    eexists. split; [done|]. split; [done|]. split; [done|].
    split; [right; simpl; rewrite <- Er, <- Ec; by rewrite <- Hs|].
    simpl. by rewrite Er, Ec. }
  set (g1 := mkGame _ _ _ _ (r - 1)%Z (c - 1)%Z _ _).
  assert (Hsame : forall x y, isSolid g1 x y = isSolid g x y) by done.
  rewrite !Hsame.
  destruct (isSolid_total g (r - 1) c Hok) as [s1 ->].
  destruct s1; cbn [negb].
  - rewrite Hsame. destruct (isSolid_total g r (c - 1) Hok) as [s2 ->].
    destruct s2; cbn [negb]; eexists; (split; [done|]); (split; [done|]);
      (split; [done|]); (split; [|done]); right; by rewrite <- Hs.
  - eexists. split; [done|]. split; [done|]. split; [done|]. split; [|done].
    right. by rewrite <- Hs.
Qed.


(** *** What the handlers preserve *)

Lemma greadonly_gread {A} (f : Game -> outcome A) : greadonly (gread f).
Proof. done. Qed.

Lemma greadonly_gret {A} (a : A) : greadonly (gret a).
Proof. done. Qed.

Lemma greadonly_gbind {A B} (m : GM A) (k : A -> GM B) :
  greadonly m -> (forall a, greadonly (k a)) -> greadonly (gbind m k).
Proof.
  intros Hm Hk g. unfold gbind. specialize (Hm g).
  destruct (m g) as [[a|e] g1]; simpl in Hm; subst g1; [apply Hk|done].
Qed.

Lemma greadonly_gfor {A} (l : list A) (body : A -> GM unit) :
  (forall x, greadonly (body x)) -> greadonly (gfor l body).
Proof.
  intros Hb. induction l as [|x l IH]; [done|].
  simpl. apply greadonly_gbind; [apply Hb|by intros _].
Qed.

Lemma greadonly_dep {A} (f : Game -> GM A) :
  (forall g0, greadonly (f g0)) -> greadonly (fun g => f g g).
Proof. intros H g. apply H. Qed.

Lemma greadonly_drawTile r c : greadonly (drawTile r c).
Proof.
  unfold drawTile. apply greadonly_gbind; [done|]. intros _.
  apply greadonly_gbind; [done|done].
Qed.

Lemma greadonly_hintCell (horizontal : bool) i j : greadonly (hintCell horizontal i j).
Proof.
  unfold hintCell. apply greadonly_gbind; [done|]. intros [|]; [done|].
  apply greadonly_gbind.
  - intros g. cbv beta. destruct (hideHalf g); [|done].
    by apply greadonly_gbind.
  - intros [|]; [|done]. apply greadonly_gbind; [done|]. intros t.
    apply greadonly_gbind; [done|]. intros _. apply greadonly_gbind; [done|done].
Qed.

(** [draw()] assigns no field. *)
Lemma greadonly_draw : greadonly draw.
Proof.
  unfold draw. apply (greadonly_dep (fun g0 => gbind _ _)). intros g0.
  apply greadonly_gbind.
  - apply greadonly_gfor. intros r. apply greadonly_gfor. intros c.
    apply greadonly_drawTile.
  - intros _. apply greadonly_gfor. intros h. apply greadonly_gfor. intros i.
    apply greadonly_gfor. intros j. apply greadonly_hintCell.
Qed.

Lemma preserves_greadonly {A} P (m : GM A) : greadonly m -> preserves P m.
Proof. intros Hm g o g' HP Hrun. specialize (Hm g). rewrite Hrun in Hm. by subst. Qed.

Lemma preserves_gbind {A B} P (m : GM A) (k : A -> GM B) :
  preserves P m -> (forall a, preserves P (k a)) -> preserves P (gbind m k).
Proof.
  intros Hm Hk g o g' HP. unfold gbind.
  destruct (m g) as [[a|e] g1] eqn:Hrun.
  - apply Hk. by eapply Hm.
  - intros [= <- <-]. by eapply Hm.
Qed.

Lemma preserves_dep {A} P (f : Game -> GM A) :
  (forall g0, P g0 -> preserves P (f g0)) -> preserves P (fun g => f g g).
Proof. intros H g o g' HP. by apply H. Qed.

Lemma preserves_when P (c : bool) m : preserves P m -> preserves P (when c m).
Proof. intros Hm. destruct c; [done|]. by apply preserves_greadonly. Qed.

Lemma preserves_sameGrid {A} WORDS (m : GM A) :
  (forall g o g', m g = (o, g') -> sameGrid g g') -> preserves (gameInv WORDS) m.
Proof. intros H g o g' HP Hrun. eapply sameGrid_gameInv; [by eapply H|done]. Qed.

Lemma preserves_withSelection WORDS r c : preserves (gameInv WORDS) (withSelection r c).
Proof. apply preserves_sameGrid. by intros g o g' [= <- <-]. Qed.

Lemma preserves_withHorizontal WORDS h : preserves (gameInv WORDS) (withHorizontal h).
Proof. apply preserves_sameGrid. by intros g o g' [= <- <-]. Qed.

Lemma preserves_withHideHalf WORDS h : preserves (gameInv WORDS) (withHideHalf h).
Proof. apply preserves_sameGrid. by intros g o g' [= <- <-]. Qed.

Lemma preserves_clickSelection WORDS r c : preserves (gameInv WORDS) (clickSelection r c).
Proof.
  intros g o g' HP Hrun. destruct HP as (Hok & HP).
  destruct (clickSelection_spec g r c Hok) as (g1 & Hc & Hsame & _).
  rewrite Hc in Hrun. simplify_eq. by eapply sameGrid_gameInv.
Qed.

Lemma preserves_tileClick WORDS r c : preserves (gameInv WORDS) (tileClick r c).
Proof.
  apply preserves_gbind; [apply preserves_clickSelection|].
  intros _. apply preserves_greadonly, greadonly_draw.
Qed.

(** A method that assigns the selection fields only. *)
Lemma sameGrid_refl g : sameGrid g g.
Proof. done. Qed.

Lemma sameGrid_trans g1 g2 g3 : sameGrid g1 g2 -> sameGrid g2 g3 -> sameGrid g1 g3.
Proof.
  intros (Ha & Hs & Hg & Hh) (Ha' & Hs' & Hg' & Hh'). unfold sameGrid.
  by rewrite Ha', Hs', Hg', Hh'.
Qed.

Lemma setGuess_ok g row col v :
  length (guesses g) = gameSize g -> (0 <= row < Z.of_nat (gameSize g))%Z ->
  exists g', setGuess row col v g = (Ok tt, g').
Proof.
  intros Hlen Hrow. unfold setGuess.
  replace (row <? 0)%Z with false by (symmetry; apply Z.ltb_ge; lia).
  destruct (lookup_lt_is_Some_2 (guesses g) (Z.to_nat row)) as [line ->]; [lia|].
  destruct (col <? 0)%Z; by eexists.
Qed.

Lemma setGuess_throw g row col v e g' :
  setGuess row col v g = (Throw e, g') -> g' = g.
Proof.
  unfold setGuess. destruct (row <? 0)%Z; [by intros [= _ <-]|].
  destruct (guesses g !! Z.to_nat row); [|by intros [= _ <-]].
  by destruct (col <? 0)%Z.
Qed.

Lemma setGuess_guessesOk g row col v g' :
  gameOk g -> guessesOk g -> setGuess row col v g = (Ok tt, g') ->
  (v = JStr EmptyString \/
   exists a, v = JStr (String a EmptyString) /\ isUpper a = true /\
             isSolid g row col = Ok false) ->
  guessesOk g'.
Proof.
  intros Hok Hg Hset Hv.
  destruct (setGuess_spec g row col v g' Hok Hset)
    as (Ha & Hs & _ & _ & _ & _ & _ & Hok' & Hat).
  intros r c w Hr Hc. rewrite Hs in Hr, Hc. rewrite Hat by done.
  rewrite (isSolid_same g g') by done.
  case_decide as Hsel.
  - intros [= <-]. destruct Hsel as [<- <-].
    destruct Hv as [->|(a & -> & Hu & Hsol)]; [by left|right; eauto].
  - by apply Hg.
Qed.

Lemma setGuess_gameInv WORDS g row col v g' :
  gameInv WORDS g -> setGuess row col v g = (Ok tt, g') ->
  (v = JStr EmptyString \/
   exists a, v = JStr (String a EmptyString) /\ isUpper a = true /\
             isSolid g row col = Ok false) ->
  gameInv WORDS g'.
Proof.
  intros (Hok & Hg & Hsz & Hreach) Hset Hv.
  destruct (setGuess_spec g row col v g' Hok Hset)
    as (Ha & Hs & _ & _ & _ & _ & _ & Hok' & _).
  split; [done|]. split; [exact (setGuess_guessesOk g row col v g' Hok Hg Hset Hv)|].
  by rewrite Ha, Hs.
Qed.

Lemma isUpper_upperAscii a : isAlpha a = true -> isUpper (upperAscii a) = true.
Proof. destruct a as [[] [] [] [] [] [] [] []]; vm_compute; congruence. Qed.

Lemma letter_typed_value key :
  isLetterKey key = true ->
  exists a, JStr (toUpperCase key) = JStr (String a EmptyString) /\ isUpper a = true.
Proof.
  destruct key as [|a [|]]; try done. simpl. intros Ha.
  exists (upperAscii a). split; [done|]. by apply isUpper_upperAscii.
Qed.

Lemma letter_not_special key :
  isLetterKey key = true ->
  key <> "Backspace" /\ key <> "Delete" /\ key <> "\" /\ key <> "+" /\
  key <> "=" /\ key <> "-" /\ key <> "0".
Proof.
  destruct key as [|a [|]]; try done. intros Ha.
  repeat split; intros [= ->]; by vm_compute in Ha.
Qed.

(** *** Keys *)

Lemma letterKey_ignored g key :
  isSolid g (selectedRow g) (selectedColumn g) = Ok true ->
  letterKey key g = (Ok (Return tt), g).
Proof. intros Hsol. unfold letterKey, gbind, solid, gread. by rewrite Hsol. Qed.

Lemma letterKey_typed g key :
  gameOk g -> guessesOk g -> isLetterKey key = true ->
  isSolid g (selectedRow g) (selectedColumn g) = Ok false ->
  exists g',
    letterKey key g = (Ok (Continue tt), g') /\
    answer g' = answer g /\ gameSize g' = gameSize g /\
    hideHorizontal g' = hideHorizontal g /\ hideHalf g' = hideHalf g /\
    selectedHorizontal g' = selectedHorizontal g /\
    gameOk g' /\ guessesOk g' /\
    (forall r c, r < gameSize g -> c < gameSize g ->
       guessAt g' r c =
         if decide (Z.of_nat r = selectedRow g /\ Z.of_nat c = selectedColumn g)
         then Some (JStr (toUpperCase key)) else guessAt g r c) /\
    (selectedRow g', selectedColumn g') =
      (if bool_decide (isSolid g (nextTile g).1 (nextTile g).2 = Ok true)
       then ((-1)%Z, (-1)%Z) else nextTile g).
Proof.
  intros Hok Hg Hkey Hsol.
  destruct (isSolid_false_range _ _ _ Hsol) as [Hr Hc].
  pose proof Hok as (_ & _ & Hlen & _).
  destruct (setGuess_ok g (selectedRow g) (selectedColumn g)
              (JStr (toUpperCase key)) Hlen Hr) as [g1 Hset].
  destruct (setGuess_spec _ _ _ _ _ Hok Hset)
    as (Ha & Hs & Hh & Hhh & Hsr & Hsc & Hsh & Hok1 & Hat).
  assert (Hg1 : guessesOk g1).
  { eapply setGuess_guessesOk; [exact Hok|exact Hg|exact Hset|]. right.
    destruct (letter_typed_value key Hkey) as (a & -> & Hu). eauto. }
  unfold letterKey. unfold gbind at 1. unfold solid at 1, gread. rewrite Hsol.
  unfold gbind at 1. rewrite Hset. unfold gbind at 1.
  set (nt := nextTile g).
  set (g2 := mkGame (answer g1) (gameSize g1) (guesses g1) (hideHorizontal g1)
                    nt.1 nt.2 (selectedHorizontal g1) (hideHalf g1)).
  assert (Hstep : (if selectedHorizontal g1
                   then withSelection (selectedRow g1) (selectedColumn g1 + 1) g1
                   else withSelection (selectedRow g1 + 1) (selectedColumn g1) g1)
                  = (Ok tt, g2)).
  { unfold withSelection, g2, nt, nextTile. rewrite Hsh, Hsr, Hsc.
    by destruct (selectedHorizontal g). }
  rewrite Hstep. clear Hstep.
  unfold gbind at 1. unfold solid at 1, gread.
  change (selectedRow g2) with nt.1. change (selectedColumn g2) with nt.2.
  rewrite (isSolid_same g g2) by done.
  assert (Hsame2 : sameGrid g1 g2) by done.
  destruct (isSolid_total g nt.1 nt.2 Hok) as [s' Hs']. rewrite Hs'.
  destruct s'.
  - unfold gbind at 1. unfold withSelection at 1.
    set (g3 := mkGame _ _ _ _ (-1)%Z (-1)%Z _ _).
    assert (Hsame3 : sameGrid g1 g3) by done.
    unfold gbind at 1.
    rewrite draw_ok; [|by eapply sameGrid_gameOk|by eapply sameGrid_guessesOk].
    exists g3. split; [done|]. do 5 (split; [done|]).
    split; [by eapply sameGrid_gameOk|]. split; [by eapply sameGrid_guessesOk|].
    split; [exact Hat|]. by rewrite bool_decide_eq_true_2.
  - unfold gbind at 1. unfold gret at 1. unfold gbind at 1.
    rewrite draw_ok; [|by eapply sameGrid_gameOk|by eapply sameGrid_guessesOk].
    exists g2. split; [done|]. do 5 (split; [done|]).
    split; [by eapply sameGrid_gameOk|]. split; [by eapply sameGrid_guessesOk|].
    split; [exact Hat|]. rewrite bool_decide_eq_false_2 by done.
    by destruct nt.
Qed.

Lemma tileKey_letter WORDS rnd coin key g f g1 :
  isLetterKey key = true -> letterKey key g = (Ok f, g1) ->
  tileKey WORDS rnd coin key g = (Ok tt, g1).
Proof.
  intros Hkey Hrun. unfold tileKey. unfold gbind at 1. rewrite Hkey, Hrun.
  destruct f as [[]|[]]; [|done].
  destruct (letter_not_special key Hkey) as (H1 & H2 & H3 & H4 & H5 & H6 & H7).
  rewrite !bool_decide_eq_false_2 by done. done.
Qed.

Lemma eraseKey_nothing_selected g :
  (selectedRow g < 0)%Z -> eraseKey g = (Throw TypeError, g).
Proof.
  intros Hneg. unfold eraseKey, gbind, setGuess.
  by replace (selectedRow g <? 0)%Z with true by (symmetry; by apply Z.ltb_lt).
Qed.


Lemma preserves_letterKey WORDS key :
  isLetterKey key = true -> preserves (gameInv WORDS) (letterKey key).
Proof.
  intros Hkey g o g' (Hok & Hg & Hsz & Hreach) Hrun.
  destruct (isSolid_total g (selectedRow g) (selectedColumn g) Hok) as [[] Hs].
  - rewrite letterKey_ignored in Hrun by done. by simplify_eq.
  - destruct (letterKey_typed g key Hok Hg Hkey Hs)
      as (g1 & Hl & Ha & Hsz1 & _ & _ & _ & Hok1 & Hg1 & _).
    rewrite Hl in Hrun. simplify_eq.
    split; [done|]. split; [done|]. by rewrite Ha, Hsz1.
Qed.

Lemma preserves_gret {A} P (a : A) : preserves P (gret a).
Proof. by apply preserves_greadonly. Qed.

Lemma preserves_solid P r c : preserves P (solid r c).
Proof. by apply preserves_greadonly. Qed.

Lemma preserves_draw P : preserves P draw.
Proof. apply preserves_greadonly, greadonly_draw. Qed.

Lemma preserves_eraseKey WORDS : preserves (gameInv WORDS) eraseKey.
Proof.
  intros g o g' HP Hrun. unfold eraseKey in Hrun. unfold gbind at 1 in Hrun.
  destruct (setGuess _ _ _ g) as [[[]|e] g1] eqn:Hset.
  - assert (HP1 : gameInv WORDS g1) by (eapply setGuess_gameInv; [done|done|by left]).
    refine (preserves_gbind (gameInv WORDS) _ _ _ _ g1 o g' HP1 Hrun).
    + destruct (selectedHorizontal g1); [|apply preserves_gret].
      apply preserves_gbind; [apply preserves_solid|]. intros s.
      destruct (negb s); [apply preserves_withSelection|apply preserves_gret].
    + intros _ g2 o2 g2' HP2. cbv beta.
      apply preserves_gbind; [|intros _; apply preserves_draw|done].
      destruct (selectedColumn g2 =? 0)%Z; [|apply preserves_gret].
      apply preserves_gbind; [apply preserves_solid|]. intros s.
      destruct (negb s); [apply preserves_withSelection|apply preserves_gret].
  - apply setGuess_throw in Hset. by simplify_eq.
Qed.

(** *** New puzzles *)

Lemma newBoard_reachable WORDS n rnd b :
  newBoard WORDS n rnd = Ok b -> reachable WORDS n b.
Proof.
  unfold newBoard.
  destruct (makePuzzle WORDS DEFAULT_CYCLES rnd (emptyBoard n)) as [[[]|e] b'] eqn:Hm;
    [|done].
  intros [= <-]. by eapply makePuzzle_reachable.
Qed.

Lemma newBoard_total WORDS n rnd :
  WORDS <> [] -> exists b, newBoard WORDS n rnd = Ok b.
Proof.
  intros Hne. unfold newBoard.
  destruct (makePuzzle_total WORDS n DEFAULT_CYCLES rnd Hne) as [b ->]. by eexists.
Qed.

Lemma newBoard_no_words n rnd : newBoard [] n rnd = Throw TypeError.
Proof. unfold newBoard. by rewrite makePuzzle_no_words. Qed.

Lemma guessAt_fresh b n hh sr sc sh hf r c :
  r < n -> c < n ->
  guessAt (mkGame b n (replicate n (replicate n (JStr EmptyString))) hh sr sc sh hf) r c
  = Some (JStr EmptyString).
Proof.
  intros Hr Hc. unfold guessAt. simpl.
  rewrite lookup_replicate_2 by done. simpl. by rewrite lookup_replicate_2.
Qed.

Lemma fresh_gameOk (coin : nat -> nat -> bool) b n sr sc sh hf :
  wf b -> size b = n ->
  let g := mkGame b n (replicate n (replicate n (JStr EmptyString)))
             (map (fun r => map (fun c => coin r c) (seq 0 n)) (seq 0 n))
             sr sc sh hf in
  gameOk g /\ guessesOk g.
Proof.
  intros Hwf Hsz g. split.
  - split; [done|]. split; [done|]. split; [apply length_replicate|].
    split; [|unfold g; cbn [hideHorizontal gameSize];
              by rewrite List.length_map, length_seq].
    apply Forall_replicate. simpl. by rewrite length_replicate.
  - intros r c v Hr Hc. unfold g. rewrite guessAt_fresh by done.
    intros [= <-]. by left.
Qed.

(** What [newPuzzle] does: it throws before any assignment, or it installs a
    fresh puzzle with empty guesses and returns, keeping the selection. *)
Lemma newPuzzle_run WORDS rnd coin n g :
  (exists e, newBoard WORDS n rnd = Throw e /\
             newPuzzle WORDS rnd coin n g = (Throw e, g)) \/
  (exists b, newBoard WORDS n rnd = Ok b /\
     newPuzzle WORDS rnd coin n g =
       (Ok tt, mkGame b n (replicate n (replicate n (JStr EmptyString)))
                 (map (fun r => map (fun c => coin r c) (seq 0 n)) (seq 0 n))
                 (selectedRow g) (selectedColumn g) (selectedHorizontal g)
                 (hideHalf g))).
Proof.
  unfold newPuzzle. destruct (newBoard WORDS n rnd) as [b|e] eqn:Hb; [right|left; eauto].
  exists b. split; [done|].
  destruct (reachable_wf WORDS n b (newBoard_reachable _ _ _ _ Hb)) as [Hwf Hsz].
  destruct (fresh_gameOk coin b n (selectedRow g) (selectedColumn g)
              (selectedHorizontal g) (hideHalf g) Hwf Hsz) as [Hok Hg].
  by apply draw_ok.
Qed.

Lemma newPuzzle_gameInv WORDS rnd coin n g o g' :
  4 <= n -> newPuzzle WORDS rnd coin n g = (o, g') ->
  g' = g \/ (gameInv WORDS g' /\ gameSize g' = n).
Proof.
  intros Hn Hrun.
  destruct (newPuzzle_run WORDS rnd coin n g) as [(e & _ & Hr)|(b & Hb & Hr)];
    rewrite Hr in Hrun; simplify_eq; [by left|right].
  pose proof (newBoard_reachable _ _ _ _ Hb) as Hreach.
  destruct (reachable_wf WORDS n b Hreach) as [Hwf Hsz].
  destruct (fresh_gameOk coin b n (selectedRow g) (selectedColumn g)
              (selectedHorizontal g) (hideHalf g) Hwf Hsz) as [Hok Hg].
  done.
Qed.

Lemma preserves_newPuzzle WORDS rnd coin n :
  4 <= n -> preserves (gameInv WORDS) (newPuzzle WORDS rnd coin n).
Proof.
  intros Hn g o g' HP Hrun.
  by destruct (newPuzzle_gameInv WORDS rnd coin n g o g' Hn Hrun) as [->|[? _]].
Qed.

Lemma preserves_tileKey WORDS rnd coin key :
  preserves (gameInv WORDS) (tileKey WORDS rnd coin key).
Proof.
  unfold tileKey. apply preserves_gbind.
  { destruct (isLetterKey key) eqn:Hkey;
      [by apply preserves_letterKey|apply preserves_gret]. }
  intros [[]|[]]; [|apply preserves_gret].
  apply preserves_gbind; [apply preserves_when, preserves_eraseKey|]. intros _.
  apply preserves_gbind.
  { intros g o g' HP. cbv beta. apply preserves_when; [|done].
    apply preserves_gbind; [|intros _; apply preserves_draw].
    apply preserves_newPuzzle. by destruct HP as (_ & _ & ? & _). }
  intros _. apply preserves_gbind.
  { intros g o g' HP. cbv beta. apply preserves_when; [|done].
    apply preserves_gbind; [|intros _; apply preserves_draw].
    apply preserves_newPuzzle. destruct HP as (_ & _ & ? & _). lia. }
  intros _. apply preserves_gbind.
  { intros g o g' HP. cbv beta.
    destruct (bool_decide (key = "-") && (4 <? gameSize g)) eqn:E;
      [|by apply preserves_gret].
    apply andb_true_iff in E as [_ E%Nat.ltb_lt]. cbn [when].
    apply preserves_gbind; [|intros _; apply preserves_draw|done].
    apply preserves_newPuzzle. lia. }
  intros _ g o g' HP. cbv beta. apply preserves_when; [|done].
  apply preserves_gbind; [apply preserves_withHideHalf|intros _; apply preserves_draw].
Qed.

Lemma newGame_gameInv WORDS rnd coin g :
  newGame WORDS rnd coin = Ok g ->
  gameInv WORDS g /\ gameSize g = 6 /\
  selectedRow g = (-1)%Z /\ selectedColumn g = (-1)%Z /\
  selectedHorizontal g = true /\ hideHalf g = false /\
  (forall r c, r < 6 -> c < 6 -> guessAt g r c = Some (JStr EmptyString)).
Proof.
  unfold newGame.
  destruct (newPuzzle_run WORDS rnd coin 6 blankGame) as [(e & _ & ->)|(b & Hb & Hr)];
    [done|].
  pose proof (newPuzzle_gameInv WORDS rnd coin 6 blankGame (Ok tt) _ ltac:(lia) Hr)
    as [Heq|[Hinv Hsz]].
  { apply (f_equal gameSize) in Heq. done. }
  rewrite Hr. intros [= <-]. split; [done|]. split; [done|].
  do 4 (split; [done|]). intros r c Hr' Hc'. by apply guessAt_fresh.
Qed.

Lemma played_gameInv WORDS g : played WORDS g -> gameInv WORDS g.
Proof.
  induction 1 as [rnd coin g Hnew|g r c o g' _ IH Hrun|rnd coin g key o g' _ IH Hrun
                 |g o g' _ IH Hrun].
  - by destruct (newGame_gameInv WORDS rnd coin g Hnew) as [? _].
  - by eapply preserves_tileClick.
  - by eapply preserves_tileKey.
  - by eapply preserves_draw.
Qed.

Lemma newGame_total WORDS rnd coin :
  WORDS <> [] -> exists g, newGame WORDS rnd coin = Ok g.
Proof.
  intros Hne. unfold newGame.
  destruct (newPuzzle_run WORDS rnd coin 6 blankGame) as [(e & He & _)|(b & _ & ->)];
    [|by eexists].
  destruct (newBoard_total WORDS 6 rnd Hne) as [b Hb]. congruence.
Qed.

Lemma newGame_no_words rnd coin : newGame [] rnd coin = Throw TypeError.
Proof.
  unfold newGame.
  destruct (newPuzzle_run [] rnd coin 6 blankGame) as [(e & He & ->)|(b & Hb & _)].
  - rewrite newBoard_no_words in He. by simplify_eq.
  - by rewrite newBoard_no_words in Hb.
Qed.

Lemma newGame_too_long WORDS (rnd : nat -> nat * nat) coin :
  WORDS <> [] -> (forall w, w ∈ WORDS -> 6 < String.length w) ->
  played WORDS
    (mkGame (emptyBoard 6) 6 (replicate 6 (replicate 6 (JStr EmptyString)))
       (map (fun r => map (fun c => coin r c) (seq 0 6)) (seq 0 6))
       (-1) (-1) true false).
Proof.
  intros Hne Hlong. apply (played_new WORDS rnd coin). unfold newGame.
  destruct (newPuzzle_run WORDS rnd coin 6 blankGame) as [(e & He & _)|(b & Hb & ->)].
  - by rewrite newBoard_too_long in He.
  - rewrite newBoard_too_long in Hb by done. by simplify_eq.
Qed.


(** Evaluating the tests of [tileKey] on a given key. *)
Ltac key_tests :=
  repeat match goal with
  | |- context [bool_decide (?a = ?b)] =>
      let v := eval vm_compute in (bool_decide (a = b)) in
      change (bool_decide (a = b)) with v
  | |- context [isLetterKey ?k] =>
      let v := eval vm_compute in (isLetterKey k) in
      change (isLetterKey k) with v
  end;
  cbn [orb andb when]; cbv iota.

Ltac gstep := unfold gbind at 1; unfold gret at 1; cbv beta iota.

(** The keys that ask for a new puzzle. *)
Lemma tileKey_newPuzzle WORDS rnd coin key n g :
  WORDS <> [] ->
  (key = "\" /\ n = gameSize g) \/
  ((key = "+" \/ key = "=") /\ n = gameSize g + 1) \/
  (key = "-" /\ 4 < gameSize g /\ n = gameSize g - 1) ->
  exists b,
    newBoard WORDS n rnd = Ok b /\
    tileKey WORDS rnd coin key g =
      (Ok tt, mkGame b n (replicate n (replicate n (JStr EmptyString)))
                (map (fun r => map (fun c => coin r c) (seq 0 n)) (seq 0 n))
                (selectedRow g) (selectedColumn g) (selectedHorizontal g)
                (hideHalf g)).
Proof.
  intros Hne Hkey.
  destruct (newPuzzle_run WORDS rnd coin n g) as [(e & He & _)|(b & Hb & Hr)].
  { destruct (newBoard_total WORDS n rnd Hne) as [b Hb]. congruence. }
  exists b. split; [done|].
  pose proof (newBoard_reachable _ _ _ _ Hb) as Hreach.
  destruct (reachable_wf WORDS n b Hreach) as [Hwf Hsz].
  destruct (fresh_gameOk coin b n (selectedRow g) (selectedColumn g)
              (selectedHorizontal g) (hideHalf g) Hwf Hsz) as [Hok Hg].
  pose proof (draw_ok _ Hok Hg) as Hdraw.
  set (g1 := mkGame b n _ _ _ _ _ _) in *.
  assert (Hnew : gbind (newPuzzle WORDS rnd coin n) (fun _ => draw) g = (Ok tt, g1)).
  { unfold gbind. by rewrite Hr. }
  unfold tileKey.
  destruct Hkey as [[-> ->]|[[[-> | ->] ->]|(-> & Hlt & ->)]]; key_tests.
  - do 2 gstep. unfold gbind at 1. rewrite Hnew. by repeat gstep.
  - do 3 gstep. unfold gbind at 1. rewrite Hnew. by repeat gstep.
  - do 3 gstep. unfold gbind at 1. rewrite Hnew. by repeat gstep.
  - do 4 gstep. unfold gbind at 1. cbv beta.
    replace (4 <? gameSize g) with true by (symmetry; by apply Nat.ltb_lt).
    cbn [when]. rewrite Hnew. by repeat gstep.
Qed.

Lemma tileKey_minus_floor WORDS rnd coin g :
  gameSize g <= 4 -> tileKey WORDS rnd coin "-" g = (Ok tt, g).
Proof.
  intros Hle. unfold tileKey. key_tests.
  do 4 gstep. unfold gbind at 1. cbv beta.
  replace (4 <? gameSize g) with false by (symmetry; apply Nat.ltb_ge; lia).
  cbn [when]. by repeat gstep.
Qed.

Lemma tileKey_erase key g WORDS rnd coin :
  key = "Backspace" \/ key = "Delete" ->
  tileKey WORDS rnd coin key g =
    match eraseKey g with
    | (Ok _, g') => (Ok tt, g')
    | (Throw e, g') => (Throw e, g')
    end.
Proof.
  intros [-> | ->]; unfold tileKey; key_tests; gstep; unfold gbind at 1;
    (destruct (eraseKey g) as [[[]|e] g']; [|done]); by repeat gstep.
Qed.

Lemma eraseKey_no_row g :
  ~ (0 <= selectedRow g < Z.of_nat (length (guesses g)))%Z ->
  eraseKey g = (Throw TypeError, g).
Proof.
  intros Hrow. unfold eraseKey, gbind, setGuess.
  destruct (selectedRow g <? 0)%Z eqn:E; [done|]. apply Z.ltb_ge in E.
  rewrite lookup_ge_None_2; [done|lia].
Qed.

(** ** The search returns once the clock passes the deadline *)

Section SearchTotal.

Variable WORDS : list string.
Variable now : nat -> Z.
Variable rnd : nat -> nat -> nat * nat.

Lemma searchLoop_total start s n : forall fuel k bd best cnt j,
  WORDS <> [] -> j < fuel ->
  (s * 1000 <= inject_Z (now (k + j) - start))%Q ->
  exists r, searchLoop WORDS now rnd fuel k start s n bd best cnt = Some (Ok r).
Proof.
  induction fuel as [|fuel IH]; intros k bd best cnt j Hne Hj Hexp; [lia|].
  cbn [searchLoop].
  destruct (Qltb (inject_Z (now k - start)) (s * 1000)) eqn:Hlt; [|by eexists].
  destruct (newBoard_total WORDS n (rnd cnt) Hne) as [board ->].
  destruct j as [|j].
  { apply Qltb_true_iff in Hlt. rewrite Nat.add_0_r in Hexp.
    exfalso. by eapply Qlt_not_le. }
  assert (Hexp' : (s * 1000 <= inject_Z (now (k + 1 + j) - start))%Q).
  { by replace (k + 1 + j) with (k + S j) by lia. }
  destruct (Qltb bd (density board)); eapply IH; try done; lia.
Qed.

End SearchTotal.

Lemma newBoard_counter WORDS n rnd b :
  newBoard WORDS n rnd = Ok b -> totalPlacements b <= DEFAULT_CYCLES.
Proof.
  unfold newBoard.
  destruct (makePuzzle WORDS DEFAULT_CYCLES rnd (emptyBoard n)) as [[[]|e] b'] eqn:Hm;
    [|done].
  intros [= <-]. by eapply makePuzzle_counter.
Qed.

(** ** The word list script *)

Lemma span_inv p l : forall a b,
  span p l = (a, b) ->
  l = a ++ b /\ Forall (fun u => p u = true) a /\
  match b with [] => True | u :: _ => p u = false end.
Proof.
  induction l as [|u l IH]; intros a b Hs; simpl in Hs.
  - by simplify_eq.
  - destruct (p u) eqn:Hu.
    + destruct (span p l) as [a' b'] eqn:Hs'. simplify_eq.
      destruct (IH a' b eq_refl) as (-> & Ha & Hb).
      split; [done|]. split; [by apply Forall_cons|done].
    + simplify_eq. split; [done|]. split; [apply Forall_nil_2|done].
Qed.

Lemma span_app p a b :
  Forall (fun u => p u = true) a ->
  match b with [] => True | u :: _ => p u = false end ->
  span p (a ++ b) = (a, b).
Proof.
  intros Ha Hb. induction Ha as [|u a Hu Ha IH]; simpl.
  - destruct b as [|v b]; [done|]. simpl. by rewrite Hb.
  - by rewrite Hu, IH.
Qed.

Lemma head_fails (p q : N -> bool) l rest :
  l <> [] -> Forall (fun u => q u = true) l ->
  (forall u, q u = true -> p u = false) ->
  match l ++ rest with [] => True | u :: _ => p u = false end.
Proof.
  intros Hne Hl Hpq. destruct l as [|u l]; [done|]. simpl.
  apply Hpq. by apply Forall_cons in Hl as [? _].
Qed.

Lemma digit_not_space u : isDigit u = true -> isSpace u = false.
Proof.
  unfold isDigit, isSpace. intros [H1%N.leb_le H2%N.leb_le]%andb_true_iff.
  repeat (apply orb_false_iff; split);
    first [apply N.eqb_neq; lia
          |apply andb_false_iff;
           first [left; apply N.leb_gt; lia|right; apply N.leb_gt; lia]].
Qed.

Lemma lower_not_space u : isLower u = true -> isSpace u = false.
Proof.
  unfold isLower, isSpace. intros [H1%N.leb_le H2%N.leb_le]%andb_true_iff.
  repeat (apply orb_false_iff; split);
    first [apply N.eqb_neq; lia
          |apply andb_false_iff;
           first [left; apply N.leb_gt; lia|right; apply N.leb_gt; lia]].
Qed.

Lemma space_not_digit u : isSpace u = true -> isDigit u = false.
Proof.
  intros Hs. destruct (isDigit u) eqn:Hd; [|done].
  apply digit_not_space in Hd. congruence.
Qed.

Lemma space_not_lower u : isSpace u = true -> isLower u = false.
Proof.
  intros Hs. destruct (isLower u) eqn:Hd; [|done].
  apply lower_not_space in Hd. congruence.
Qed.

Lemma nonEmpty_true l : nonEmpty l = true <-> l <> [].
Proof. by destruct l. Qed.

(** The matcher decides the regular expression. *)
Lemma matchLine_matchesRegex line w :
  matchLine line = Some w <-> matchesRegex line w.
Proof.
  split.
  - unfold matchLine.
    destruct (span isDigit line) as [d1 r1] eqn:E1.
    destruct (span isSpace r1) as [s1 r2] eqn:E2.
    destruct (span isDigit r2) as [d2 r3] eqn:E3.
    destruct (span isSpace r3) as [s2 r4] eqn:E4.
    destruct (span isLower r4) as [w' r5] eqn:E5.
    destruct (span isSpace r5) as [s3 r6] eqn:E6.
    destruct (_ && _) eqn:Hc; [|done]. intros [= ->].
    repeat (apply andb_true_iff in Hc as [Hc ?]).
    apply span_inv in E1 as (-> & ? & _). apply span_inv in E2 as (-> & ? & _).
    apply span_inv in E3 as (-> & ? & _). apply span_inv in E4 as (-> & ? & _).
    apply span_inv in E5 as (-> & ? & _). apply span_inv in E6 as (-> & ? & _).
    destruct r6; [|done]. rewrite app_nil_r.
    exists d1, s1, d2, s2, s3. rewrite <- !nonEmpty_true. done.
  - intros (d1 & s1 & d2 & s2 & s3 & -> & Hd1 & Fd1 & Hs1 & Fs1 & Hd2 & Fd2
            & Hs2 & Fs2 & Hw & Fw & Hs3 & Fs3).
    unfold matchLine. rewrite <- (app_nil_r s3).
    rewrite (span_app isDigit d1) by
      (done || by apply (head_fails isDigit isSpace); [| |apply space_not_digit]).
    rewrite (span_app isSpace s1) by
      (done || by apply (head_fails isSpace isDigit); [| |apply digit_not_space]).
    rewrite (span_app isDigit d2) by
      (done || by apply (head_fails isDigit isSpace); [| |apply space_not_digit]).
    rewrite (span_app isSpace s2) by
      (done || by apply (head_fails isSpace isLower); [| |apply lower_not_space]).
    rewrite (span_app isLower w) by
      (done || by apply (head_fails isLower isSpace); [| |apply space_not_lower]).
    rewrite (span_app isSpace s3) by done.
    apply nonEmpty_true in Hd1, Hs1, Hd2, Hs2, Hw, Hs3.
    by rewrite Hd1, Hs1, Hd2, Hs2, Hw, Hs3.
Qed.

Lemma matchLine_lower line w :
  matchLine line = Some w -> w <> [] /\ Forall (fun u => isLower u = true) w.
Proof.
  intros (d1 & s1 & d2 & s2 & s3 & _ & _ & _ & _ & _ & _ & _ & _ & _ & Hw & Fw & _)
    %matchLine_matchesRegex.
  done.
Qed.

Lemma WORD_CAP_pos : 0 < WORD_CAP.
Proof. apply Nat.ltb_lt. vm_compute. reflexivity. Qed.

Lemma qualifying_cons_Some line lines word :
  matchLine line = Some word -> goodLength word = true ->
  qualifying (line :: lines) = word :: qualifying lines.
Proof. intros Hm Hg. unfold qualifying. simpl. by rewrite Hm, Hg. Qed.

Lemma qualifying_cons_short line lines word :
  matchLine line = Some word -> goodLength word = false ->
  qualifying (line :: lines) = qualifying lines.
Proof. intros Hm Hg. unfold qualifying. simpl. by rewrite Hm, Hg. Qed.

Lemma qualifying_cons_None line lines :
  matchLine line = None -> qualifying (line :: lines) = qualifying lines.
Proof. intros Hm. unfold qualifying. simpl. by rewrite Hm. Qed.

(** The loop with its [break] keeps the first [WORD_CAP] qualifying words. *)
Lemma wordLoop_take lines : forall words,
  length words < WORD_CAP ->
  wordLoop lines words = take WORD_CAP (words ++ qualifying lines).
Proof.
  induction lines as [|line lines IH]; intros words Hlen.
  - simpl. rewrite app_nil_r. rewrite take_ge; [done|lia].
  - cbn [wordLoop]. destruct (matchLine line) as [word|] eqn:Hm.
    + destruct (goodLength word) eqn:Hg.
      * rewrite (qualifying_cons_Some line lines word Hm Hg).
        replace (words ++ word :: qualifying lines)
          with ((words ++ [word]) ++ qualifying lines) by (by rewrite <- app_assoc).
        destruct (WORD_CAP <=? length (words ++ [word])) eqn:Hcap.
        -- apply Nat.leb_le in Hcap. rewrite length_app in Hcap. simpl in Hcap.
           rewrite take_app_le by (rewrite length_app; simpl; lia).
           rewrite take_ge; [done|]. rewrite length_app. simpl. lia.
        -- apply Nat.leb_gt in Hcap. by apply IH.
      * rewrite (qualifying_cons_short line lines word Hm Hg). by apply IH.
    + rewrite (qualifying_cons_None line lines Hm). by apply IH.
Qed.

Lemma processWords_take text :
  processWords text = take WORD_CAP (qualifying (splitLines text [])).
Proof. unfold processWords. rewrite wordLoop_take; [done|apply WORD_CAP_pos]. Qed.

Lemma qualifying_elem lines word :
  word ∈ qualifying lines ->
  exists line, line ∈ lines /\ matchLine line = Some word /\ goodLength word = true.
Proof.
  unfold qualifying. intros (line & Hin & Hm)%list_elem_of_omap.
  exists line. split; [done|].
  destruct (matchLine line) as [w|]; [|done].
  destruct (goodLength w) eqn:Hg; [|done]. by simplify_eq.
Qed.

Lemma processWords_elem text word :
  word ∈ processWords text ->
  exists line, line ∈ splitLines text [] /\ matchLine line = Some word /\
               goodLength word = true.
Proof.
  rewrite processWords_take. intros Hin. apply qualifying_elem.
  by apply (subseteq_take WORD_CAP).
Qed.

Lemma lower_ascii_not_dot u :
  isLower u = true -> String (Ascii.ascii_of_N u) EmptyString <> ".".
Proof.
  unfold isLower. intros [H1%N.leb_le H2%N.leb_le]%andb_true_iff [= Heq].
  apply (f_equal Ascii.N_of_ascii) in Heq.
  rewrite Ascii.N_ascii_embedding in Heq by lia. simpl in Heq. lia.
Qed.

Lemma unitsToString_dotFree w :
  Forall (fun u => isLower u = true) w -> dotFree (unitsToString w).
Proof.
  unfold dotFree. induction 1 as [|u w Hu Hw IH]; simpl; [apply Forall_nil_2|].
  apply Forall_cons. split; [by apply lower_ascii_not_dot|done].
Qed.

Lemma unitsToString_length w : String.length (unitsToString w) = length w.
Proof. induction w as [|u w IH]; simpl; [done|by rewrite IH]. Qed.

Lemma splitLines_no_lf_aux n : forall text cur,
  length text <= n -> 10%N ∉ cur ->
  Forall (fun line => 10%N ∉ line) (splitLines text cur).
Proof.
  induction n as [|n IH]; intros text cur Hlen Hcur.
  - destruct text; [|simpl in Hlen; lia]. simpl.
    apply Forall_cons. split; [by rewrite elem_of_reverse|apply Forall_nil_2].
  - destruct text as [|u rest].
    { simpl. apply Forall_cons.
      split; [by rewrite elem_of_reverse|apply Forall_nil_2]. }
    simpl in Hlen. cbn [splitLines].
    assert (Hrev : 10%N ∉ reverse cur) by (by rewrite elem_of_reverse).
    destruct (u =? 10)%N eqn:Eu.
    { apply Forall_cons. split; [done|]. apply IH; [lia|apply not_elem_of_nil]. }
    apply N.eqb_neq in Eu.
    assert (Hcur' : 10%N ∉ u :: cur).
    { intros [?|?]%elem_of_cons; [congruence|done]. }
    destruct rest as [|v rest']; [apply IH; [simpl; lia|done]|].
    destruct ((u =? 13)%N && (v =? 10)%N).
    + apply Forall_cons. split; [done|].
      apply IH; [simpl in Hlen; lia|apply not_elem_of_nil].
    + apply IH; [lia|done].
Qed.

(** No piece of the split text holds a line feed. *)
Lemma splitLines_no_lf text :
  Forall (fun line => 10%N ∉ line) (splitLines text []).
Proof. apply (splitLines_no_lf_aux (length text)); [done|apply not_elem_of_nil]. Qed.

(** ** The first word on an empty board *)

Lemma tileOr_emptyBoard n r c : r < n -> c < n -> tileOr (emptyBoard n) r c = EMPTY.
Proof.
  intros Hr Hc. unfold tileOr, peek. simpl.
  rewrite lookup_replicate_2 by done. by rewrite lookup_replicate_2.
Qed.

Lemma fmap_seq_const {A} (f : nat -> A) (y : A) a k :
  (forall i, a <= i < a + k -> f i = y) -> f <$> seq a k = replicate k y.
Proof.
  revert a. induction k as [|k IH]; intros a Hf; [done|].
  simpl. rewrite Hf by lia. f_equal. apply IH. intros i Hi. apply Hf. lia.
Qed.

Lemma fmap_seq_ext {A} (f g : nat -> A) a k :
  (forall i, a <= i < a + k -> f i = g i) -> f <$> seq a k = g <$> seq a k.
Proof.
  intros Hf. apply list_fmap_ext. intros j i [-> Hj]%lookup_seq. apply Hf. lia.
Qed.

Lemma charAt_String_S a w i : charAt (String a w) (S i) = charAt w i.
Proof. done. Qed.

Lemma spell_charAt w : spell (charAt w <$> seq 0 (String.length w)) = w.
Proof.
  induction w as [|a w IH]; [done|].
  simpl String.length. rewrite <- cons_seq, fmap_cons, <- fmap_S_seq, <- list_fmap_compose.
  rewrite spell_cons.
  rewrite (fmap_seq_ext (charAt (String a w) ∘ S) (charAt w)) by done.
  rewrite IH. done.
Qed.

Lemma letters_charAt w :
  dotFree w ->
  Forall (fun v => isChar v = true /\ v <> EMPTY) (charAt w <$> seq 0 (String.length w)).
Proof.
  intros Hd. apply Forall_fmap, Forall_forall. intros i [_ Hi]%elem_of_seq. simpl.
  split; [apply isChar_charAt; lia|by apply charAt_dotFree].
Qed.

Section FirstWord.

Variable WORDS : list string.

Lemma scanChars_letters (run rest : list jsval) acc :
  Forall (fun v => v <> EMPTY) run ->
  scanChars WORDS (run ++ rest) acc = scanChars WORDS rest (acc +:+ spell run).
Proof.
  intros Hrun. revert acc. induction Hrun as [|v run Hv _ IH]; intros acc.
  - simpl. by rewrite append_nil_r.
  - rewrite <- app_comm_cons. cbn [scanChars].
    rewrite bool_decide_eq_false_2 by done.
    rewrite IH, spell_cons. by rewrite append_assoc.
Qed.

Lemma scanChars_empties k acc :
  badRun WORDS acc = false ->
  exists acc', scanChars WORDS (replicate k EMPTY) acc = Continue acc' /\
               badRun WORDS acc' = false.
Proof.
  revert acc. induction k as [|k IH]; intros acc Hbad; [by exists acc|].
  simpl. rewrite Hbad. by apply IH.
Qed.

(** A line holding one run of letters, then empty tiles. *)
Lemma lineValid_single_run (run : list jsval) k :
  Forall (fun v => isChar v = true /\ v <> EMPTY) run ->
  (2 <= length run -> spell run ∈ WORDS) ->
  lineValid WORDS (run ++ replicate k EMPTY).
Proof.
  intros Hrun Hword.
  assert (Hbad : badRun WORDS (spell run) = false).
  { apply badRun_valid. rewrite spell_length by (by eapply letters_isChar). done. }
  destruct (scanChars_empties k (spell run) Hbad) as (acc & Hscan & Hacc).
  apply (scanChars_lineValid WORDS _ acc); [| |done].
  - apply Forall_app. split; [by eapply letters_isChar|by apply Forall_replicate].
  - rewrite scanChars_letters, append_nil_l; [done|].
    eapply Forall_impl; [exact Hrun|]. by intros v [_ ?].
Qed.

(** The first word fits along the top row of the empty board. *)
Lemma first_word_valid n w :
  w ∈ WORDS -> 1 <= String.length w <= n -> dotFree w ->
  eval (isValidPlacement WORDS true 0 0 w) (emptyBoard n) = Ok true.
Proof.
  intros Hin [Hlen1 Hlen] Hd.
  assert (Hf : feasible (size (emptyBoard n)) true 0 0 (String.length w)).
  { simpl. lia. }
  apply (isValidPlacement_accepts WORDS (emptyBoard n) true 0 0 w (wf_emptyBoard n) Hf).
  assert (Hunder : forall i, i < String.length w ->
            under (emptyBoard n) true 0 0 i = Ok EMPTY).
  { intros i Hi. rewrite under_tileOr by (simpl; rewrite length_replicate; lia).
    simpl. rewrite tileOr_emptyBoard by lia. done. }
  split.
  { intros (i & Hi & v & Hv & Hne & _). rewrite Hunder in Hv by done. by simplify_eq. }
  split.
  { unfold standaloneCount. destruct (String.length w) as [|len] eqn:E; [lia|].
    rewrite <- cons_seq, standaloneIn_cons. rewrite decide_True by (apply Hunder; lia).
    lia. }
  split; [by left|].
  intros i Hi. rewrite (proj1 (actuallyPlaceWord_shape w true 0 0 (emptyBoard n))) in Hi.
  simpl in Hi.
  rewrite <- (committed_lines (emptyBoard n) true 0 0 w false i
                (wf_emptyBoard n) Hf Hi).
  rewrite <- (committed_lines (emptyBoard n) true 0 0 w true i
                (wf_emptyBoard n) Hf Hi).
  simpl size. split.
  - (* row [i] *)
    destruct i as [|i].
    + replace n with (String.length w + (n - String.length w)) at 1 by lia.
      rewrite seq_app, fmap_app. simpl.
      rewrite (fmap_seq_ext _ (charAt w) 0 (String.length w)).
      2:{ intros j Hj. unfold masked, covers, offset. simpl.
          replace (j <? String.length w) with true by (symmetry; apply Nat.ltb_lt; lia).
          by rewrite Nat.sub_0_r. }
      rewrite (fmap_seq_const _ EMPTY (String.length w) (n - String.length w)).
      2:{ intros j Hj. unfold masked, covers. simpl.
          replace (j <? String.length w) with false by (symmetry; apply Nat.ltb_ge; lia).
          apply tileOr_emptyBoard; lia. }
      apply lineValid_single_run; [by apply letters_charAt|].
      intros _. by rewrite spell_charAt.
    + rewrite (fmap_seq_const _ EMPTY 0 n).
      2:{ intros j Hj. unfold masked, covers. simpl. apply tileOr_emptyBoard; lia. }
      apply (lineValid_single_run [] n); [apply Forall_nil_2|simpl; lia].
  - (* column [i] *)
    destruct n as [|n']; [lia|]. rewrite <- cons_seq, fmap_cons.
    rewrite (fmap_seq_const _ EMPTY 1 n').
    2:{ intros j Hj. unfold masked, covers. simpl.
        destruct j as [|j]; [lia|]. simpl. apply tileOr_emptyBoard; lia. }
    destruct (decide (i < String.length w)) as [Hiw|Hiw].
    + apply (lineValid_single_run [masked (emptyBoard (S n')) true 0 0 w 0 i] n').
      * apply Forall_singleton. unfold masked, covers, offset. simpl.
        replace (i <? String.length w) with true by (symmetry; by apply Nat.ltb_lt).
        rewrite Nat.sub_0_r. split; [by apply isChar_charAt|by apply charAt_dotFree].
      * simpl. lia.
    + replace (masked (emptyBoard (S n')) true 0 0 w 0 i) with EMPTY.
      * apply (lineValid_single_run [] (S n')); [apply Forall_nil_2|simpl; lia].
      * unfold masked, covers. simpl.
        replace (i <? String.length w) with false by (symmetry; apply Nat.ltb_ge; lia).
        symmetry. apply tileOr_emptyBoard; lia.
Qed.

(** On the empty board a cycle that draws a word that fits places it. *)
Lemma first_cycle_places n rnd w :
  WORDS !! randomIndex (fst rnd) (length WORDS) = Some w ->
  1 <= String.length w <= n -> dotFree w ->
  exists b', cycle WORDS rnd (emptyBoard n) = (Ok tt, b') /\
             wf b' /\ totalPlacements b' = 1.
Proof.
  intros Hw Hlen Hd.
  assert (Hin : w ∈ WORDS) by (by eapply list_elem_of_lookup_2).
  rewrite (cycle_run WORDS (emptyBoard n) rnd w) by (done || apply length_replicate).
  assert (Hvp : (true, 0, 0) ∈ validPlacementsOf WORDS (emptyBoard n) w).
  { unfold validPlacementsOf. apply list_elem_of_filter. split.
    - simpl. by apply first_word_valid.
    - apply candidates_spec. simpl. lia. }
  destruct (validPlacementsOf WORDS (emptyBoard n) w !! _) as [[[h r] c]|] eqn:Hp.
  - apply list_elem_of_lookup_2, list_elem_of_filter in Hp as [_ Hcand%candidates_spec].
    destruct (actuallyPlaceWord_wf w h r c (emptyBoard n) (wf_emptyBoard n) Hcand)
      as [He Hwf'].
    exists (exec (actuallyPlaceWord w h r c) (emptyBoard n)).
    split; [rewrite (run_eta (actuallyPlaceWord w h r c) (emptyBoard n)); by rewrite He|].
    split; [done|].
    by destruct (actuallyPlaceWord_shape w h r c (emptyBoard n)) as (_ & _ & ->).
  - exfalso. apply lookup_ge_None in Hp.
    pose proof (randomIndex_lt (snd rnd) (length (validPlacementsOf WORDS (emptyBoard n) w))).
    destruct (validPlacementsOf WORDS (emptyBoard n) w) as [|p vp];
      [by apply elem_of_nil in Hvp|].
    simpl in *. lia.
Qed.

Lemma trial_loop_counter_mono rnd (idxs : list nat) : forall b f b',
  wf b ->
  forEach (R := unit) idxs tt
    (fun _ i => cycle WORDS (rnd i) ;;; ret (Continue tt)) b = (Ok f, b') ->
  totalPlacements b <= totalPlacements b'.
Proof.
  induction idxs as [|i idxs IH]; intros b f b' Hwf Hrun.
  - simpl in Hrun. unfold ret in Hrun. by simplify_eq.
  - simpl in Hrun. unfold bind at 1 2 in Hrun.
    destruct (cycle WORDS (rnd i) b) as [[[]|e] b1] eqn:Hc; [|done].
    simpl in Hrun. destruct (cycle_wf WORDS b (rnd i) b1 Hwf Hc) as [Hwf1 _].
    specialize (IH b1 f b' Hwf1 Hrun).
    destruct (cycle_counter WORDS b (rnd i) b1 Hwf Hc) as [->|[Htp _]]; lia.
Qed.

(** With words that all fit the board, a run of one cycle or more places a
    word. *)
Lemma makePuzzle_places n cycles rnd b' :
  WORDS <> [] ->
  (forall w, w ∈ WORDS -> 1 <= String.length w <= n /\ dotFree w) ->
  0 < cycles ->
  makePuzzle WORDS cycles rnd (emptyBoard n) = (Ok tt, b') ->
  1 <= totalPlacements b'.
Proof.
  intros Hne Hfit Hc. unfold makePuzzle. unfold bind at 1. simpl. unfold bind at 1.
  fold (emptyBoard n).
  destruct cycles as [|k]; [lia|]. rewrite <- cons_seq.
  destruct (forEach _ _ _ _) as [[f|e] b1] eqn:Hl; [|done].
  intros Hr. unfold ret in Hr. simplify_eq.
  simpl in Hl. unfold bind at 1 2 in Hl.
  destruct (word_drawn WORDS (fst (rnd 0)) Hne) as (w & Hw & Hin).
  destruct (Hfit w Hin) as [Hlen Hd].
  destruct (first_cycle_places n (rnd 0) w Hw Hlen Hd) as (b1 & Hcy & Hwf1 & Htp).
  rewrite Hcy in Hl. simpl in Hl.
  pose proof (trial_loop_counter_mono rnd (seq 1 k) b1 f b' Hwf1 Hl). lia.
Qed.

End FirstWord.

Lemma DEFAULT_CYCLES_pos : 0 < DEFAULT_CYCLES.
Proof. apply Nat.ltb_lt. vm_compute. reflexivity. Qed.

Lemma density_pos b : 0 < occupied b -> 0 < size b -> (0 < density b)%Q.
Proof.
  intros Ho Hn. unfold density. apply Qlt_shift_div_l.
  - change 0%Q with (inject_Z 0). rewrite <- Zlt_Qlt. nia.
  - rewrite Qmult_0_l. change 0%Q with (inject_Z 0). rewrite <- Zlt_Qlt. lia.
Qed.

(** With words that all fit the board, every board the constructor builds
    holds a word. *)
Lemma newBoard_places WORDS n rnd b :
  WORDS <> [] ->
  (forall w, w ∈ WORDS -> 1 <= String.length w <= n /\ dotFree w) ->
  newBoard WORDS n rnd = Ok b ->
  1 <= totalPlacements b /\ 1 <= occupied b /\ (0 < density b)%Q.
Proof.
  intros Hne Hfit Hb.
  pose proof (newBoard_reachable WORDS n rnd b Hb) as Hreach.
  destruct (reachable_wf WORDS n b Hreach) as [Hwf Hsz].
  assert (Htp : 1 <= totalPlacements b).
  { unfold newBoard in Hb.
    destruct (makePuzzle WORDS DEFAULT_CYCLES rnd (emptyBoard n)) as [[[]|e] b'] eqn:Hm;
      [|done].
    simplify_eq. eapply makePuzzle_places; [done|done|apply DEFAULT_CYCLES_pos|done]. }
  assert (Hocc : totalPlacements b <= occupied b).
  { eapply reachable_counter; [|done]. apply Forall_forall. intros w Hw.
    by destruct (Hfit w Hw). }
  split; [done|]. split; [lia|]. apply density_pos; [lia|].
  destruct WORDS as [|w0 ws]; [done|].
  destruct (Hfit w0) as [? _]; [apply list_elem_of_here|]. lia.
Qed.

Lemma unitsToString_inj_nil (ws : list (list N)) :
  ws <> [] -> unitsToString <$> ws <> [].
Proof. by destruct ws. Qed.

(** ** The letter hints *)

Lemma hint_inner_loop ch guessed needed (os : list nat) :
  forall acc : list (nat * hintClass) * bool,
  foldl (fun (acc : list (nat * hintClass) * bool) o =>
           (acc.1 ++ [(ch, hintType o guessed needed)],
            if bool_decide (guessed = needed) then acc.2 else false))
        acc os
  = (acc.1 ++ ((fun o => (ch, hintType o guessed needed)) <$> os),
     if bool_decide (os = [] \/ guessed = needed) then acc.2 else false).
Proof.
  induction os as [|o os IH]; intros [l ok].
  - cbn [foldl fst snd]. rewrite fmap_nil, app_nil_r.
    by rewrite bool_decide_eq_true_2 by (by left).
  - cbn [foldl]. rewrite IH. cbn [fst snd]. rewrite fmap_cons, <- app_assoc.
    rewrite <- (app_comm_cons []), app_nil_l.
    f_equal. destruct (decide (guessed = needed)) as [Heq|Hne].
    + rewrite (bool_decide_eq_true_2 (os = [] \/ _)) by (by right).
      rewrite (bool_decide_eq_true_2 (guessed = needed)) by done.
      by rewrite (bool_decide_eq_true_2 (o :: os = [] \/ _)) by (by right).
    + rewrite (bool_decide_eq_false_2 (guessed = needed)) by done.
      rewrite (bool_decide_eq_false_2 (o :: os = [] \/ _)) by (by intros [?|?]).
      by destruct (bool_decide (os = [] \/ guessed = needed)).
Qed.

Lemma hint_outer_loop letters guesses (chs : list nat) :
  forall acc : list (nat * hintClass) * bool,
  foldl (fun (acc : list (nat * hintClass) * bool) ch =>
           let needed := default 0 (letters !! ch) in
           let guessed := default 0 (guesses !! ch) in
           foldl (fun (acc : list (nat * hintClass) * bool) o =>
                    (acc.1 ++ [(ch, hintType o guessed needed)],
                     if bool_decide (guessed = needed) then acc.2 else false))
                 acc (seq 0 needed))
        acc chs
  = (acc.1 ++ (chs ≫= hintRow letters guesses),
     if bool_decide (Forall (letterDone letters guesses) chs) then acc.2 else false).
Proof.
  induction chs as [|ch chs IH]; intros [l ok].
  - cbn [foldl fst snd]. change ([] ≫= hintRow letters guesses) with (@nil (nat * hintClass)).
    rewrite app_nil_r.
    by rewrite bool_decide_eq_true_2 by apply Forall_nil_2.
  - cbn [foldl]. cbv zeta. rewrite hint_inner_loop, IH. cbn [fst snd].
    rewrite bind_cons, <- app_assoc. f_equal.
    destruct (decide (letterDone letters guesses ch)) as [Hd|Hd].
    + rewrite (bool_decide_eq_true_2 (seq 0 _ = [] \/ _)).
      2:{ destruct Hd as [->|?]; [by left|by right]. }
      destruct (decide (Forall (letterDone letters guesses) chs)) as [Hf|Hf].
      * by rewrite !bool_decide_eq_true_2 by (done || by apply Forall_cons).
      * rewrite !bool_decide_eq_false_2; [done| |done].
        by intros [_ ?]%Forall_cons.
    + rewrite (bool_decide_eq_false_2 (Forall _ (ch :: chs)))
        by (by intros [? _]%Forall_cons).
      rewrite (bool_decide_eq_false_2 (seq 0 _ = [] \/ _)).
      * by destruct (bool_decide (Forall (letterDone letters guesses) chs)).
      * intros [Hs|Heq]; apply Hd; [left|by right].
        by destruct (default 0 (letters !! ch)).
Qed.

Lemma hintLoop_closed letters guesses :
  hintLoop letters guesses
  = (seq 0 26 ≫= hintRow letters guesses,
     bool_decide (Forall (letterDone letters guesses) (seq 0 26))).
Proof.
  unfold hintLoop. rewrite hint_outer_loop. cbn [fst snd]. f_equal.
  by destruct (bool_decide (Forall (letterDone letters guesses) (seq 0 26))).
Qed.

Lemma hintType_not_extra o guessed needed : o < needed -> hintType o guessed needed <> Extra.
Proof.
  intros Ho. unfold hintType. destruct (guessed <=? o); [done|].
  by replace (o <? needed) with true by (symmetry; by apply Nat.ltb_lt).
Qed.

Lemma lower_upper a : lowerAscii (upperAscii a) = lowerAscii a.
Proof. destruct a as [[] [] [] [] [] [] [] []]; vm_compute; reflexivity. Qed.

Lemma letterIndex_upper a :
  letterIndex (toUpperCase (String a EmptyString)) = letterIndex (String a EmptyString).
Proof. unfold letterIndex. simpl. by rewrite lower_upper. Qed.

(** With every counted tile guessed right, the two arrays of a header are
    equal. *)
Lemma hintCounts_solved g (horizontal : bool) i :
  gameOk g -> i < gameSize g ->
  (forall j, j < gameSize g ->
     let r := if horizontal then i else j in
     let c := if horizontal then j else i in
     counted g horizontal r c = true ->
     guessAt g r c = Some (JStr (toUpperCase (toString (tileOr (answer g) r c))))) ->
  (hintCounts g horizontal i).1 = (hintCounts g horizontal i).2.
Proof.
  intros (Hwf & Hsz & _) Hi Hsolved. unfold hintCounts.
  assert (Hgen : forall (js : list nat) (acc : list nat * list nat),
    acc.1 = acc.2 -> Forall (fun j => j < gameSize g) js ->
    let res := foldl (fun (acc : list nat * list nat) j =>
           let r := if horizontal then i else j in
           let c := if horizontal then j else i in
           if counted g horizontal r c then
             let guess := toString (default JUndefined (guessAt g r c)) in
             (bump acc.1 (letterIndex (toString (tileOr (answer g) r c))),
              if 0 <? String.length guess then bump acc.2 (letterIndex guess)
              else acc.2)
           else acc) acc js in
    res.1 = res.2).
  { induction js as [|j js IH]; intros acc Hacc Hjs; [done|].
    apply Forall_cons in Hjs as [Hj Hjs]. cbn [foldl]. apply IH; [|done].
    cbv zeta. destruct (counted g horizontal _ _) eqn:Hc; [|done].
    rewrite (Hsolved j Hj Hc). cbn [default toString fst snd].
    set (r := if horizontal then i else j). set (c := if horizontal then j else i).
    assert (Hr : r < size (answer g)) by (subst r; destruct horizontal; lia).
    assert (Hcc : c < size (answer g)) by (subst c; destruct horizontal; lia).
    destruct (isChar_inv _ (tileOr_isChar (answer g) r c Hwf Hr Hcc)) as [a ->].
    unfold id. cbn [toString]. rewrite letterIndex_upper. simpl (0 <? _). cbv iota.
    by rewrite Hacc. }
  apply Hgen; [done|]. apply Forall_forall. by intros j [_ Hj]%elem_of_seq.
Qed.

(** ** The script *)

Lemma script_run WORDS now rnd fuel j :
  WORDS <> [] ->
  Forall (fun w => 1 <= String.length w <= 10 /\ dotFree w) WORDS ->
  (inject_Z (now 1%nat - now 0%nat) < 5 * 1000)%Q ->
  j < fuel ->
  (5 * 1000 <= inject_Z (now (1 + j)%nat - now 0%nat))%Q ->
  exists b i cnt,
    createBoard WORDS now rnd fuel 5 10 = Some (Ok (Some b, cnt)) /\
    1 <= cnt /\ newBoard WORDS 10 (rnd i) = Ok b.
Proof.
  intros Hne Hfit Hfirst Hj Hexp.
  destruct (searchLoop_total WORDS now rnd (now 0%nat) 5 10 fuel 1 0%Q None 0 j
              Hne Hj Hexp) as [[best cnt] Hrun].
  unfold createBoard. rewrite Hrun.
  destruct fuel as [|fuel]; [lia|]. cbn [searchLoop] in Hrun.
  replace (Qltb (inject_Z (now 1%nat - now 0%nat)) (5 * 1000)) with true in Hrun
    by (symmetry; by apply Qltb_true_iff).
  destruct (newBoard WORDS 10 (rnd 0)) as [board|e] eqn:Hb; [|done].
  assert (Hfit' : forall w, w ∈ WORDS -> 1 <= String.length w <= 10 /\ dotFree w).
  { intros w Hw. rewrite Forall_forall in Hfit. by apply Hfit. }
  destruct (newBoard_places WORDS 10 (rnd 0) board Hne Hfit' Hb) as (_ & _ & Hd).
  replace (Qltb 0 (density board)) with true in Hrun
    by (symmetry; by apply Qltb_true_iff).
  destruct (searchLoop_spec WORDS now rnd _ _ _ _ _ _ _ _ _ _ Hrun)
    as (boards & -> & Hboards & [[-> _]|(b & -> & [i Hi]%list_elem_of_lookup_1 & _)]).
  - exists board, 0, (0 + 1 + length boards). split; [done|]. split; [lia|done].
  - exists b, (0 + 1 + i), (0 + 1 + length boards). split; [done|].
    split; [lia|]. by apply Hboards.
Qed.

(** ** Sample runs *)

Lemma reachable_boardWithCatAt : reachable sampleWords 4 boardWithCatAt.
Proof.
  apply (reachable_cycle sampleWords 4 boardWithCat (2, 1)).
  - apply (reachable_cycle sampleWords 4 (emptyBoard 4) (0, 0)).
    + apply reachable_init.
    + vm_compute. reflexivity.
  - vm_compute. reflexivity.
Qed.

Lemma trial_loop_step WORDS rnd i (idxs : list nat) b b1 :
  cycle WORDS (rnd i) b = (Ok tt, b1) ->
  forEach (R := unit) (i :: idxs) tt
    (fun _ i => cycle WORDS (rnd i) ;;; ret (Continue tt)) b
  = forEach (R := unit) idxs tt
      (fun _ i => cycle WORDS (rnd i) ;;; ret (Continue tt)) b1.
Proof. intros Hc. simpl. unfold bind at 1 2. by rewrite Hc. Qed.

(** On a board where no cycle places a word the trial loop changes nothing. *)
Lemma trial_loop_fixed WORDS rnd (idxs : list nat) b :
  (forall i, cycle WORDS (rnd i) b = (Ok tt, b)) ->
  forEach (R := unit) idxs tt
    (fun _ i => cycle WORDS (rnd i) ;;; ret (Continue tt)) b
  = (Ok (Continue tt), b).
Proof.
  intros Hfix. induction idxs as [|i idxs IH]; [done|].
  by rewrite (trial_loop_step WORDS rnd i idxs b b (Hfix i)).
Qed.

(** A run that settles after two cycles. *)
Lemma makePuzzle_settles WORDS rnd cycles n b1 b2 :
  2 <= cycles ->
  cycle WORDS (rnd 0) (emptyBoard n) = (Ok tt, b1) ->
  cycle WORDS (rnd 1) b1 = (Ok tt, b2) ->
  (forall i, cycle WORDS (rnd i) b2 = (Ok tt, b2)) ->
  makePuzzle WORDS cycles rnd (emptyBoard n) = (Ok tt, b2).
Proof.
  intros Hc H1 H2 Hfix.
  unfold makePuzzle. unfold bind at 1. simpl. unfold bind at 1.
  fold (emptyBoard n).
  destruct cycles as [|[|k]]; [lia|lia|].
  rewrite <- cons_seq, (trial_loop_step WORDS rnd 0 _ _ b1 H1).
  rewrite <- cons_seq, (trial_loop_step WORDS rnd 1 _ _ b2 H2).
  by rewrite trial_loop_fixed.
Qed.

Lemma newBoard_cross : newBoard crossWords 6 (fun _ => (0, 0)) = Ok crossBoard.
Proof.
  unfold newBoard.
  erewrite (makePuzzle_settles crossWords (fun _ => (0, 0)) DEFAULT_CYCLES 6);
    [reflexivity| | | |].
  - apply Nat.leb_le. vm_compute. reflexivity.
  - vm_compute. reflexivity.
  - vm_compute. reflexivity.
  - intros _. vm_compute. reflexivity.
Qed.

Lemma newGame_cross :
  newGame crossWords (fun _ => (0, 0)) (fun _ _ => false) = Ok crossGame.
Proof.
  unfold newGame.
  destruct (newPuzzle_run crossWords (fun _ => (0, 0)) (fun _ _ => false) 6 blankGame)
    as [(e & He & _)|(b & Hb & Hr)].
  - rewrite newBoard_cross in He. discriminate He.
  - rewrite newBoard_cross in Hb. injection Hb as <-. rewrite Hr. reflexivity.
Qed.

(** A game with a letter guessed: built, clicked at the top left, typed. *)
Lemma played_crossGameTyped : played crossWords crossGameTyped.
Proof.
  apply (played_key crossWords (fun _ => (0, 0)) (fun _ _ => false)
           crossGameClicked "a" (Ok tt)).
  - apply (played_click crossWords crossGame 1 1 (Ok tt)).
    + apply (played_new crossWords (fun _ => (0, 0)) (fun _ _ => false)).
      apply newGame_cross.
    + vm_compute. reflexivity.
  - apply (tileKey_letter crossWords (fun _ => (0, 0)) (fun _ _ => false) "a"
             crossGameClicked (Continue tt)); [reflexivity|].
    vm_compute. reflexivity.
Qed.

(** A search of one pass that keeps the board it built. *)
Lemma createBoard_cross :
  createBoard crossWords clockOnePass (fun _ _ => (0, 0)) 2 5 6
  = Some (Ok (Some crossBoard, 1)).
Proof.
  unfold createBoard. cbn [searchLoop].
  replace (Qltb (inject_Z (clockOnePass 1 - clockOnePass 0)) (5 * 1000)) with true
    by (vm_compute; reflexivity).
  rewrite newBoard_cross.
  replace (Qltb 0 (density crossBoard)) with true by (vm_compute; reflexivity).
  replace (Qltb (inject_Z (clockOnePass (1 + 1) - clockOnePass 0)) (5 * 1000))
    with false by (vm_compute; reflexivity).
  done.
Qed.

(** * Part V: further properties *)

(** ** The board generator *)

(** [X1] The validator accepts exactly the placements that keep the grid
    valid: on a well-formed board, for a placement that lies on the grid,
    [isValidPlacement] returns [true] if and only if no letter of the word
    conflicts with a letter on the board, the word covers an empty tile, the
    board has no placement yet or the word crosses a letter, and the grid the
    commit produces is valid. *)
Theorem validator_accepts_iff (WORDS : list string) (b : Board)
    (horizontal : bool) (r c : nat) (word : string) :
  wf b -> feasible (size b) horizontal r c (String.length word) ->
  (eval (isValidPlacement WORDS horizontal r c word) b = Ok true <->
   ~ hardConflict b horizontal r c word /\
   standaloneCount b horizontal r c word <> 0 /\
   (totalPlacements b = 0 \/ overlapCount b horizontal r c word <> 0) /\
   gridValid WORDS (exec (actuallyPlaceWord word horizontal r c) b)).
Proof. apply isValidPlacement_accepts. Qed.

Lemma validator_accepts_iff_witness :
  eval (isValidPlacement sampleWords false 0 1 "at") boardWithCat = Ok true <->
  ~ hardConflict boardWithCat false 0 1 "at" /\
  standaloneCount boardWithCat false 0 1 "at" <> 0 /\
  (totalPlacements boardWithCat = 0 \/ overlapCount boardWithCat false 0 1 "at" <> 0) /\
  gridValid sampleWords (exec (actuallyPlaceWord "at" false 0 1) boardWithCat).
Proof.
  apply (validator_accepts_iff sampleWords boardWithCat false 0 1 "at").
  - apply (bool_decide_unpack _). vm_compute. exact I.
  - apply (bool_decide_unpack _). vm_compute. exact I.
Defined.

(** [X2] A commit fills exactly the empty tiles under the word: on a
    well-formed board, for a placement on the grid of a word without the
    character ["."], the number of occupied tiles after [actuallyPlaceWord] is
    the number before plus the number of empty tiles the word covers. *)
Theorem commit_fills_standalone (b : Board) (horizontal : bool) (r c : nat)
    (word : string) :
  wf b -> feasible (size b) horizontal r c (String.length word) -> dotFree word ->
  occupied (exec (actuallyPlaceWord word horizontal r c) b)
  = occupied b + standaloneCount b horizontal r c word.
Proof. apply actuallyPlaceWord_occupied. Qed.

Lemma commit_fills_standalone_witness :
  occupied (exec (actuallyPlaceWord "at" false 0 1) boardWithCat)
  = occupied boardWithCat + standaloneCount boardWithCat false 0 1 "at".
Proof.
  apply (commit_fills_standalone boardWithCat false 0 1 "at").
  - apply (bool_decide_unpack _). vm_compute. exact I.
  - apply (bool_decide_unpack _). vm_compute. exact I.
  - apply (bool_decide_unpack _). vm_compute. exact I.
Defined.

(** [X3] The placement counter never exceeds the number of letters on the
    board: when no word of the list holds the character ["."], on every board
    a generation run reaches the counter is at most the number of occupied
    tiles, which is at most the number of tiles. *)
Theorem placements_bounded_by_letters (WORDS : list string) (n : nat) (b : Board) :
  Forall dotFree WORDS -> reachable WORDS n b ->
  totalPlacements b <= occupied b /\ occupied b <= n * n.
Proof.
  intros Hd Hreach. split; [by eapply reachable_counter|].
  destruct (reachable_wf WORDS n b Hreach) as [Hwf <-]. by apply occupied_le.
Qed.

Lemma placements_bounded_by_letters_witness :
  totalPlacements boardWithCatAt <= occupied boardWithCatAt /\
  occupied boardWithCatAt <= 4 * 4.
Proof.
  apply (placements_bounded_by_letters sampleWords 4 boardWithCatAt).
  - apply (bool_decide_unpack _). vm_compute. exact I.
  - apply reachable_boardWithCatAt.
Defined.

(** [X4] The density of a well-formed board of positive size lies between 0
    and 1. *)
Theorem density_unit_interval (b : Board) :
  wf b -> 0 < size b -> (0 <= density b)%Q /\ (density b <= 1)%Q.
Proof. apply density_range. Qed.

Lemma density_unit_interval_witness :
  (0 <= density boardWithCat)%Q /\ (density boardWithCat <= 1)%Q.
Proof.
  apply (density_unit_interval boardWithCat).
  - apply (bool_decide_unpack _). vm_compute. exact I.
  - simpl. lia.
Defined.

(** [X5] With a non-empty word list the constructor returns: [new Board(n)]
    runs its 50000 cycles without throwing and yields a well-formed board of
    size [n] whose grid is valid and whose counter is at most 50000. *)
Theorem constructor_returns_valid_board (WORDS : list string) (n : nat)
    (rnd : nat -> nat * nat) :
  WORDS <> [] ->
  exists b, newBoard WORDS n rnd = Ok b /\ wf b /\ size b = n /\
            gridValid WORDS b /\ totalPlacements b <= DEFAULT_CYCLES.
Proof.
  intros Hne. destruct (newBoard_total WORDS n rnd Hne) as [b Hb]. exists b.
  split; [done|].
  destruct (reachable_invariant WORDS n b (newBoard_reachable _ _ _ _ Hb))
    as (Hwf & Hsz & Hvalid).
  do 3 (split; [done|]). by eapply newBoard_counter.
Qed.

Lemma constructor_returns_valid_board_witness :
  exists b, newBoard sampleWords 4 (fun _ => (0, 0)) = Ok b /\ wf b /\ size b = 4 /\
            gridValid sampleWords b /\ totalPlacements b <= DEFAULT_CYCLES.
Proof.
  apply (constructor_returns_valid_board sampleWords 4 (fun _ => (0, 0))).
  discriminate.
Defined.



(** [X7] The size of the rendering: for a well-formed board of size [n],
    [toString()] has [(n + 2) * (n + 3)] characters, a frame of [n + 2] lines
    of [n + 2] characters each ending in a line feed; for the board of size 0
    it has 7. *)
Theorem toString_length (b : Board) :
  wf b ->
  String.length (boardToString b)
  = if size b =? 0 then 7 else (size b + 2) * (size b + 3).
Proof. apply length_boardToString. Qed.

Lemma toString_length_witness :
  String.length (boardToString boardWithCat)
  = if size boardWithCat =? 0 then 7 else (size boardWithCat + 2) * (size boardWithCat + 3).
Proof.
  apply (toString_length boardWithCat).
  apply (bool_decide_unpack _). vm_compute. exact I.
Defined.

(** [X8] The rendering loses nothing of the grid: two well-formed boards with
    the same [toString()] have the same size and the same tiles. *)
Theorem toString_injective (b1 b2 : Board) :
  wf b1 -> wf b2 -> boardToString b1 = boardToString b2 ->
  size b1 = size b2 /\ tiles b1 = tiles b2.
Proof. apply boardToString_inj. Qed.

Lemma toString_injective_witness :
  size boardWithCat = size (mkBoard 4 (tiles boardWithCat) 7) /\
  tiles boardWithCat = tiles (mkBoard 4 (tiles boardWithCat) 7).
Proof.
  apply (toString_injective boardWithCat (mkBoard 4 (tiles boardWithCat) 7)).
  - apply (bool_decide_unpack _). vm_compute. exact I.
  - apply (bool_decide_unpack _). vm_compute. exact I.
  - reflexivity.
Defined.

(** ** The player's game *)





(** [X11] Erasing with no row selected throws: when the selected row is not a
    row of the guesses, as it is before the first click, Backspace and Delete
    throw a [TypeError] and leave the game as it was. *)
Theorem erase_without_row_throws (WORDS : list string) (rnd : nat -> nat * nat)
    (coin : nat -> nat -> bool) (g : Game) (key : string) :
  key = "Backspace" \/ key = "Delete" ->
  ~ (0 <= selectedRow g < Z.of_nat (length (guesses g)))%Z ->
  tileKey WORDS rnd coin key g = (Throw TypeError, g).
Proof.
  intros Hkey Hrow. rewrite (tileKey_erase key g WORDS rnd coin Hkey).
  by rewrite eraseKey_no_row.
Qed.

Lemma erase_without_row_throws_witness :
  tileKey sampleWords (fun _ => (0, 0)) (fun _ _ => false) "Backspace" blankGame
  = (Throw TypeError, blankGame).
Proof.
  apply (erase_without_row_throws sampleWords (fun _ => (0, 0)) (fun _ _ => false)
           blankGame "Backspace").
  - left. reflexivity.
  - simpl. lia.
Defined.



(** [X13] The keys that ask for a new puzzle: with a non-empty word list, the
    key ["\"] at the current size, ["+"] and ["="] at one more, and ["-"] at
    one less when the size exceeds 4, return without throwing and install the
    board the constructor builds at that size, with every guess on the grid
    empty. The selection and the hint switch are kept as they were, so the
    selection can point at a solid tile or outside the new grid. *)
Theorem new_puzzle_keys (WORDS : list string) (rnd : nat -> nat * nat)
    (coin : nat -> nat -> bool) (g : Game) (key : string) (n : nat) :
  WORDS <> [] ->
  (key = "\" /\ n = gameSize g) \/
  ((key = "+" \/ key = "=") /\ n = gameSize g + 1) \/
  (key = "-" /\ 4 < gameSize g /\ n = gameSize g - 1) ->
  exists g',
    tileKey WORDS rnd coin key g = (Ok tt, g') /\
    newBoard WORDS n rnd = Ok (answer g') /\ gameSize g' = n /\
    (forall r c, r < n -> c < n -> guessAt g' r c = Some (JStr EmptyString)) /\
    selectedRow g' = selectedRow g /\ selectedColumn g' = selectedColumn g /\
    selectedHorizontal g' = selectedHorizontal g /\ hideHalf g' = hideHalf g.
Proof.
  intros Hne Hkey.
  destruct (tileKey_newPuzzle WORDS rnd coin key n g Hne Hkey) as (b & Hb & Hrun).
  eexists. split; [exact Hrun|]. split; [done|]. split; [done|].
  split; [|done]. intros r c Hr Hc. by apply guessAt_fresh.
Qed.

Lemma new_puzzle_keys_witness :
  exists g',
    tileKey sampleWords (fun _ => (0, 0)) (fun _ _ => false) "+" sampleGame
      = (Ok tt, g') /\
    newBoard sampleWords 5 (fun _ => (0, 0)) = Ok (answer g') /\ gameSize g' = 5 /\
    (forall r c, r < 5 -> c < 5 -> guessAt g' r c = Some (JStr EmptyString)) /\
    selectedRow g' = selectedRow sampleGame /\
    selectedColumn g' = selectedColumn sampleGame /\
    selectedHorizontal g' = selectedHorizontal sampleGame /\
    hideHalf g' = hideHalf sampleGame.
Proof.
  apply (new_puzzle_keys sampleWords (fun _ => (0, 0)) (fun _ _ => false)
           sampleGame "+" 5).
  - discriminate.
  - right. left. split; [by left|reflexivity].
Defined.

(** [X14] The size never goes below 4 by the keyboard: at size 4 or less the
    key ["-"] returns at once and changes nothing. *)
Theorem minus_key_floor (WORDS : list string) (rnd : nat -> nat * nat)
    (coin : nat -> nat -> bool) (g : Game) :
  gameSize g <= 4 -> tileKey WORDS rnd coin "-" g = (Ok tt, g).
Proof. apply tileKey_minus_floor. Qed.

Lemma minus_key_floor_witness :
  tileKey sampleWords (fun _ => (0, 0)) (fun _ _ => false) "-" sampleGame
  = (Ok tt, sampleGame).
Proof.
  apply (minus_key_floor sampleWords (fun _ => (0, 0)) (fun _ _ => false) sampleGame).
  simpl. lia.
Defined.

(** [X15] The invariant of play: in every game reached from the constructor
    by clicks and keys, whether the handlers returned or threw, the puzzle is
    a well-formed valid grid of the game's size, the size is at least 4,
    every guess on the grid is empty or one upper-case letter on a tile that
    holds a letter, and [draw()] returns without throwing. *)
Theorem play_invariant (WORDS : list string) (g : Game) :
  played WORDS g ->
  gameOk g /\ guessesOk g /\ 4 <= gameSize g /\
  gridValid WORDS (answer g) /\ draw g = (Ok tt, g).
Proof.
  intros (Hok & Hg & Hsz & Hreach)%played_gameInv.
  split; [done|]. split; [done|]. split; [done|].
  split; [|by apply draw_ok].
  by destruct (reachable_invariant WORDS (gameSize g) (answer g) Hreach) as (_ & _ & ?).
Qed.

Lemma play_invariant_witness :
  gameOk crossGameTyped /\ guessesOk crossGameTyped /\ 4 <= gameSize crossGameTyped /\
  gridValid crossWords (answer crossGameTyped) /\
  draw crossGameTyped = (Ok tt, crossGameTyped).
Proof.
  apply (play_invariant crossWords crossGameTyped).
  apply played_crossGameTyped.
Defined.

(** [X16] The constructor of the game: with an empty word list [new Game]
    throws a [TypeError]; with any other it returns a game of size 6 with
    nothing selected, the direction horizontal, the hint switch off and every
    guess empty, on which the invariant of play holds. *)
Theorem game_constructor (WORDS : list string) (rnd : nat -> nat * nat)
    (coin : nat -> nat -> bool) :
  if decide (WORDS = []) then newGame WORDS rnd coin = Throw TypeError
  else exists g,
    newGame WORDS rnd coin = Ok g /\ gameInv WORDS g /\ gameSize g = 6 /\
    selectedRow g = (-1)%Z /\ selectedColumn g = (-1)%Z /\
    selectedHorizontal g = true /\ hideHalf g = false /\
    (forall r c, r < 6 -> c < 6 -> guessAt g r c = Some (JStr EmptyString)).
Proof.
  case_decide as Hw.
  - subst WORDS. apply newGame_no_words.
  - destruct (newGame_total WORDS rnd coin Hw) as [g Hnew]. exists g.
    split; [done|]. by apply (newGame_gameInv WORDS rnd coin).
Qed.

(** ** The word list script *)

(** [X17] The matcher of the script decides its regular expression: a line
    matches with captured group [w] exactly when it is a run of digits, white
    space, a run of digits, white space, the run [w] of lower-case letters and
    white space up to its end, every run non-empty. *)
Theorem matcher_decides_regex (line w : list N) :
  matchLine line = Some w <-> matchesRegex line w.
Proof. apply matchLine_matchesRegex. Qed.

(** [X18] The script keeps the first 20000 qualifying words: what it writes is
    the list, in the order of the lines, of the captured words of 3 to 7
    letters, cut after 20000 entries. *)
Theorem word_list_first_qualifying (text : list N) :
  processWords text = take WORD_CAP (qualifying (splitLines text [])) /\
  length (processWords text) <= WORD_CAP.
Proof.
  split; [apply processWords_take|].
  rewrite processWords_take, length_take. lia.
Qed.

(** [X19] Every word the script writes fits the generator: it is the word
    captured on a line of the text, it has 3 to 7 letters, all of them
    lower-case ASCII letters, and as a string it holds no ["."], the value of
    an empty tile. *)
Theorem word_list_words_fit (text : list N) (word : list N) :
  word ∈ processWords text ->
  (exists line, line ∈ splitLines text [] /\ matchLine line = Some word) /\
  3 <= length word <= 7 /\
  Forall (fun u => isLower u = true) word /\
  String.length (unitsToString word) = length word /\
  dotFree (unitsToString word).
Proof.
  intros (line & Hin & Hm & Hg)%processWords_elem.
  destruct (matchLine_lower line word Hm) as [_ Hlow].
  split; [by exists line|].
  unfold goodLength in Hg. apply andb_true_iff in Hg as [H3%Nat.leb_le H7%Nat.leb_le].
  split; [lia|]. split; [done|].
  split; [apply unitsToString_length|by apply unitsToString_dotFree].
Qed.

Lemma word_list_words_fit_witness :
  (exists line, line ∈ splitLines sampleText [] /\
                matchLine line = Some [99; 97; 116]%N) /\
  3 <= length [99; 97; 116]%N <= 7 /\
  Forall (fun u => isLower u = true) [99; 97; 116]%N /\
  String.length (unitsToString [99; 97; 116]%N) = length [99; 97; 116]%N /\
  dotFree (unitsToString [99; 97; 116]%N).
Proof.
  apply (word_list_words_fit sampleText [99; 97; 116]%N).
  apply (bool_decide_unpack _). vm_compute. exact I.
Defined.

(** [X20] No piece of the split text holds a line feed. *)
Theorem split_leaves_no_line_feed (text : list N) :
  Forall (fun line => 10%N ∉ line) (splitLines text []).
Proof. apply splitLines_no_lf. Qed.

(** ** Boards that cannot stay empty *)

(** [X21] With words that all fit the board, no board stays empty: when the
    word list is not empty and each of its words has between 1 and [n]
    characters, none of them ["."], [new Board(n)] returns a board with at
    least one placement, one occupied tile and a positive density. *)
Theorem fitting_words_fill_board (WORDS : list string) (n : nat)
    (rnd : nat -> nat * nat) :
  WORDS <> [] ->
  Forall (fun w => 1 <= String.length w <= n /\ dotFree w) WORDS ->
  exists b, newBoard WORDS n rnd = Ok b /\
            1 <= totalPlacements b /\ 1 <= occupied b /\ (0 < density b)%Q.
Proof.
  intros Hne Hfit. destruct (newBoard_total WORDS n rnd Hne) as [b Hb].
  exists b. split; [done|]. eapply newBoard_places; [done| |done].
  intros w Hw. rewrite Forall_forall in Hfit. by apply Hfit.
Qed.

Lemma fitting_words_fill_board_witness :
  exists b, newBoard sampleWords 4 (fun _ => (0, 0)) = Ok b /\
            1 <= totalPlacements b /\ 1 <= occupied b /\ (0 < density b)%Q.
Proof.
  apply (fitting_words_fill_board sampleWords 4 (fun _ => (0, 0))).
  - discriminate.
  - apply (bool_decide_unpack _). vm_compute. exact I.
Defined.

(** [X22] With words that all fit the board, the search returns a null grid
    only when it built no board: whenever [createBoard] returns, its grid is
    null exactly when its count is 0, and a grid it returns has a positive
    density. *)
Theorem createBoard_null_only_without_boards (WORDS : list string)
    (now : nat -> Z) (rnd : nat -> nat -> nat * nat) (fuel : nat)
    (searchTimeSeconds : Q) (n : nat) (best : option Board) (cnt : nat) :
  WORDS <> [] ->
  Forall (fun w => 1 <= String.length w <= n /\ dotFree w) WORDS ->
  createBoard WORDS now rnd fuel searchTimeSeconds n = Some (Ok (best, cnt)) ->
  (best = None <-> cnt = 0) /\
  (forall b, best = Some b -> (0 < density b)%Q).
Proof.
  intros Hne Hfit Hrun.
  destruct (createBoard_spec WORDS now rnd fuel searchTimeSeconds n best cnt Hrun)
    as (boards & -> & Hb & Hbest).
  assert (Hpos : forall b, b ∈ boards -> (0 < density b)%Q).
  { intros b [i Hi]%list_elem_of_lookup_1.
    eapply (newBoard_places WORDS n (rnd i) b); [done| |by apply Hb].
    intros w Hw. rewrite Forall_forall in Hfit. by apply Hfit. }
  destruct Hbest as [[-> Hall]|(b & -> & Hin & Hd & _)].
  - split; [|done]. split; [|done]. intros _.
    destruct boards as [|b boards]; [done|]. exfalso.
    apply Forall_cons in Hall as [Hle _].
    apply (Qlt_not_le _ _ (Hpos b (list_elem_of_here _ _)) Hle).
  - split; [|by intros b' [= <-]]. split; [done|].
    intros Hlen. destruct boards; [by apply elem_of_nil in Hin|done].
Qed.

Lemma createBoard_null_only_without_boards_witness :
  (Some crossBoard = None <-> 1 = 0) /\
  (forall b, Some crossBoard = Some b -> (0 < density b)%Q).
Proof.
  apply (createBoard_null_only_without_boards crossWords clockOnePass
           (fun _ _ => (0, 0)) 2 5 6 (Some crossBoard) 1).
  - discriminate.
  - apply (bool_decide_unpack _). vm_compute. exact I.
  - apply createBoard_cross.
Defined.

(** [X23] The word list and the generator together: when the script writes at
    least one word, every board of size 7 or more that the constructor builds
    from the written list holds a word. The list is read back as it was
    written. *)
Theorem script_words_fill_board (text : list N) (n : nat)
    (rnd : nat -> nat * nat) :
  processWords text <> [] -> 7 <= n ->
  exists b, newBoard (unitsToString <$> processWords text) n rnd = Ok b /\
            1 <= totalPlacements b /\ 1 <= occupied b /\ (0 < density b)%Q.
Proof.
  intros Hne Hn.
  assert (Hne' : unitsToString <$> processWords text <> [])
    by (by apply unitsToString_inj_nil).
  destruct (newBoard_total _ n rnd Hne') as [b Hb].
  exists b. split; [done|]. eapply newBoard_places; [done| |done].
  intros w (word & -> & Hword)%list_elem_of_fmap.
  destruct (processWords_elem text word Hword) as (line & _ & Hm & Hg).
  destruct (matchLine_lower line word Hm) as [_ Hlow].
  unfold goodLength in Hg. apply andb_true_iff in Hg as [H3%Nat.leb_le H7%Nat.leb_le].
  rewrite unitsToString_length. split; [lia|by apply unitsToString_dotFree].
Qed.

Lemma script_words_fill_board_witness :
  exists b, newBoard (unitsToString <$> processWords sampleText) 7 (fun _ => (0, 0))
              = Ok b /\
            1 <= totalPlacements b /\ 1 <= occupied b /\ (0 < density b)%Q.
Proof.
  apply (script_words_fill_board sampleText 7 (fun _ => (0, 0))).
  - vm_compute. discriminate.
  - lia.
Defined.

(** ** The letter hints *)

(** [X24] The hint class ["extra"] is never painted: every entry of a header
    is for one of the 26 letters, one that the line holds, and its class is
    ["needed"] or ["satisfied"]. *)
Theorem hint_never_extra (letters guesses : list nat) (ch : nat) (cls : hintClass) :
  (ch, cls) ∈ (hintLoop letters guesses).1 ->
  ch < 26 /\ 0 < default 0 (letters !! ch) /\ cls <> Extra.
Proof.
  rewrite hintLoop_closed. cbn [fst].
  intros (ch' & Hin & Hch)%list_elem_of_bind. unfold hintRow in Hin.
  apply list_elem_of_fmap in Hin as (o & [= -> ->] & Ho).
  apply elem_of_seq in Ho. apply elem_of_seq in Hch.
  split; [lia|]. split; [lia|]. apply hintType_not_extra. lia.
Qed.

Lemma hint_never_extra_witness :
  2 < 26 /\ 0 < default 0 (<[2:=1]> (replicate 26 0) !! 2) /\ Needed <> Extra.
Proof.
  apply (hint_never_extra (<[2:=1]> (replicate 26 0)) (replicate 26 0) 2 Needed).
  apply (bool_decide_unpack _). vm_compute. exact I.
Defined.

(** [X25] A header is marked all-correct exactly when, for every letter the
    line holds, the guesses counted hold as many copies as the line; guesses
    of letters the line does not hold are not looked at. *)
Theorem all_correct_iff (letters guesses : list nat) :
  (hintLoop letters guesses).2 = true <->
  forall ch, ch < 26 ->
    default 0 (letters !! ch) = 0 \/
    default 0 (guesses !! ch) = default 0 (letters !! ch).
Proof.
  rewrite hintLoop_closed. cbn [snd]. rewrite bool_decide_eq_true, Forall_forall.
  split.
  - intros H ch Hch. apply (H ch). apply elem_of_seq. lia.
  - intros H ch Hch%elem_of_seq. apply H. lia.
Qed.

(** [X26] A solved line is marked all-correct: on a coherent game, when on a
    line every tile that counts for its header carries as its guess the
    letter of the tile in upper case, the header of the line is marked
    all-correct. *)
Theorem solved_line_all_correct (g : Game) (horizontal : bool) (i : nat) :
  gameOk g -> i < gameSize g ->
  (forall j, j < gameSize g ->
     let r := if horizontal then i else j in
     let c := if horizontal then j else i in
     counted g horizontal r c = true ->
     guessAt g r c = Some (JStr (toUpperCase (toString (tileOr (answer g) r c))))) ->
  (hintLoop (hintCounts g horizontal i).1 (hintCounts g horizontal i).2).2 = true.
Proof.
  intros Hok Hi Hsolved.
  rewrite <- (hintCounts_solved g horizontal i Hok Hi Hsolved).
  rewrite hintLoop_closed. cbn [snd]. apply bool_decide_eq_true, Forall_forall.
  intros ch _. by right.
Qed.

Lemma solved_line_all_correct_witness :
  (hintLoop (hintCounts solvedGame true 0).1 (hintCounts solvedGame true 0).2).2 = true.
Proof.
  apply (solved_line_all_correct solvedGame true 0).
  - apply (bool_decide_unpack _). vm_compute. exact I.
  - simpl. lia.
  - intros j Hj. simpl in Hj.
    destruct j as [|[|[|[|j]]]]; [reflexivity|reflexivity|reflexivity| |lia].
    simpl. discriminate.
Defined.

(** ** The script *)

(** [X27] The script prints a board: when the word list is not empty and each
    word has between 1 and 10 characters, none of them ["."], and the clock
    shows less than 5 seconds at the first test of the loop and 5 seconds or
    more at a later one, the script does not throw and its first line of
    output is the rendering of a board of size 10, 156 characters long. *)
Theorem script_prints_board (WORDS : list string) (now : nat -> Z)
    (rnd : nat -> nat -> nat * nat) (fuel j : nat) :
  WORDS <> [] ->
  Forall (fun w => 1 <= String.length w <= 10 /\ dotFree w) WORDS ->
  (inject_Z (now 1%nat - now 0%nat) < 5 * 1000)%Q ->
  j < fuel ->
  (5 * 1000 <= inject_Z (now (1 + j)%nat - now 0%nat))%Q ->
  exists b i,
    script WORDS now rnd fuel = Some (Ok (boardToString b)) /\
    newBoard WORDS 10 (rnd i) = Ok b /\
    String.length (boardToString b) = 156.
Proof.
  intros Hne Hfit Hfirst Hj Hexp.
  destruct (script_run WORDS now rnd fuel j Hne Hfit Hfirst Hj Hexp)
    as (b & i & cnt & Hrun & _ & Hb).
  exists b, i. unfold script. rewrite Hrun. split; [done|]. split; [done|].
  destruct (reachable_wf WORDS 10 b (newBoard_reachable _ _ _ _ Hb)) as [Hwf Hsz].
  rewrite length_boardToString by done. by rewrite Hsz.
Qed.

Lemma script_prints_board_witness :
  exists b (i : nat),
    script sampleWords clockSteady (fun _ _ => (0, 0)) 60 = Some (Ok (boardToString b)) /\
    newBoard sampleWords 10 (fun _ => (0, 0)) = Ok b /\
    String.length (boardToString b) = 156.
Proof.
  apply (script_prints_board sampleWords clockSteady (fun _ _ => (0, 0)) 60 50).
  - discriminate.
  - apply (bool_decide_unpack _). vm_compute. exact I.
  - vm_compute. reflexivity.
  - lia.
  - vm_compute. discriminate.
Defined.
